(** * Package-manifest updater: utility/npm.js

    A shallow embedding of the three functions of [src/utility/npm.js]
    ([_getVersionFromNpmPackage], [_getNpmPackageJson],
    [_getRecursiveVersions]) and of the rule chain [updatePackageJson],
    followed by the properties of the resolution algorithm.

    Conventions.
    - JavaScript strings are [string]; a value is truthy when it is a
      non-empty string.
    - The objects [packages] and [allVersions], which the code only reads and
      writes by key, are [gmap string string].  Objects whose keys are
      enumerated with [Object.keys] (dependency fields, [dist-tags],
      [versions]) are association lists in key order.
    - An object is read by its own entries.  A key that names a member
      that every object inherits ([constructor], [toString], ...) is
      outside the model; the theorems that depend on it say so.
    - A thrown exception is [Throw]; the first one aborts the whole
      observable chain, as an error notification does in rxjs.
    - The recursion of [_getRecursiveVersions] is not structural, so it takes
      a fuel argument bounding the depth of nested calls. *)

From Stdlib Require Import Ascii String DecimalString DecimalNat.
From stdpp Require Import gmap strings list.

Local Open Scope string_scope.

(** ** JavaScript values *)

(** [!!s] for a string. *)
Definition truthy (s : string) : bool :=
  match s with
  | EmptyString => false
  | String _ _ => true
  end.

(** [o[k]] when it is truthy ([undefined] and the empty string are not). *)
Definition prop (o : gmap string string) (k : string) : option string :=
  match o !! k with
  | Some s => if truthy s then Some s else None
  | None => None
  end.

(** A nullable string used as a condition: [null] and the empty string are
    falsy. *)
Definition nonEmpty (o : option string) : option string :=
  match o with
  | Some s => if truthy s then Some s else None
  | None => None
  end.

(** A JavaScript object with string values, as the list of its own entries in
    key order. *)
Definition deps : Type := list (string * string).

(** [o[k]] for an object given by its entries. *)
Fixpoint lookupKey {A : Type} (k : string) (o : list (string * A)) : option A :=
  match o with
  | [] => None
  | (k', v) :: rest => if String.eqb k k' then Some v else lookupKey k rest
  end.

(** ** Errors and results *)

Inductive error : Type :=
| InvalidRangeOrVersion (version : string)
| NoSatisfyingVersion (version name : string)
| CannotDowngrade (depName depVersion updateVersion : string)
| ConflictingDependencies (depName updateVersion current : string)
| RegistryFailure
| LibraryThrow
| CouldNotFindPackageJson
| CouldNotParsePackageJson.

Inductive outcome (A : Type) : Type :=
| Done (a : A)
| Throw (e : error)
| OutOfFuel.

Arguments Done {A} a.
Arguments Throw {A} e.
Arguments OutOfFuel {A}.

Definition bind {A B : Type} (m : outcome A) (k : A -> outcome B) : outcome B :=
  match m with
  | Done a => k a
  | Throw e => Throw e
  | OutOfFuel => OutOfFuel
  end.

Notation "x <- m ;; k" := (bind m (fun x => k))
  (at level 100, m at next level, right associativity).

(** A library call that throws is [None]. *)
Definition orThrow {A : Type} (o : option A) : outcome A :=
  match o with
  | Some a => Done a
  | None => Throw LibraryThrow
  end.

(** A synchronous loop over a list that stops at the first exception. *)
Fixpoint forEach {A S : Type} (f : A -> S -> outcome S) (l : list A) (s : S)
  : outcome S :=
  match l with
  | [] => Done s
  | a :: rest => s' <- f a s ;; forEach f rest s'
  end.

(** ** The semver libraries

    The code calls the npm packages [semver] and [semver-intersect], which
    are not part of this repository.  Their operations are an interface; the
    general theorems hold for every implementation of it, and [NpmSemver]
    below is an executable instance. *)

Class Semver : Type := {
  (** [semver.validRange(r)] is truthy. *)
  validRange : string -> bool;
  (** [semver.valid(v)] is truthy. *)
  valid : string -> bool;
  (** [semver.maxSatisfying(versions, r)]; [None] is [null]. *)
  maxSatisfying : list string -> string -> option string;
  (** [semver.intersects(r1, r2)]; [None] when it throws. *)
  intersects : string -> string -> option bool;
  (** [semver.lt(v1, v2)]; [None] when it throws. *)
  lt : string -> string -> option bool;
  (** [semverIntersect.intersect(r1, r2)]; [None] when it throws. *)
  intersect : string -> string -> option string;
  (** [semverIntersect.parseRange(r).version]; [None] when it throws. *)
  parseRangeVersion : string -> option string;
}.

(** ** Registry metadata *)

(** The manifest of one published version. *)
Record versionManifest : Type := {
  peerDependencies : option deps;
}.

(** The registry document of one package. *)
Record npmPackageJson : Type := {
  name : string;
  distTags : option deps;
  versions : option (list (string * versionManifest));
}.

(** What a subject is notified of: a parsed body, or an error (the body
    does not parse, or the response stream fails).  A request that fails
    before any response notifies nothing: see [transport]. *)
Inductive response : Type :=
| Body (json : npmPackageJson)
| Failure.

(** [distTags && distTags[version]], when truthy. *)
Definition distTag (json : npmPackageJson) (version : string) : option string :=
  match distTags json with
  | Some tags => nonEmpty (lookupKey version tags)
  | None => None
  end.

(** [version.match(/^[~^]/)]: the matched operator. *)
Definition maybeOperator (version : string) : option string :=
  match version with
  | String c _ =>
      if (Ascii.eqb c "~" || Ascii.eqb c "^")%bool
      then Some (String c EmptyString) else None
  | EmptyString => None
  end.

(** [(loose ? '~' : '')]. *)
Definition looseOperator (loose : bool) : string :=
  if loose then "~" else EmptyString.

Section Selection.
Context `{Semver}.

(** The selector after the widening of line 34. *)
Definition widen (version : string) (loose : bool) : string :=
  if (valid version && loose)%bool then "~" ++ version else version.

Definition _getVersionFromNpmPackage
    (json : npmPackageJson) (version : string) (loose : bool) : outcome string :=
  match distTag json version with
  | Some tagged => Done (looseOperator loose ++ tagged)
  | None =>
      if negb (validRange version) then Throw (InvalidRangeOrVersion version)
      else
        let version := widen version loose in
        packageVersions <- orThrow (versions json) ;;
        match nonEmpty (maxSatisfying (map fst packageVersions) version) with
        | None => Throw (NoSatisfyingVersion version (name json))
        | Some maybeMatch =>
            if String.eqb version "*" then Done maybeMatch
            else
              match maybeOperator version with
              | Some op => Done (op ++ maybeMatch)
              | None => Done (looseOperator loose ++ maybeMatch)
              end
        end
  end.
End Selection.

(** ** Registry client *)

(** The value that the second stage builds from a response (npm.js:118): the
    requested selector [packages[depName]], the dependency and the
    constraint the manifest declares for it. *)
Record request : Type := {
  version : string;
  depName : string;
  depVersion : string;
}.

(** A [ReplaySubject(1)]: what it has been notified of ([None] while the
    request is in flight) and the subscribers waiting for it, in
    subscription order. *)
Record subject : Type := {
  notified : option response;
  observers : list request;
}.

(** The state of the registry client: the process-wide cache, and the log of
    the urls given to [https.request], most recent first. *)
Record registryClient : Type := {
  npmPackageJsonCache : gmap string subject;
  requests : list string;
}.

(** The mutable state of a run: its accumulator and the registry client. *)
Record world : Type := {
  allVersions : gmap string string;
  client : registryClient;
}.

Definition setAllVersions (depName constraint : string) (w : world) : world :=
  {| allVersions := <[depName := constraint]> (allVersions w); client := client w |}.

Definition setClient (c : registryClient) (w : world) : world :=
  {| allVersions := allVersions w; client := c |}.

Definition setSubject (url : string) (s : subject) (c : registryClient) : registryClient :=
  {| npmPackageJsonCache := <[url := s]> (npmPackageJsonCache c);
     requests := requests c |}.

(** [packageName.replace(/\//g, '%2F')]. *)
Fixpoint escapeSlashes (packageName : string) : string :=
  match packageName with
  | EmptyString => EmptyString
  | String c rest =>
      if Ascii.eqb c "/" then "%2F" ++ escapeSlashes rest
      else String c (escapeSlashes rest)
  end.

Definition registryUrl (packageName : string) : string :=
  "https://registry.npmjs.org/" ++ escapeSlashes packageName.

(** Returns the cache key of the subject: the cached one, or a new one for
    which a request is issued. *)
Definition _getNpmPackageJson (packageName : string) (c : registryClient)
  : string * registryClient :=
  let url := registryUrl packageName in
  match npmPackageJsonCache c !! url with
  | Some _ => (url, c)
  | None =>
      (url,
       {| npmPackageJsonCache :=
            <[url := {| notified := None; observers := [] |}]> (npmPackageJsonCache c);
          requests := url :: requests c |})
  end.

(** A subscriber is added to the subject of [url]. *)
Definition attach (url : string) (r : request) (c : registryClient) : registryClient :=
  match npmPackageJsonCache c !! url with
  | Some s => setSubject url {| notified := notified s; observers := observers s ++ [r] |} c
  | None => c
  end.

(** The subscribers that wait for [url], when its request is in flight. *)
Definition inFlight (c : registryClient) (url : string) : option (list request) :=
  match npmPackageJsonCache c !! url with
  | Some {| notified := None; observers := waiting |} => Some waiting
  | _ => None
  end.

(** The subject of [url] records the response; its subscribers are served
    and leave. *)
Definition settle (url : string) (resp : response) (c : registryClient) : registryClient :=
  setSubject url {| notified := Some resp; observers := [] |} c.

(** What the registry client does, seen from outside: a call of
    [_getNpmPackageJson], a subscription to the subject it returned, and
    the end of a request. *)
Inductive clientEvent : Type :=
| Call (packageName : string)
| Subscribe (url : string) (r : request)
| Respond (url : string) (resp : response).

Definition clientStep (c : registryClient) (e : clientEvent) : registryClient :=
  match e with
  | Call packageName => (_getNpmPackageJson packageName c).2
  | Subscribe url r =>
      match npmPackageJsonCache c !! url with
      | Some {| notified := None |} => attach url r c
      | _ => c
      end
  | Respond url resp =>
      match inFlight c url with
      | Some _ => settle url resp c
      | None => c
      end
  end.

(** What the transport does to a request (npm.js:67-82): the response
    ends after its chunks, the response stream fails, or the request itself
    fails (the connection is refused, the name is not resolved), for which
    the code registers no handler. *)
Inductive transport : Type :=
| ResponseEnd (chunks : list string)
| ResponseError
| RequestError.

(** What the subject is notified of, if anything.  [parseBody] is
    [parseJson(data, JsonParseMode.Strict)], [None] when it throws. *)
Definition received (parseBody : string -> option npmPackageJson) (t : transport)
  : option response :=
  match t with
  | ResponseEnd chunks =>
      match parseBody (String.concat EmptyString chunks) with
      | Some json => Some (Body json)
      | None => Some Failure
      end
  | ResponseError => Some Failure
  | RequestError => None
  end.

(** The registry client after the transport event [t] of the request for
    [url]. *)
Definition transportStep (parseBody : string -> option npmPackageJson)
    (c : registryClient) (url : string) (t : transport) : registryClient :=
  match received parseBody t with
  | Some resp => clientStep c (Respond url resp)
  | None => c
  end.

(** Subscribing to the cached subject: a subject that has been notified
    replays synchronously; otherwise the subscriber waits. *)
Definition subscribe (next : request -> npmPackageJson -> world -> outcome world)
    (url : string) (r : request) (w : world) : outcome world :=
  s <- orThrow (npmPackageJsonCache (client w) !! url) ;;
  match notified s with
  | Some (Body json) => next r json w
  | Some Failure => Throw RegistryFailure
  | None => Done (setClient (attach url r (client w)) w)
  end.

(** ** Resolution engine *)

Definition kPackageJsonDependencyFields : list string :=
  ["dependencies"; "devDependencies"; "peerDependencies"; "optionalDependencies"].

(** The root manifest, as its dependency fields. *)
Definition packageJson : Type := list (string * deps).

(** First stage (npm.js:100-109): the entries of the four fields, in
    order. *)
Definition declaredEdges (pj : packageJson) : list (string * string) :=
  flat_map (fun field => match lookupKey field pj with
                         | Some d => d
                         | None => []
                         end) kPackageJsonDependencyFields.

(** The object [dependencies] of npm.js:130-136. *)
Definition peerTargets (inner : versionManifest) : gmap string string :=
  match peerDependencies inner with
  | Some d => foldl (fun o e => <[e.1 := e.2]> o) ∅ d
  | None => ∅
  end.

Section Engine.
Context `{Semver}.

(** npm.js:138-148. *)
Definition mergeUpdate (depName updateVersion : string) (w : world) : outcome world :=
  match prop (allVersions w) depName with
  | Some current =>
      compatible <- orThrow (intersects current updateVersion) ;;
      if negb compatible
      then Throw (ConflictingDependencies depName updateVersion current)
      else
        merged <- orThrow (intersect current updateVersion) ;;
        Done (setAllVersions depName merged w)
  | None => Done (setAllVersions depName updateVersion w)
  end.

(** Third stage (npm.js:119-150), applied to a response body.  [recurse] is
    the recursive call of line 149. *)
Definition recordUpdate
    (recurse : gmap string string -> world -> outcome world)
    (loose : bool) (r : request) (json : npmPackageJson) (w : world)
  : outcome world :=
  updateVersion <- _getVersionFromNpmPackage json (version r) loose ;;
  npmPackageVersions <- orThrow (versions json) ;;
  match nonEmpty (maxSatisfying (map fst npmPackageVersions) updateVersion) with
  | None => Done w
  | Some matched =>
      updateMin <- orThrow (parseRangeVersion updateVersion) ;;
      declaredMin <- orThrow (parseRangeVersion (depVersion r)) ;;
      downgrade <- orThrow (lt updateMin declaredMin) ;;
      if downgrade
      then Throw (CannotDowngrade (depName r) (depVersion r) updateVersion)
      else
        innerNpmPackageJson <- orThrow (lookupKey matched npmPackageVersions) ;;
        let dependencies := peerTargets innerNpmPackageJson in
        w' <- mergeUpdate (depName r) updateVersion w ;;
        recurse dependencies w'
  end.

(** The fast path of npm.js:114-117: [Some] when it applies. *)
Definition narrowDeclared (depName depVersion : string) (w : world)
  : outcome (option world) :=
  match prop (allVersions w) depName with
  | Some current =>
      compatible <- orThrow (intersects current depVersion) ;;
      if compatible
      then
        merged <- orThrow (intersect current depVersion) ;;
        Done (Some (setAllVersions depName merged w))
      else Done None
  | None => Done None
  end.

(** Second stage (npm.js:110-118) followed by the third when the response
    is already there. *)
Definition filterEdge
    (recurse : gmap string string -> world -> outcome world)
    (loose : bool) (packages : gmap string string)
    (edge : string * string) (w : world) : outcome world :=
  let '(depName, depVersion) := edge in
  match prop packages depName with
  | None => Done w
  | Some version =>
      if String.eqb version depVersion then Done w
      else
        narrowed <- narrowDeclared depName depVersion w ;;
        match narrowed with
        | Some w' => Done w'
        | None =>
            let '(url, c) := _getNpmPackageJson depName (client w) in
            subscribe (recordUpdate recurse loose) url
              {| version := version; depName := depName; depVersion := depVersion |}
              (setClient c w)
        end
  end.

(** The synchronous part of a call: every edge is filtered in order, and an
    edge whose response is cached is resolved, and its peers walked,
    before the next edge. *)
Fixpoint _getRecursiveVersions (fuel : nat) (pj : packageJson)
    (packages : gmap string string) (w : world) (loose : bool) : outcome world :=
  match fuel with
  | 0 => OutOfFuel
  | S fuel' =>
      forEach
        (filterEdge (fun dependencies w' =>
                       _getRecursiveVersions fuel' pj dependencies w' loose)
                    loose packages)
        (declaredEdges pj) w
  end.

(** The response for [url] arrives: the subject records it and notifies
    its subscribers in order; each runs the third stage. *)
Definition respond (recurse : gmap string string -> world -> outcome world)
    (loose : bool) (url : string) (resp : response) (w : world) : outcome world :=
  match inFlight (client w) url with
  | Some waiting =>
      let w1 := setClient (settle url resp (client w)) w in
      match resp with
      | Body json => forEach (fun r => recordUpdate recurse loose r json) waiting w1
      | Failure =>
          match waiting with
          | [] => Done w1
          | _ :: _ => Throw RegistryFailure
          end
      end
  | None => Done w
  end.
End Engine.

(** A registry snapshot: what each url answers. *)
Definition registry : Type := list (string * response).

Definition answer (reg : registry) (url : string) : response :=
  match lookupKey url reg with
  | Some resp => resp
  | None => Failure
  end.

Section Run.
Context `{Semver}.

(** The responses arrive in the order of [schedule]. *)
Fixpoint deliver (recurse : gmap string string -> world -> outcome world)
    (loose : bool) (reg : registry) (schedule : list string) (w : world)
  : outcome world :=
  match schedule with
  | [] => Done w
  | url :: rest =>
      w' <- respond recurse loose url (answer reg url) w ;;
      deliver recurse loose reg rest w'
  end.

(** A run: the synchronous walk of the root call, then the responses. *)
Definition resolve (fuel : nat) (pj : packageJson) (packages : gmap string string)
    (loose : bool) (reg : registry) (schedule : list string) (w : world)
  : outcome world :=
  w' <- _getRecursiveVersions fuel pj packages w loose ;;
  deliver (fun dependencies w'' => _getRecursiveVersions fuel pj dependencies w'' loose)
          loose reg schedule w'.
End Run.

(** No subscriber is waiting: the observable of the run has completed. *)
Definition settled (w : world) : bool :=
  forallb (fun entry => match observers entry.2 with [] => true | _ => false end)
          (map_to_list (npmPackageJsonCache (client w))).

Definition emptyClient : registryClient :=
  {| npmPackageJsonCache := ∅; requests := [] |}.

Definition emptyWorld : world :=
  {| allVersions := ∅; client := emptyClient |}.

(** ** The rule chain *)

(** The host of a rule: the files of the tree and the tasks of the
    context. *)
Record host : Type := {
  tree : gmap string string;
  tasks : list string;
}.

Inductive ruleResult : Type :=
| Applied
| AwaitingResponses
| Failed (e : error)
| Exhausted.

(** npm.js:195-199 for one field. *)
Definition overwriteDeps (allVersions : gmap string string) (d : deps) : deps :=
  map (fun entry => match prop allVersions entry.1 with
                    | Some constraint => (entry.1, constraint)
                    | None => entry
                    end) d.

(** npm.js:190-200. *)
Definition applyVersions (allVersions : gmap string string) (pj : packageJson)
  : packageJson :=
  map (fun field =>
         if bool_decide (field.1 ∈ kPackageJsonDependencyFields)
         then (field.1, overwriteDeps allVersions field.2)
         else field) pj.

(** npm.js:175-178. *)
Definition anchorTargets (supportedPackages : list string) (version : string)
  : gmap string string :=
  foldl (fun packages name => <[name := version]> packages) ∅ supportedPackages.

(** [maybeVersion ? maybeVersion : 'latest'], with the default of the
    parameter. *)
Definition requestedVersion (maybeVersion : option string) : string :=
  match nonEmpty maybeVersion with
  | Some v => v
  | None => "latest"
  end.

(** The state in which a run starts: an empty accumulator (npm.js:164) and
    the registry client of the process. *)
Definition freshRun (c : registryClient) : world :=
  {| allVersions := ∅; client := c |}.

Section Rule.
Context `{Semver}.

(** [parseJson] followed by the object test of npm.js:172; [None] when
    either throws: the exception of [parseJson] itself and the
    could-not-parse exception of npm.js:173 are not told apart. *)
Variable parseJson : string -> option packageJson.
(** [JSON.stringify(packageJson, null, 2) + '\n']. *)
Variable stringify : packageJson -> string.

(** npm.js:167-174 and 182-189. *)
Definition readPackageJson (h : host) : outcome packageJson :=
  match tree h !! "/package.json" with
  | None => Throw CouldNotFindPackageJson
  | Some packageJsonContent =>
      match parseJson packageJsonContent with
      | None => Throw CouldNotParsePackageJson
      | Some pj => Done pj
      end
  end.

(** First rule (npm.js:166-180).  It reads the tree and does not write
    it. *)
Definition resolveRule (supportedPackages : list string) (version : string)
    (loose : bool) (fuel : nat) (reg : registry) (schedule : list string)
    (w : world) (h : host) : outcome world :=
  pj <- readPackageJson h ;;
  resolve fuel pj (anchorTargets supportedPackages version) loose reg schedule w.

(** Second rule (npm.js:181-203). *)
Definition overwriteRule (allVersions : gmap string string) (h : host)
  : outcome host :=
  pj <- readPackageJson h ;;
  Done {| tree := <["/package.json" := stringify (applyVersions allVersions pj)]> (tree h);
          tasks := tasks h |}.

(** Third rule (npm.js:204-206). *)
Definition installRule (h : host) : host :=
  {| tree := tree h; tasks := tasks h ++ ["NodePackageInstallTask"] |}.

(** The chain run on a host; [c] is the registry client of the process, and
    the accumulator starts empty (npm.js:164).  The second rule runs when
    the observable of the first completes. *)
Definition updatePackageJson (supportedPackages : list string)
    (maybeVersion : option string) (loose : bool)
    (fuel : nat) (reg : registry) (schedule : list string)
    (c : registryClient) (h : host) : host * ruleResult :=
  let version := requestedVersion maybeVersion in
  let w0 := freshRun c in
  match resolveRule supportedPackages version loose fuel reg schedule w0 h with
  | Throw e => (h, Failed e)
  | OutOfFuel => (h, Exhausted)
  | Done w' =>
      if settled w'
      then match overwriteRule (allVersions w') h with
           | Done h' => (installRule h', Applied)
           | Throw e => (h, Failed e)
           | OutOfFuel => (h, Exhausted)
           end
      else (h, AwaitingResponses)
  end.
End Rule.

(** ** An executable instance of the semver interface

    [NpmSemver] follows the packages [semver] (5.x) and [semver-intersect]
    on the fragment that the updater meets in practice: versions
    [MAJOR.MINOR.PATCH] of numeric identifiers without leading zeros, and
    ranges that are space-separated lists of [*], [X.Y.Z], [=X.Y.Z],
    [>X.Y.Z], [>=X.Y.Z], [<X.Y.Z], [<=X.Y.Z], [~X.Y.Z] and [^X.Y.Z].
    Prerelease tags, build metadata, partial versions, hyphen ranges and
    [||] are outside the fragment and are treated as invalid.  Numeric
    identifiers are unbounded, where [semver] rejects those above
    [Number.MAX_SAFE_INTEGER]. *)
Module NpmSemver.

Definition triple : Type := nat * nat * nat.

Definition major (v : triple) : nat := v.1.1.
Definition minor (v : triple) : nat := v.1.2.
Definition patch (v : triple) : nat := v.2.

Definition printNumber (n : nat) : string :=
  NilZero.string_of_uint (Nat.to_uint n).

(** A numeric identifier: [0|[1-9]\d*]. *)
Definition parseNumber (s : string) : option nat :=
  match NilZero.uint_of_string s with
  | Some d =>
      let n := Nat.of_uint d in
      if String.eqb (printNumber n) s then Some n else None
  | None => None
  end.

(** The text before and after the first occurrence of [c]. *)
Fixpoint splitAt (c : ascii) (s : string) : option (string * string) :=
  match s with
  | EmptyString => None
  | String a rest =>
      if Ascii.eqb a c then Some (EmptyString, rest)
      else match splitAt c rest with
           | Some (before, after) => Some (String a before, after)
           | None => None
           end
  end.

Definition printVersion (v : triple) : string :=
  printNumber (major v) ++ "." ++ printNumber (minor v) ++ "." ++ printNumber (patch v).

Definition parseVersion (s : string) : option triple :=
  match splitAt "." s with
  | Some (a, rest) =>
      match splitAt "." rest with
      | Some (b, c) =>
          match parseNumber a, parseNumber b, parseNumber c with
          | Some x, Some y, Some z => Some (x, y, z)
          | _, _, _ => None
          end
      | None => None
      end
  | None => None
  end.

Definition compareVersion (a b : triple) : comparison :=
  match Nat.compare (major a) (major b) with
  | Eq => match Nat.compare (minor a) (minor b) with
          | Eq => Nat.compare (patch a) (patch b)
          | c => c
          end
  | c => c
  end.

Definition ltVersion (a b : triple) : bool :=
  match compareVersion a b with Lt => true | _ => false end.
Definition leVersion (a b : triple) : bool :=
  match compareVersion a b with Gt => false | _ => true end.
Definition eqVersion (a b : triple) : bool :=
  match compareVersion a b with Eq => true | _ => false end.

Inductive operator : Type := OpEq | OpGt | OpGe | OpLt | OpLe.

(** A comparator of a parsed range; [Any] is the comparator of [*]. *)
Inductive comparator : Type :=
| Any
| Cmp (op : operator) (v : triple).

Definition printOperator (op : operator) : string :=
  match op with
  | OpEq => EmptyString
  | OpGt => ">"
  | OpGe => ">="
  | OpLt => "<"
  | OpLe => "<="
  end.

Definition printComparator (c : comparator) : string :=
  match c with
  | Any => "*"
  | Cmp op v => printOperator op ++ printVersion v
  end.

(** The upper bounds of the tilde and caret ranges. *)
Definition tildeUpper (v : triple) : triple := (major v, S (minor v), 0).
Definition caretUpper (v : triple) : triple :=
  match major v, minor v with
  | 0, 0 => (0, 0, S (patch v))
  | 0, S m => (0, S (S m), 0)
  | S n, _ => (S (S n), 0, 0)
  end.

Definition simpleToken (op : operator) (rest : string) : option (list comparator) :=
  match parseVersion rest with
  | Some v => Some [Cmp op v]
  | None => None
  end.

(** One space-separated token of a range, as comparators. *)
Definition parseToken (s : string) : option (list comparator) :=
  match parseVersion s with
  | Some v => Some [Cmp OpEq v]
  | None =>
      match s with
      | EmptyString => Some [Any]
      | String c rest =>
          if Ascii.eqb c "*" then (if truthy rest then None else Some [Any])
          else if Ascii.eqb c "~" then
            match parseVersion rest with
            | Some v => Some [Cmp OpGe v; Cmp OpLt (tildeUpper v)]
            | None => None
            end
          else if Ascii.eqb c "^" then
            match parseVersion rest with
            | Some v => Some [Cmp OpGe v; Cmp OpLt (caretUpper v)]
            | None => None
            end
          else if Ascii.eqb c "=" then simpleToken OpEq rest
          else if Ascii.eqb c ">" then
            match rest with
            | String d rest' =>
                if Ascii.eqb d "=" then simpleToken OpGe rest' else simpleToken OpGt rest
            | EmptyString => None
            end
          else if Ascii.eqb c "<" then
            match rest with
            | String d rest' =>
                if Ascii.eqb d "=" then simpleToken OpLe rest' else simpleToken OpLt rest
            | EmptyString => None
            end
          else None
      end
  end.

(** The tokens of a range; fuel is the length of the string. *)
Fixpoint tokens (fuel : nat) (s : string) : list string :=
  match fuel with
  | 0 => [s]
  | S fuel' =>
      match splitAt " " s with
      | Some (before, after) => before :: tokens fuel' after
      | None => [s]
      end
  end.

Fixpoint parseTokens (ts : list string) : option (list comparator) :=
  match ts with
  | [] => Some []
  | t :: rest =>
      match parseToken t, parseTokens rest with
      | Some cs, Some ds => Some (cs ++ ds)%list
      | _, _ => None
      end
  end.

(** [new Range(r).set[0]]; [None] when the constructor throws. *)
Definition parseComparators (r : string) : option (list comparator) :=
  parseTokens (tokens (String.length r) r).

(** [comparator.test(v)]. *)
Definition test (v : triple) (c : comparator) : bool :=
  match c with
  | Any => true
  | Cmp OpEq u => eqVersion v u
  | Cmp OpGt u => ltVersion u v
  | Cmp OpGe u => leVersion u v
  | Cmp OpLt u => ltVersion v u
  | Cmp OpLe u => leVersion v u
  end.

Definition satisfiesAll (v : triple) (cs : list comparator) : bool :=
  forallb (test v) cs.

(** The loop of [semver.maxSatisfying]: a later version replaces the
    maximum when it is strictly greater. *)
Definition maxStep (cs : list comparator) (best : option (string * triple))
    (s : string) : option (string * triple) :=
  match parseVersion s with
  | Some v =>
      if satisfiesAll v cs
      then match best with
           | Some (_, b) => if ltVersion b v then Some (s, v) else best
           | None => Some (s, v)
           end
      else best
  | None => best
  end.

Definition maxSatisfying' (versions : list string) (r : string) : option string :=
  match parseComparators r with
  | Some cs => fst <$> foldl (maxStep cs) None versions
  | None => None
  end.

Definition increasing (op : operator) : bool :=
  match op with OpGt | OpGe => true | _ => false end.
Definition decreasing (op : operator) : bool :=
  match op with OpLt | OpLe => true | _ => false end.
Definition inclusive (op : operator) : bool :=
  match op with OpGe | OpLe => true | _ => false end.

(** [Comparator.prototype.intersects]; a wildcard comparator intersects
    every comparator. *)
Definition comparatorIntersects (a b : comparator) : option bool :=
  match a, b with
  | Any, _ | _, Any => Some true
  | Cmp OpEq u, _ => Some (test u b)
  | _, Cmp OpEq v => Some (test v a)
  | Cmp opa u, Cmp opb v =>
      Some ((increasing opa && increasing opb)
            || (decreasing opa && decreasing opb)
            || (eqVersion u v && inclusive opa && inclusive opb)
            || (ltVersion u v && increasing opa && decreasing opb)
            || (ltVersion v u && decreasing opa && increasing opb))%bool
  end.

(** Every comparator of the first against every one of the second. *)
Fixpoint allPairs (f : comparator -> comparator -> option bool)
    (cs ds : list comparator) : option bool :=
  match cs with
  | [] => Some true
  | c :: rest =>
      let row := foldr (fun d acc =>
                          match f c d, acc with
                          | Some x, Some y => Some (x && y)%bool
                          | _, _ => None
                          end) (Some true) ds in
      match row, allPairs f rest ds with
      | Some x, Some y => Some (x && y)%bool
      | _, _ => None
      end
  end.

Definition intersects' (r1 r2 : string) : option bool :=
  match parseComparators r1, parseComparators r2 with
  | Some cs, Some ds => allPairs comparatorIntersects cs ds
  | _, _ => None
  end.

Definition lt' (v1 v2 : string) : option bool :=
  match parseVersion v1, parseVersion v2 with
  | Some a, Some b => Some (ltVersion a b)
  | _, _ => None
  end.

Definition isDigit (c : ascii) : bool :=
  let n := nat_of_ascii c in (48 <=? n)%nat && (n <=? 57)%nat.

Fixpoint allDigits (s : string) : bool :=
  match s with
  | EmptyString => true
  | String c rest => isDigit c && allDigits rest
  end.

Definition digits (s : string) : bool := truthy s && allDigits s.

(** [^\d+\.\d+\.\d+$]. *)
Definition versionShape (s : string) : bool :=
  match splitAt "." s with
  | Some (a, rest) =>
      match splitAt "." rest with
      | Some (b, c) => digits a && digits b && digits c
      | None => false
      end
  | None => false
  end.

(** [/(\d+\.\d+\.\d+)$/.exec(r)[1]], the leftmost suffix of that shape;
    [None] when there is no match and the subscript throws. *)
Fixpoint parseRangeVersion' (r : string) : option string :=
  if versionShape r then Some r
  else match r with
       | EmptyString => None
       | String _ rest => parseRangeVersion' rest
       end.

(** The bounds that [intersect] accumulates. *)
Record bounds : Type := {
  lowerBound : option comparator;
  upperBound : option comparator;
}.

(** [ensureCompatible(range, bound)] for one bound: [None] when it
    throws. *)
Definition ensureCompatible (v : triple) (c : comparator) (bound : option comparator)
  : option unit :=
  match bound with
  | None => Some tt
  | Some b =>
      match comparatorIntersects c b with
      | Some true => if test v b then Some tt else None
      | _ => None
      end
  end.

(** [mergeBounds(range, bound)]. *)
Definition mergeBounds (op : operator) (v : triple) (bound : option comparator)
  : comparator :=
  match bound with
  | Some (Cmp bop bv) =>
      let beyond := if decreasing op then ltVersion v bv else ltVersion bv v in
      let strict := match op with OpLt | OpGt => true | _ => false end in
      if beyond then Cmp op v
      else if (strict && eqVersion v bv)%bool then Cmp op v
      else Cmp bop bv
  | _ => Cmp op v
  end.

(** One step of the reduction of [intersect]. *)
Definition boundStep (acc : option bounds) (c : comparator) : option bounds :=
  match acc, c with
  | Some b, Cmp OpEq v =>
      match ensureCompatible v c (lowerBound b), ensureCompatible v c (upperBound b) with
      | Some _, Some _ =>
          Some {| lowerBound := Some (Cmp OpGe v); upperBound := Some (Cmp OpLe v) |}
      | _, _ => None
      end
  | Some b, Cmp op v =>
      if increasing op
      then match ensureCompatible v c (upperBound b) with
           | Some _ => Some {| lowerBound := Some (mergeBounds op v (lowerBound b));
                               upperBound := upperBound b |}
           | None => None
           end
      else match ensureCompatible v c (lowerBound b) with
           | Some _ => Some {| lowerBound := lowerBound b;
                               upperBound := Some (mergeBounds op v (upperBound b)) |}
           | None => None
           end
  | _, _ => None
  end.

(** [createShorthand] applied to [formatIntersection]. *)
Definition createShorthand (b : bounds) : string :=
  match lowerBound b, upperBound b with
  | Some (Cmp OpGe lo), Some (Cmp OpLe hi) =>
      if eqVersion lo hi then printVersion lo
      else printVersion lo ++ " - " ++ printVersion hi
  | Some (Cmp OpGe lo), Some (Cmp OpLt hi) =>
      if eqVersion lo hi then printVersion lo
      else if ((major lo =? 0) && (major hi =? 0))%nat
      then if ((minor lo =? 0) && (minor hi =? 0))%nat then "^" ++ printVersion lo
           else if (minor lo =? 0)%nat then "~" ++ printVersion lo
           else "^" ++ printVersion lo
      else if negb (major lo =? major hi)%nat
      then if (major lo =? 0)%nat then "0" else "^" ++ printVersion lo
      else "~" ++ printVersion lo
  | Some l, Some u => printComparator l ++ " " ++ printComparator u
  | Some l, None => printComparator l
  | None, Some u => printComparator u
  | None, None => EmptyString
  end.

Definition intersect' (r1 r2 : string) : option string :=
  match parseComparators r1, parseComparators r2 with
  | Some cs, Some ds =>
      createShorthand <$>
        foldl boundStep (Some {| lowerBound := None; upperBound := None |}) (cs ++ ds)%list
  | _, _ => None
  end.

(** The least version that satisfies a range of the fragment
    ([semver.minVersion]). *)
Definition lowerCandidate (c : comparator) : triple :=
  match c with
  | Cmp (OpEq | OpGe) v => v
  | Cmp OpGt v => (major v, minor v, S (patch v))
  | _ => (0, 0, 0)
  end.

Definition maxVersion (a b : triple) : triple := if ltVersion a b then b else a.

Definition minVersion (r : string) : option triple :=
  match parseComparators r with
  | Some cs =>
      let candidate := foldr (fun c acc => maxVersion (lowerCandidate c) acc) (0, 0, 0) cs in
      if satisfiesAll candidate cs then Some candidate else None
  | None => None
  end.

#[export] Instance npmSemver : Semver := {|
  validRange r := match parseComparators r with Some _ => true | None => false end;
  valid v := match parseVersion v with Some _ => true | None => false end;
  maxSatisfying := maxSatisfying';
  intersects := intersects';
  lt := lt';
  intersect := intersect';
  parseRangeVersion := parseRangeVersion';
|}.

End NpmSemver.

(** ** Registry snapshots used in the examples *)

Module Scenario.

Definition published (packageName : string) (tags : deps)
    (vs : list (string * versionManifest)) : string * response :=
  (registryUrl packageName,
   Body {| name := packageName; distTags := Some tags; versions := Some vs |}).

Definition noPeers : versionManifest := {| peerDependencies := None |}.
Definition peers (d : deps) : versionManifest := {| peerDependencies := Some d |}.

(** [a@1.2.0] peer-depends on [b@^2.0.0]; the best [b] under [^2.0.0] is
    [2.5.0]; [latest] of [a] is [1.2.0]. *)
Definition metaA : npmPackageJson :=
  {| name := "a";
     distTags := Some [("latest", "1.2.0")];
     versions := Some [("1.0.0", noPeers); ("1.2.0", peers [("b", "^2.0.0")])] |}.

Definition metaB : npmPackageJson :=
  {| name := "b";
     distTags := Some [("latest", "2.5.0")];
     versions := Some [("2.0.0", noPeers); ("2.5.0", noPeers)] |}.

Definition peerRegistry : registry :=
  [(registryUrl "a", Body metaA); (registryUrl "b", Body metaB)].

(** The root manifest declares only [a]. *)
Definition manifestA : packageJson :=
  [("dependencies", [("a", "^1.0.0")])].

(** The root manifest declares [a] and an older [b]. *)
Definition manifestAB : packageJson :=
  [("dependencies", [("a", "^1.0.0"); ("b", "^1.0.0")])].

(** [a@2.0.0] and [b@2.0.0] peer-depend on each other. *)
Definition metaCycleA : npmPackageJson :=
  {| name := "a";
     distTags := Some [("latest", "2.0.0")];
     versions := Some [("1.0.0", noPeers); ("2.0.0", peers [("b", "^2.0.0")])] |}.

Definition metaCycleB : npmPackageJson :=
  {| name := "b";
     distTags := Some [("latest", "2.0.0")];
     versions := Some [("1.0.0", noPeers); ("2.0.0", peers [("a", "^2.0.0")])] |}.

Definition cyclicRegistry : registry :=
  [(registryUrl "a", Body metaCycleA); (registryUrl "b", Body metaCycleB)].

(** The world in which the walk over [cyclicRegistry] turns round: both
    documents are cached and both packages are resolved. *)
Definition cycleWorld : world :=
  {| allVersions := {[ "a" := "2.0.0"; "b" := "^2.0.0" ]};
     client :=
       {| npmPackageJsonCache :=
            {[ registryUrl "a" := {| notified := Some (Body metaCycleA); observers := [] |};
               registryUrl "b" := {| notified := Some (Body metaCycleB); observers := [] |} ]};
          requests := [registryUrl "b"; registryUrl "a"] |} |}.

(** [latest] of [a] is the published [0.9.0]. *)
Definition metaOld : npmPackageJson :=
  {| name := "a";
     distTags := Some [("latest", "0.9.0")];
     versions := Some [("0.9.0", noPeers); ("1.0.0", noPeers)] |}.

Definition oldRegistry : registry := [(registryUrl "a", Body metaOld)].

(** [latest] of [a] names [0.9.0], which is not among the versions. *)
Definition metaDangling : npmPackageJson :=
  {| name := "a";
     distTags := Some [("latest", "0.9.0")];
     versions := Some [("1.0.0", noPeers)] |}.

Definition danglingRegistry : registry := [(registryUrl "a", Body metaDangling)].

Definition manifestExact : packageJson :=
  [("dependencies", [("a", "1.0.0")])].

(** The manifest declares [a] strictly above [1.0.0]. *)
Definition manifestStrict : packageJson :=
  [("dependencies", [("a", ">1.0.0")])].

(** [c@1.5.0] peer-depends on [a@next]; [next] of [a] names [3.0.0], which
    is not among the versions of [a]. *)
Definition metaNext : npmPackageJson :=
  {| name := "a";
     distTags := Some [("latest", "2.0.0"); ("next", "3.0.0")];
     versions := Some [("1.0.0", noPeers); ("2.0.0", noPeers)] |}.

Definition metaC : npmPackageJson :=
  {| name := "c";
     distTags := Some [("latest", "1.5.0")];
     versions := Some [("1.0.0", noPeers); ("1.5.0", peers [("a", "next")])] |}.

Definition nextRegistry : registry :=
  [(registryUrl "a", Body metaNext); (registryUrl "c", Body metaC)].

Definition manifestAC : packageJson :=
  [("dependencies", [("a", "^1.0.0"); ("c", "^1.0.0")])].

(** A registry client for which the request for [a] has failed. *)
Definition failedClient : registryClient :=
  {| npmPackageJsonCache :=
       {[ registryUrl "a" := {| notified := Some Failure; observers := [] |} ]};
     requests := [registryUrl "a"] |}.

(** [a] ranks above every other package. *)
Definition rankA (url : string) : nat :=
  if String.eqb url (registryUrl "a") then 1 else 0.

(** A host whose tree holds a manifest. *)
Definition hostWithManifest : host :=
  {| tree := {[ "/package.json" := "{}" ]}; tasks := [] |}.

(** A world whose accumulator is [o]. *)
Definition holding (o : gmap string string) : world :=
  {| allVersions := o; client := emptyClient |}.

Definition edge (version depName depVersion : string) : request :=
  {| version := version; depName := depName; depVersion := depVersion |}.

End Scenario.

(** * Specification predicates *)

(** An edge reaches the merge when a published version satisfies its
    updated constraint and the downgrade test is negative. *)
Definition reachesMerge `{Semver} (loose : bool) (r : request) (json : npmPackageJson)
    (updateVersion : string) (inner : versionManifest) : Prop :=
  exists vs matched updateMin declaredMin,
    _getVersionFromNpmPackage json (version r) loose = Done updateVersion /\
    versions json = Some vs /\
    nonEmpty (maxSatisfying (map fst vs) updateVersion) = Some matched /\
    parseRangeVersion updateVersion = Some updateMin /\
    parseRangeVersion (depVersion r) = Some declaredMin /\
    lt updateMin declaredMin = Some false /\
    lookupKey matched vs = Some inner.

(** The names that the root manifest declares in its dependency fields. *)
Definition declaredNames (pj : packageJson) : list string :=
  map fst (declaredEdges pj).

(** The log of requests has no url twice, and every url in it has its
    subject in the cache. *)
Definition consistent (c : registryClient) : Prop :=
  NoDup (requests c) /\
  forall url, url ∈ requests c -> is_Some (npmPackageJsonCache c !! url).

(** The registry client of [w'] is that of [w] after some events. *)
Definition clientTrace (w w' : world) : Prop :=
  exists events, client w' = foldl clientStep (client w) events.

(** A result that is not [OutOfFuel], and that satisfies [P] when it is a
    world. *)
Definition safe {A : Type} (P : A -> Prop) (o : outcome A) : Prop :=
  match o with
  | Done a => P a
  | Throw _ => True
  | OutOfFuel => False
  end.

(** The responses recorded in the cache are those of the registry [reg]. *)
Definition answers (reg : registry) (c : registryClient) : Prop :=
  forall url s resp,
    npmPackageJsonCache c !! url = Some s -> notified s = Some resp ->
    resp = answer reg url.

(** Every package ranks above the peer dependencies of each of its
    versions: the peer-dependency relation of [reg] has no cycle. *)
Definition peerRanked (reg : registry) (rank : string -> nat) : Prop :=
  forall url json vs v inner q,
    answer reg url = Body json ->
    versions json = Some vs ->
    lookupKey v vs = Some inner ->
    is_Some (peerTargets inner !! q) ->
    rank (registryUrl q) < rank url.

(** The targets rank below [n]. *)
Definition ranked (rank : string -> nat) (n : nat) (packages : gmap string string) : Prop :=
  forall q, is_Some (packages !! q) -> rank (registryUrl q) < n.

(** The waiting subscribers wait at the url of their package, which ranks
    below [n]. *)
Definition waitingRanked (rank : string -> nat) (n : nat) (c : registryClient) : Prop :=
  forall url s r,
    npmPackageJsonCache c !! url = Some s -> r ∈ observers s ->
    registryUrl (depName r) = url /\ rank url < n.

(** The order of versions, as a proposition. *)
Definition versionLt (a b : NpmSemver.triple) : Prop :=
  NpmSemver.major a < NpmSemver.major b \/
  (NpmSemver.major a = NpmSemver.major b /\
   (NpmSemver.minor a < NpmSemver.minor b \/
    (NpmSemver.minor a = NpmSemver.minor b /\ NpmSemver.patch a < NpmSemver.patch b))).

Definition versionLe (a b : NpmSemver.triple) : Prop := ~ versionLt b a.

(** The version of a constraint of one of the forms [X.Y.Z], [~X.Y.Z] and
    [^X.Y.Z]: the least version that satisfies it. *)
Definition plainFloor (r : string) : option NpmSemver.triple :=
  match NpmSemver.parseVersion r with
  | Some t => Some t
  | None =>
      match r with
      | String c v =>
          if (Ascii.eqb c "~" || Ascii.eqb c "^")%bool
          then NpmSemver.parseVersion v else None
      | EmptyString => None
      end
  end.

(** The dist-tags of a registry document are as the registry keeps them: a
    tag is not itself a range, and it names an exact version. *)
Definition plainTags (json : npmPackageJson) : bool :=
  match distTags json with
  | Some tags =>
      forallb (fun entry =>
                 negb (validRange (Semver := NpmSemver.npmSemver) entry.1) &&
                 (negb (truthy entry.2) || valid (Semver := NpmSemver.npmSemver) entry.2))
              tags
  | None => true
  end.

Definition plainRegistry (reg : registry) : bool :=
  forallb (fun entry => match entry.2 with
                        | Body json => plainTags json
                        | Failure => true
                        end) reg.

(** Every constraint that the root manifest declares is of one of the forms
    [X.Y.Z], [~X.Y.Z] and [^X.Y.Z]. *)
Definition plainManifest (pj : packageJson) : bool :=
  forallb (fun edge => match plainFloor edge.2 with
                       | Some _ => true
                       | None => false
                       end) (declaredEdges pj).

(** The comparators of a constraint of one of the three forms with floor
    [t]: the upper bound keeps major version zero when [t] has it. *)
Definition plainComparators (t : NpmSemver.triple) (cs : list NpmSemver.comparator) : Prop :=
  cs = [NpmSemver.Cmp NpmSemver.OpEq t] \/
  exists hi,
    cs = [NpmSemver.Cmp NpmSemver.OpGe t; NpmSemver.Cmp NpmSemver.OpLt hi] /\
    versionLt t hi /\ (NpmSemver.major t = 0 -> NpmSemver.major hi = 0).

(** ** The no-downgrade invariant *)

(** The floor of [d] is not above the floor of [r]. *)
Definition floorLe (d r : string) : Prop :=
  exists td tr, plainFloor d = Some td /\ plainFloor r = Some tr /\ versionLe td tr.

Definition asRequest (version depName depVersion : string) : request :=
  {| version := version; depName := depName; depVersion := depVersion |}.

(** The edges of a call: the declared edges whose package is a target, with
    the selector of the target. *)
Definition edgesOf (packages : gmap string string) (edges : list (string * string))
  : list request :=
  omap (fun edge => match prop packages edge.1 with
                    | Some selector => Some (asRequest selector edge.1 edge.2)
                    | None => None
                    end) edges.

(** The updated constraint that the registry gives for [p] under
    [selector], when a published version satisfies it. *)
Definition updateFor `{Semver} (reg : registry) (loose : bool) (p selector : string)
  : option string :=
  match answer reg (registryUrl p) with
  | Body json =>
      match _getVersionFromNpmPackage json selector loose, versions json with
      | Done u, Some vs =>
          match nonEmpty (maxSatisfying (map fst vs) u) with
          | Some _ => Some u
          | None => None
          end
      | _, _ => None
      end
  | Failure => None
  end.

(** [e] waits for a response. *)
Definition waitingIn (w : world) (e : request) : Prop :=
  exists url s, npmPackageJsonCache (client w) !! url = Some s /\ e ∈ observers s.

(** [e] is still to be handled: it is among the edges [todo] that the calls
    in progress have not reached yet, or it waits for a response. *)
Definition pendingIn (todo : list request) (w : world) (e : request) : Prop :=
  e ∈ todo \/ waitingIn w e.

(** The prefixes of the constraints that [_getVersionFromNpmPackage]
    returns. *)
Definition operators : list string := [EmptyString; "~"; "^"].

(** What the no-downgrade argument uses of the libraries.  [versionOf v]
    is the version that the version string [v] denotes, [minOf r] the
    minimum version that satisfies the constraint [r], [le] the order of
    versions, and [held] a class of constraints that holds whatever the
    accumulator holds.
    - a string that [semver.valid] accepts denotes a version;
    - the minimum version that satisfies [m], [~m] or [^m] is [m], and these
      constraints are in the class;
    - [semverIntersect.parseRange] reads [m] from [m], [~m] and [^m];
    - [semver.lt] compares the versions that its arguments denote;
    - [semver.maxSatisfying] returns a version, which satisfies the range
      and so is not below its minimum;
    - the intersection of a constraint of the class with any constraint is
      in the class, and its minimum is not below the minimum of either
      side. *)
Record semverLaws `{Semver} {V : Type} (versionOf minOf : string -> option V)
    (held : string -> Prop) (le : V -> V -> Prop) : Prop := {
  law_refl : forall t, le t t;
  law_trans : forall a b c, le a b -> le b c -> le a c;
  law_valid : forall v, valid v = true -> is_Some (versionOf v);
  law_prefixed :
    forall op m t, op ∈ operators -> versionOf m = Some t -> minOf (op ++ m) = Some t;
  law_held :
    forall op m t, op ∈ operators -> versionOf m = Some t -> held (op ++ m);
  law_read :
    forall op m t v,
      op ∈ operators -> versionOf m = Some t ->
      parseRangeVersion (op ++ m) = Some v -> versionOf v = Some t;
  law_lt :
    forall a b,
      lt a b = Some false ->
      exists ta tb, versionOf a = Some ta /\ versionOf b = Some tb /\ le tb ta;
  law_max :
    forall vs r m,
      maxSatisfying vs r = Some m ->
      exists tm, versionOf m = Some tm /\ forall tr, minOf r = Some tr -> le tr tm;
  law_intersect :
    forall a b r ta tb,
      held a -> minOf a = Some ta -> minOf b = Some tb -> intersect a b = Some r ->
      truthy r = true /\ held r /\
      exists tr, minOf r = Some tr /\ le ta tr /\ le tb tr;
}.

(** The minimum version of [d] is not above that of [r]. *)
Definition notBelow {V : Type} (minOf : string -> option V) (le : V -> V -> Prop)
    (d r : string) : Prop :=
  exists td tr, minOf d = Some td /\ minOf r = Some tr /\ le td tr.

(** The version that [semverIntersect.parseRange] reads from [d] is not
    below the minimum version that satisfies [d]. *)
Definition readAboveFloor `{Semver} {V : Type} (versionOf minOf : string -> option V)
    (le : V -> V -> Prop) (d : string) : Prop :=
  exists td,
    minOf d = Some td /\
    forall v tv, parseRangeVersion d = Some v -> versionOf v = Some tv -> le td tv.

(** Every constraint that the root manifest declares is read at or above its
    minimum. *)
Definition flooredManifest `{Semver} {V : Type} (versionOf minOf : string -> option V)
    (le : V -> V -> Prop) (pj : packageJson) : Prop :=
  forall p d, (p, d) ∈ declaredEdges pj -> readAboveFloor versionOf minOf le d.

(** The dist-tags of the registry are as the registry keeps them: a tag
    names a version, and no tag is itself a constraint. *)
Definition versionTags {V : Type} (versionOf minOf : string -> option V)
    (reg : registry) : Prop :=
  forall url json tag value,
    answer reg url = Body json -> distTag json tag = Some value ->
    is_Some (versionOf value) /\ minOf tag = None.

(** What a run keeps true, given the edges still to be handled: every
    resolved package holds a constraint of the class, with a minimum, which
    is not below
    the minimum of each constraint declared for it, unless the edge that
    will see to that is still pending; and as long as a package is not
    resolved, the edges pending for it under one selector cover all its
    declarations. *)
Record noDowngrade `{Semver} {V : Type} (minOf : string -> option V)
    (held : string -> Prop) (le : V -> V -> Prop) (pj : packageJson) (loose : bool) (reg : registry)
    (todo : list request) (w : world) : Prop := {
  kept_answers : answers reg (client w);
  kept_observers :
    forall url s e,
      npmPackageJsonCache (client w) !! url = Some s -> e ∈ observers s ->
      url = registryUrl (depName e);
  kept_declared :
    forall e, pendingIn todo w e -> (depName e, depVersion e) ∈ declaredEdges pj;
  kept_resolved :
    forall p r,
      prop (allVersions w) p = Some r ->
      (held r /\ exists tr, minOf r = Some tr) /\
      forall d, (p, d) ∈ declaredEdges pj ->
                notBelow minOf le d r \/
                exists selector u,
                  updateFor reg loose p selector = Some u /\ notBelow minOf le u r /\
                  pendingIn todo w (asRequest selector p d);
  kept_siblings :
    forall e,
      pendingIn todo w e ->
      prop (allVersions w) (depName e) = None ->
      is_Some (updateFor reg loose (depName e) (version e)) ->
      forall d, (depName e, d) ∈ declaredEdges pj ->
                version e = d \/ pendingIn todo w (asRequest (version e) (depName e) d);
}.

(** The constraint of every resolved package has a minimum that is not
    below the minimum of each constraint declared for it. *)
Definition floorsKept {V : Type} (minOf : string -> option V) (le : V -> V -> Prop)
    (pj : packageJson) (w : world) : Prop :=
  forall p d r,
    (p, d) ∈ declaredEdges pj -> prop (allVersions w) p = Some r ->
    notBelow minOf le d r.

(** No subscriber waits in the registry client. *)
Definition idle (c : registryClient) : Prop :=
  forall url s, npmPackageJsonCache c !! url = Some s -> observers s = [].

(** The minimum satisfying version of [a] is not above that of [b]. *)
Definition minLe (a b : string) : Prop :=
  exists ta tb,
    NpmSemver.minVersion a = Some ta /\ NpmSemver.minVersion b = Some tb /\
    versionLe ta tb.

(** The constraint of every resolved package has a minimum satisfying
    version that is not below that of each constraint declared for it. *)
Definition floorKept (pj : packageJson) (w : world) : Prop :=
  forall p d r,
    (p, d) ∈ declaredEdges pj -> prop (allVersions w) p = Some r -> minLe d r.

(** ** Further predicates *)

(** The character [c] occurs in [s]. *)
Fixpoint hasChar (c : ascii) (s : string) : bool :=
  match s with
  | EmptyString => false
  | String c' rest => (Ascii.eqb c c' || hasChar c rest)%bool
  end.

(** Every request that [w'] has logged was logged in [w] or is for a
    package that the root manifest [pj] declares. *)
Definition requestsWithin (pj : packageJson) (w w' : world) : Prop :=
  forall url,
    url ∈ requests (client w') ->
    url ∈ requests (client w) \/
    exists p, p ∈ declaredNames pj /\ url = registryUrl p.

(** The keys of the accumulator and the packages of the waiting
    subscribers are names that the root manifest [pj] declares. *)
Definition declaredOnly (pj : packageJson) (w : world) : Prop :=
  (forall q, is_Some (allVersions w !! q) -> q ∈ declaredNames pj) /\
  (forall url s e,
      npmPackageJsonCache (client w) !! url = Some s -> e ∈ observers s ->
      depName e ∈ declaredNames pj).

(** The names of the members that every object inherits from
    [Object.prototype]: a read [o[k]] by one of them does not read an own
    entry of [o] only. *)
Definition objectPrototypeKeys : list string :=
  ["constructor"; "__proto__"; "hasOwnProperty"; "isPrototypeOf";
   "propertyIsEnumerable"; "toString"; "toLocaleString"; "valueOf";
   "__defineGetter__"; "__defineSetter__"; "__lookupGetter__"; "__lookupSetter__"].

(** * Properties *)

(** ** Basic facts *)

Lemma bind_Done {A B : Type} (m : outcome A) (k : A -> outcome B) (b : B) :
  bind m k = Done b -> exists a, m = Done a /\ k a = Done b.
Proof. destruct m as [a| |]; simpl; intros E; [eauto | discriminate..]. Qed.

Lemma forEach_app {A S : Type} (f : A -> S -> outcome S) (l1 l2 : list A) (s : S) :
  forEach f (l1 ++ l2)%list s = (s' <- forEach f l1 s ;; forEach f l2 s').
Proof.
  revert s; induction l1 as [|a l1 IH]; intros s; simpl; [reflexivity|].
  destruct (f a s) as [s1| |]; simpl; auto.
Qed.

(** ** Version selection *)

Section SelectionFacts.
Context `{Semver}.

(** C3, as amended: outside the dist-tags, [*] gives the bare match, a
    leading [~] or [^] is kept in front of the match, and any other
    selector gives the bare match when [loose] is off and the match behind
    [~] when it is on.  The match is the greatest published version that
    satisfies the selector, widened by [~] when the selector is an exact
    version and [loose] is on. *)
Theorem selection_encoding (json : npmPackageJson) (version : string) (loose : bool)
    (vs : list (string * versionManifest)) (m : string) :
  distTag json version = None ->
  validRange version = true ->
  (valid version = true -> version <> "*" /\ maybeOperator version = None) ->
  versions json = Some vs ->
  nonEmpty (maxSatisfying (map fst vs) (widen version loose)) = Some m ->
  _getVersionFromNpmPackage json version loose =
    Done (if String.eqb version "*" then m
          else match maybeOperator version with
               | Some op => op ++ m
               | None => if loose then "~" ++ m else m
               end).
Proof.
  intros Htag Hrange Hvalid Hvs Hmax.
  unfold _getVersionFromNpmPackage.
  rewrite Htag, Hrange, Hvs; simpl. rewrite Hmax.
  unfold widen in *.
  destruct (valid version) eqn:Ev; simpl.
  - destruct (Hvalid eq_refl) as [Hstar Hop].
    destruct loose; simpl.
    + destruct (String.eqb_spec version "*") as [->|_]; [congruence|].
      rewrite Hop. reflexivity.
    + destruct (String.eqb_spec version "*") as [->|_]; [congruence|].
      rewrite Hop. reflexivity.
  - destruct (version =? "*")%string; [reflexivity|].
    destruct (maybeOperator version); [reflexivity|].
    destruct loose; reflexivity.
Qed.
End SelectionFacts.

(** ** The third stage, edge by edge *)

Section EdgeFacts.
Context `{Semver}.

Variable recurse : gmap string string -> world -> outcome world.
Variable loose : bool.

(** C10: when no published version satisfies the updated constraint, the
    third stage ends with the world it started from.  It does so whatever
    the recursive call and the downgrade and conflict checks would have
    answered, so none of them runs. *)
Theorem unmatched_update_is_dropped (r : request) (json : npmPackageJson) (w : world)
    (updateVersion : string) (vs : list (string * versionManifest)) :
  _getVersionFromNpmPackage json (version r) loose = Done updateVersion ->
  versions json = Some vs ->
  nonEmpty (maxSatisfying (map fst vs) updateVersion) = None ->
  recordUpdate recurse loose r json w = Done w.
Proof.
  intros Hsel Hvs Hmax. unfold recordUpdate.
  rewrite Hsel; simpl. rewrite Hvs; simpl. rewrite Hmax. reflexivity.
Qed.

(** C5, as amended: on an edge whose updated constraint is satisfied by a
    published version, when the version that ends the updated constraint
    is lower than the one that ends the declared constraint, the third
    stage throws the downgrade error with the package and both
    constraints. *)
Theorem downgrade_is_refused (r : request) (json : npmPackageJson) (w : world)
    (updateVersion matched updateMin declaredMin : string)
    (vs : list (string * versionManifest)) :
  _getVersionFromNpmPackage json (version r) loose = Done updateVersion ->
  versions json = Some vs ->
  nonEmpty (maxSatisfying (map fst vs) updateVersion) = Some matched ->
  parseRangeVersion updateVersion = Some updateMin ->
  parseRangeVersion (depVersion r) = Some declaredMin ->
  lt updateMin declaredMin = Some true ->
  recordUpdate recurse loose r json w =
    Throw (CannotDowngrade (depName r) (depVersion r) updateVersion).
Proof.
  intros Hsel Hvs Hmax Hu Hd Hlt. unfold recordUpdate.
  rewrite Hsel; simpl. rewrite Hvs; simpl. rewrite Hmax.
  rewrite Hu; simpl. rewrite Hd; simpl. rewrite Hlt. reflexivity.
Qed.

Lemma recordUpdate_merge (r : request) (json : npmPackageJson) (w : world)
    (updateVersion : string) (inner : versionManifest) :
  reachesMerge loose r json updateVersion inner ->
  recordUpdate recurse loose r json w =
    (w' <- mergeUpdate (depName r) updateVersion w ;; recurse (peerTargets inner) w').
Proof.
  intros (vs & matched & updateMin & declaredMin & Hsel & Hvs & Hmax & Hu & Hd & Hlt & Hin).
  unfold recordUpdate.
  rewrite Hsel; simpl. rewrite Hvs; simpl. rewrite Hmax.
  rewrite Hu; simpl. rewrite Hd; simpl. rewrite Hlt; simpl.
  rewrite Hin; simpl. reflexivity.
Qed.

(** C4, as amended: on an edge that reaches the merge, a held constraint
    that does not intersect the updated one makes the stage throw the
    conflict error with the package and both constraints; a held
    constraint that intersects it is replaced by their intersection; and
    without a held constraint the updated one is stored.  In the last two
    cases the stage goes on with the recursive call. *)
Theorem merge_or_conflict (r : request) (json : npmPackageJson) (w : world)
    (updateVersion : string) (inner : versionManifest) :
  reachesMerge loose r json updateVersion inner ->
  match prop (allVersions w) (depName r) with
  | Some current =>
      (intersects current updateVersion = Some false ->
       recordUpdate recurse loose r json w =
         Throw (ConflictingDependencies (depName r) updateVersion current)) /\
      (forall merged,
          intersects current updateVersion = Some true ->
          intersect current updateVersion = Some merged ->
          recordUpdate recurse loose r json w =
            recurse (peerTargets inner) (setAllVersions (depName r) merged w))
  | None =>
      recordUpdate recurse loose r json w =
        recurse (peerTargets inner) (setAllVersions (depName r) updateVersion w)
  end.
Proof.
  intros Hreach. rewrite (recordUpdate_merge _ _ _ _ _ Hreach).
  unfold mergeUpdate.
  destruct (prop (allVersions w) (depName r)) as [current|]; [|reflexivity].
  split.
  - intros ->. reflexivity.
  - intros merged -> ->. reflexivity.
Qed.
End EdgeFacts.

(** ** Inversion of the stages *)

Lemma orThrow_Done {A : Type} (o : option A) (a : A) :
  orThrow o = Done a -> o = Some a.
Proof. destruct o; simpl; congruence. Qed.

Lemma forEach_related {A S : Type} (f : A -> S -> outcome S) (R : S -> S -> Prop) :
  (forall s, R s s) ->
  (forall s1 s2 s3, R s1 s2 -> R s2 s3 -> R s1 s3) ->
  forall l : list A,
    (forall a s s', a ∈ l -> f a s = Done s' -> R s s') ->
    forall s s', forEach f l s = Done s' -> R s s'.
Proof.
  intros Hrefl Htrans l. induction l as [|a l IH]; intros Hf s s' E; simpl in E.
  - injection E as <-. apply Hrefl.
  - apply bind_Done in E as (s1 & E1 & E2).
    apply Htrans with s1.
    + apply (Hf a); [left | exact E1].
    + apply IH; [|exact E2]. intros b t t' Hb. apply Hf. right. exact Hb.
Qed.

Section Inversion.
Context `{Semver}.

Variable recurse : gmap string string -> world -> outcome world.
Variable loose : bool.

Lemma mergeUpdate_Done (depName updateVersion : string) (w w' : world) :
  mergeUpdate depName updateVersion w = Done w' ->
  (prop (allVersions w) depName = None /\
   w' = setAllVersions depName updateVersion w) \/
  (exists current merged,
      prop (allVersions w) depName = Some current /\
      intersects current updateVersion = Some true /\
      intersect current updateVersion = Some merged /\
      w' = setAllVersions depName merged w).
Proof.
  unfold mergeUpdate. destruct (prop (allVersions w) depName) as [current|].
  - intros E. right.
    apply bind_Done in E as (b & Eb & E). apply orThrow_Done in Eb.
    destruct b; simpl in E; [|discriminate].
    apply bind_Done in E as (merged & Em & E). apply orThrow_Done in Em.
    injection E as <-. eauto 10.
  - intros E. injection E as <-. left. auto.
Qed.

Lemma recordUpdate_Done (r : request) (json : npmPackageJson) (w w' : world) :
  recordUpdate recurse loose r json w = Done w' ->
  (exists updateVersion vs,
      _getVersionFromNpmPackage json (version r) loose = Done updateVersion /\
      versions json = Some vs /\
      nonEmpty (maxSatisfying (map fst vs) updateVersion) = None /\
      w' = w) \/
  (exists updateVersion inner w1,
      reachesMerge loose r json updateVersion inner /\
      mergeUpdate (depName r) updateVersion w = Done w1 /\
      recurse (peerTargets inner) w1 = Done w').
Proof.
  unfold recordUpdate. intros E.
  apply bind_Done in E as (updateVersion & Hsel & E).
  apply bind_Done in E as (vs & Hvs & E). apply orThrow_Done in Hvs.
  destruct (nonEmpty (maxSatisfying (map fst vs) updateVersion)) as [matched|] eqn:Hmax.
  - right.
    apply bind_Done in E as (updateMin & Hu & E). apply orThrow_Done in Hu.
    apply bind_Done in E as (declaredMin & Hd & E). apply orThrow_Done in Hd.
    apply bind_Done in E as (downgrade & Hlt & E). apply orThrow_Done in Hlt.
    destruct downgrade; [discriminate|].
    apply bind_Done in E as (inner & Hin & E). apply orThrow_Done in Hin.
    apply bind_Done in E as (w1 & Hm & E).
    exists updateVersion, inner, w1. split; [|auto].
    exists vs, matched, updateMin, declaredMin. auto 10.
  - left. injection E as <-. eauto 10.
Qed.

Lemma narrowDeclared_Done (depName depVersion : string) (w : world) (o : option world) :
  narrowDeclared depName depVersion w = Done o ->
  match o with
  | Some w' =>
      exists current merged,
        prop (allVersions w) depName = Some current /\
        intersects current depVersion = Some true /\
        intersect current depVersion = Some merged /\
        w' = setAllVersions depName merged w
  | None =>
      prop (allVersions w) depName = None \/
      exists current,
        prop (allVersions w) depName = Some current /\
        intersects current depVersion = Some false
  end.
Proof.
  unfold narrowDeclared. destruct (prop (allVersions w) depName) as [current|].
  - intros E. apply bind_Done in E as (b & Eb & E). apply orThrow_Done in Eb.
    destruct b.
    + apply bind_Done in E as (merged & Em & E). apply orThrow_Done in Em.
      injection E as <-. eauto 10.
    + injection E as <-. right. eauto.
  - intros E. injection E as <-. left. reflexivity.
Qed.

Lemma subscribe_Done (next : request -> npmPackageJson -> world -> outcome world)
    (url : string) (r : request) (w w' : world) :
  subscribe next url r w = Done w' ->
  exists s, npmPackageJsonCache (client w) !! url = Some s /\
    ((exists json, notified s = Some (Body json) /\ next r json w = Done w') \/
     (notified s = None /\ w' = setClient (attach url r (client w)) w)).
Proof.
  unfold subscribe. intros E.
  apply bind_Done in E as (s & Hs & E). apply orThrow_Done in Hs.
  exists s. split; [exact Hs|].
  destruct (notified s) as [[json|]|].
  - left. eauto.
  - discriminate.
  - right. injection E as <-. auto.
Qed.

(** The three ways an edge leaves the second stage: skipped, narrowed by
    the fast path, or subscribed to the registry document. *)
Lemma filterEdge_Done (packages : gmap string string) (depName depVersion : string)
    (w w' : world) :
  filterEdge recurse loose packages (depName, depVersion) w = Done w' ->
  ((prop packages depName = None \/ prop packages depName = Some depVersion) /\ w' = w) \/
  (exists version current merged,
      prop packages depName = Some version /\ version <> depVersion /\
      prop (allVersions w) depName = Some current /\
      intersects current depVersion = Some true /\
      intersect current depVersion = Some merged /\
      w' = setAllVersions depName merged w) \/
  (exists version,
      prop packages depName = Some version /\ version <> depVersion /\
      narrowDeclared depName depVersion w = Done None /\
      subscribe (recordUpdate recurse loose) (registryUrl depName)
        {| version := version; depName := depName; depVersion := depVersion |}
        (setClient (_getNpmPackageJson depName (client w)).2 w) = Done w').
Proof.
  unfold filterEdge. destruct (prop packages depName) as [version|]; [|intros [= <-]; auto].
  destruct (String.eqb_spec version depVersion) as [->|Hne]; [intros [= <-]; auto|].
  intros E. apply bind_Done in E as (o & Ho & E).
  destruct o as [w1|].
  - injection E as <-. apply narrowDeclared_Done in Ho.
    destruct Ho as (current & merged & ? & ? & ? & ->).
    right; left. exists version, current, merged. auto 10.
  - right; right. exists version. repeat split; auto.
    unfold _getNpmPackageJson in *.
    destruct (npmPackageJsonCache (client w) !! registryUrl depName); exact E.
Qed.
End Inversion.

(** ** Only declared packages enter the accumulator *)

Section Declared.
Context `{Semver}.

Variable pj : packageJson.
Variable loose : bool.

Lemma recordUpdate_keeps (recurse : gmap string string -> world -> outcome world)
    (q : string) (r : request) (json : npmPackageJson) (w w' : world) :
  depName r <> q ->
  (forall d w1 w2, recurse d w1 = Done w2 -> allVersions w2 !! q = allVersions w1 !! q) ->
  recordUpdate recurse loose r json w = Done w' ->
  allVersions w' !! q = allVersions w !! q.
Proof.
  intros Hne Hrec E. apply recordUpdate_Done in E as [(? & ? & _ & _ & _ & ->)|E]; [reflexivity|].
  destruct E as (updateVersion & inner & w1 & _ & Hm & E).
  apply Hrec in E. rewrite E.
  apply mergeUpdate_Done in Hm as [[_ ->]|(? & ? & _ & _ & _ & ->)];
    simpl; apply lookup_insert_ne; exact Hne.
Qed.

Lemma walk_keeps_undeclared (q : string) :
  q ∉ declaredNames pj ->
  forall fuel packages w w',
    _getRecursiveVersions fuel pj packages w loose = Done w' ->
    allVersions w' !! q = allVersions w !! q.
Proof.
  intros Hq. induction fuel as [|fuel IH]; intros packages w w' E; [discriminate|].
  simpl in E. revert w w' E.
  apply forEach_related; [reflexivity | intros ? ? ? E1 E2; congruence |].
  intros [depName depVersion] w w' Hin E.
  assert (Hne : depName <> q).
  { intros ->. apply Hq. unfold declaredNames.
    apply list_elem_of_fmap. exists (q, depVersion). auto. }
  apply filterEdge_Done in E as [[_ ->]|[E|E]]; [reflexivity| |].
  - destruct E as (? & ? & ? & _ & _ & _ & _ & _ & ->).
    simpl. apply lookup_insert_ne. exact Hne.
  - destruct E as (version & _ & _ & _ & E).
    apply subscribe_Done in E as (s & _ & [(json & _ & E)|[_ ->]]); [|reflexivity].
    apply recordUpdate_keeps with (q := q) in E; [exact E | exact Hne |].
    intros d w1 w2. apply IH.
Qed.

End Declared.

(** ** The registry client *)

Lemma clientStep_facts (c : registryClient) (e : clientEvent) :
  consistent c ->
  consistent (clientStep c e) /\
  (forall url, url ∈ requests (clientStep c e) ->
               url ∈ requests c \/ npmPackageJsonCache c !! url = None) /\
  (forall url, is_Some (npmPackageJsonCache c !! url) ->
               is_Some (npmPackageJsonCache (clientStep c e) !! url)) /\
  (forall url s resp,
      npmPackageJsonCache c !! url = Some s -> notified s = Some resp ->
      exists s', npmPackageJsonCache (clientStep c e) !! url = Some s' /\
                 notified s' = Some resp).
Proof.
  intros [Hnd Hin]. destruct e as [packageName|url r|url resp]; simpl.
  - unfold _getNpmPackageJson.
    destruct (npmPackageJsonCache c !! registryUrl packageName) as [s|] eqn:E; simpl.
    + repeat split; eauto.
    + repeat split; simpl.
      * constructor; [|exact Hnd]. intros Hx. apply Hin in Hx as [? Hx]. congruence.
      * intros url Hx. apply elem_of_cons in Hx as [->|Hx].
        -- rewrite lookup_insert_eq. eauto.
        -- destruct (decide (registryUrl packageName = url)) as [<-|Hne].
           ++ rewrite lookup_insert_eq. eauto.
           ++ rewrite lookup_insert_ne by exact Hne. auto.
      * intros url Hx. apply elem_of_cons in Hx as [->|Hx]; auto.
      * intros url Hx. destruct (decide (registryUrl packageName = url)) as [<-|Hne].
        -- rewrite lookup_insert_eq. eauto.
        -- rewrite lookup_insert_ne by exact Hne. exact Hx.
      * intros url s resp Hs Hn. destruct (decide (registryUrl packageName = url)) as [<-|Hne].
        -- congruence.
        -- rewrite lookup_insert_ne by exact Hne. eauto.
  - destruct (npmPackageJsonCache c !! url) as [[[resp|] waiting]|] eqn:E;
      try (repeat split; eauto; fail).
    unfold attach. rewrite E. simpl.
    repeat split; simpl; auto.
    + intros u Hu. destruct (decide (url = u)) as [<-|Hne].
      * rewrite lookup_insert_eq. eauto.
      * rewrite lookup_insert_ne by exact Hne. auto.
    + intros u Hu. destruct (decide (url = u)) as [<-|Hne].
      * rewrite lookup_insert_eq. eauto.
      * rewrite lookup_insert_ne by exact Hne. exact Hu.
    + intros u s resp Hs Hn. destruct (decide (url = u)) as [<-|Hne].
      * rewrite E in Hs. injection Hs as <-. discriminate.
      * rewrite lookup_insert_ne by exact Hne. eauto.
  - unfold inFlight.
    destruct (npmPackageJsonCache c !! url) as [[[resp'|] waiting]|] eqn:E;
      try (repeat split; eauto; fail).
    unfold settle. simpl.
    repeat split; simpl; auto.
    + intros u Hu. destruct (decide (url = u)) as [<-|Hne].
      * rewrite lookup_insert_eq. eauto.
      * rewrite lookup_insert_ne by exact Hne. auto.
    + intros u Hu. destruct (decide (url = u)) as [<-|Hne].
      * rewrite lookup_insert_eq. eauto.
      * rewrite lookup_insert_ne by exact Hne. exact Hu.
    + intros u s resp0 Hs Hn. destruct (decide (url = u)) as [<-|Hne].
      * rewrite E in Hs. injection Hs as <-. discriminate.
      * rewrite lookup_insert_ne by exact Hne. eauto.
Qed.

Lemma clientTrace_consistent (events : list clientEvent) (c : registryClient) :
  consistent c -> consistent (foldl clientStep c events).
Proof.
  revert c. induction events as [|e events IH]; intros c Hc; simpl; [exact Hc|].
  apply IH. apply clientStep_facts. exact Hc.
Qed.

Lemma single_flight_requests (events : list clientEvent) (c : registryClient) :
  consistent c -> NoDup (requests (foldl clientStep c events)).
Proof. intros Hc. apply (clientTrace_consistent events c Hc). Qed.

(** Whatever calls, subscriptions and responses follow one another, the
    registry client requests no url twice; it issues no request for a url
    whose subject is already in the cache; and a subject that has recorded
    a response keeps it. *)
Lemma single_flight (events : list clientEvent) (c : registryClient) :
  consistent c ->
  let c' := foldl clientStep c events in
  NoDup (requests c') /\
  (forall url, is_Some (npmPackageJsonCache c !! url) ->
               url ∈ requests c' -> url ∈ requests c) /\
  (forall packageName,
      is_Some (npmPackageJsonCache c !! registryUrl packageName) ->
      _getNpmPackageJson packageName c' = (registryUrl packageName, c')) /\
  (forall url s resp,
      npmPackageJsonCache c !! url = Some s -> notified s = Some resp ->
      exists s', npmPackageJsonCache c' !! url = Some s' /\ notified s' = Some resp).
Proof.
  revert c. induction events as [|e events IH]; intros c Hc; simpl.
  - destruct Hc as [Hnd Hin]. repeat split; eauto.
    intros packageName [s Hs]. unfold _getNpmPackageJson. rewrite Hs. reflexivity.
  - destruct (clientStep_facts c e Hc) as (Hc1 & Hreq & Hdom & Hkeep).
    destruct (IH _ Hc1) as (Hnd & Hold & Hcall & Hsticky).
    repeat split.
    + exact Hnd.
    + intros url Hs Hu. apply Hold in Hu; [|auto].
      apply Hreq in Hu as [Hu|Hu]; [exact Hu|]. destruct Hs as [s Hs]. congruence.
    + intros packageName Hs. apply Hcall. auto.
    + intros url s resp Hs Hn.
      destruct (Hkeep _ _ _ Hs Hn) as (s1 & Hs1 & Hn1). eauto.
Qed.

Lemma requests_grow (events : list clientEvent) (c : registryClient) (url : string) :
  url ∈ requests c -> url ∈ requests (foldl clientStep c events).
Proof.
  revert c. induction events as [|e events IH]; intros c Hin; [exact Hin|].
  cbn [foldl]. apply IH. destruct e as [packageName|url' r|url' resp]; cbn [clientStep].
  - unfold _getNpmPackageJson.
    destruct (npmPackageJsonCache c !! registryUrl packageName); [exact Hin|].
    right. exact Hin.
  - destruct (npmPackageJsonCache c !! url') as [[[resp|] waiting]|] eqn:E;
      try exact Hin.
    unfold attach. rewrite E. exact Hin.
  - destruct (inFlight c url'); exact Hin.
Qed.

Lemma call_caches (packageName : string) (c : registryClient) :
  is_Some (npmPackageJsonCache (_getNpmPackageJson packageName c).2
             !! registryUrl packageName).
Proof.
  unfold _getNpmPackageJson.
  destruct (npmPackageJsonCache c !! registryUrl packageName) as [s|] eqn:E; cbn [snd].
  - rewrite E. eauto.
  - cbn [npmPackageJsonCache]. rewrite lookup_insert_eq. eauto.
Qed.


(** A run drives the registry client through calls, subscriptions and
    responses only, so [single_flight] applies to it. *)
Section ClientTrace.
Context `{Semver}.

Variable pj : packageJson.
Variable loose : bool.

Lemma clientTrace_refl (w : world) : clientTrace w w.
Proof. exists []. reflexivity. Qed.

Lemma clientTrace_trans (w1 w2 w3 : world) :
  clientTrace w1 w2 -> clientTrace w2 w3 -> clientTrace w1 w3.
Proof.
  intros [e1 E1] [e2 E2]. exists (e1 ++ e2)%list.
  rewrite foldl_app, <- E1. exact E2.
Qed.

Lemma clientTrace_same (w w' : world) : client w' = client w -> clientTrace w w'.
Proof. intros E. exists []. exact E. Qed.

Lemma mergeUpdate_client (depName updateVersion : string) (w w' : world) :
  mergeUpdate depName updateVersion w = Done w' -> client w' = client w.
Proof.
  intros E. apply mergeUpdate_Done in E as [[_ ->]|(? & ? & _ & _ & _ & ->)]; reflexivity.
Qed.

Lemma recordUpdate_clientTrace (recurse : gmap string string -> world -> outcome world)
    (r : request) (json : npmPackageJson) (w w' : world) :
  (forall d w1 w2, recurse d w1 = Done w2 -> clientTrace w1 w2) ->
  recordUpdate recurse loose r json w = Done w' -> clientTrace w w'.
Proof.
  intros Hrec E. apply recordUpdate_Done in E as [(? & ? & _ & _ & _ & ->)|E].
  - apply clientTrace_refl.
  - destruct E as (updateVersion & inner & w1 & _ & Hm & E).
    apply clientTrace_trans with w1; [|eauto].
    apply clientTrace_same. eapply mergeUpdate_client; eauto.
Qed.

Lemma walk_clientTrace (fuel : nat) :
  forall packages w w',
    _getRecursiveVersions fuel pj packages w loose = Done w' -> clientTrace w w'.
Proof.
  induction fuel as [|fuel IH]; intros packages w w' E; [discriminate|].
  simpl in E. revert w w' E.
  apply forEach_related; [apply clientTrace_refl | apply clientTrace_trans |].
  intros [depName depVersion] w w' _ E.
  apply filterEdge_Done in E as [[_ ->]|[E|E]].
  - apply clientTrace_refl.
  - destruct E as (? & ? & ? & _ & _ & _ & _ & _ & ->). apply clientTrace_same. reflexivity.
  - destruct E as (version & _ & _ & _ & E).
    apply clientTrace_trans with (setClient (_getNpmPackageJson depName (client w)).2 w).
    { exists [Call depName]. reflexivity. }
    apply subscribe_Done in E as (s & Hs & [(json & _ & E)|[Hn ->]]).
    + eapply recordUpdate_clientTrace; [|exact E]. intros d w1 w2. apply IH.
    + exists [Subscribe (registryUrl depName)
                {| version := version; depName := depName; depVersion := depVersion |}].
      simpl in *. rewrite Hs. destruct s as [n o]. simpl in Hn. subst n. reflexivity.
Qed.

Lemma respond_clientTrace (recurse : gmap string string -> world -> outcome world)
    (url : string) (resp : response) (w w' : world) :
  (forall d w1 w2, recurse d w1 = Done w2 -> clientTrace w1 w2) ->
  respond recurse loose url resp w = Done w' -> clientTrace w w'.
Proof.
  intros Hrec. unfold respond. destruct (inFlight (client w) url) as [waiting|] eqn:Ef.
  - intros E.
    apply clientTrace_trans with (setClient (settle url resp (client w)) w).
    { exists [Respond url resp]. simpl. rewrite Ef. reflexivity. }
    destruct resp as [json|].
    + revert E. generalize (setClient (settle url (Body json) (client w)) w). intros w0 E.
      revert w0 w' E.
      apply forEach_related; [apply clientTrace_refl | apply clientTrace_trans |].
      intros r w1 w2 _ E. eapply recordUpdate_clientTrace; [|exact E].
      exact Hrec.
    + destruct waiting; [|discriminate]. injection E as <-. apply clientTrace_refl.
  - intros [= <-]. apply clientTrace_refl.
Qed.

Lemma resolve_clientTrace (fuel : nat) (packages : gmap string string) (reg : registry)
    (schedule : list string) (w w' : world) :
  resolve fuel pj packages loose reg schedule w = Done w' -> clientTrace w w'.
Proof.
  unfold resolve. intros E. apply bind_Done in E as (w1 & E1 & E).
  apply clientTrace_trans with w1; [eapply walk_clientTrace; eauto|].
  clear E1. revert w1 E. induction schedule as [|url rest IH]; intros w1 E; simpl in E.
  - injection E as <-. apply clientTrace_refl.
  - apply bind_Done in E as (w2 & E2 & E).
    apply clientTrace_trans with w2; [|auto].
    eapply respond_clientTrace; [|exact E2]. intros d w3 w4. apply walk_clientTrace.
Qed.

(** In a completed run no url is requested twice. *)
Corollary resolve_requests_once (fuel : nat) (packages : gmap string string)
    (reg : registry) (schedule : list string) (w w' : world) :
  consistent (client w) ->
  resolve fuel pj packages loose reg schedule w = Done w' ->
  NoDup (requests (client w')).
Proof.
  intros Hc E. apply resolve_clientTrace in E as [events ->].
  apply (single_flight_requests events (client w) Hc).
Qed.
End ClientTrace.

(** ** Termination *)

Lemma safe_bind {A B : Type} (P : A -> Prop) (Q : B -> Prop)
    (m : outcome A) (k : A -> outcome B) :
  safe P m -> (forall a, P a -> safe Q (k a)) -> safe Q (bind m k).
Proof. destruct m; simpl; auto. Qed.

Lemma safe_orThrow {A : Type} (o : option A) : safe (fun a => o = Some a) (orThrow o).
Proof. destruct o; simpl; auto. Qed.

Lemma safe_weaken {A : Type} (P Q : A -> Prop) (o : outcome A) :
  (forall a, P a -> Q a) -> safe P o -> safe Q o.
Proof. destruct o; simpl; auto. Qed.

Lemma forEach_safe {A S : Type} (f : A -> S -> outcome S) (I : S -> Prop) (l : list A) :
  (forall a s, a ∈ l -> I s -> safe I (f a s)) ->
  forall s, I s -> safe I (forEach f l s).
Proof.
  induction l as [|a l IH]; intros Hf s Hs; simpl; [exact Hs|].
  apply safe_bind with (P := I).
  - apply Hf; [left | exact Hs].
  - intros s' Hs'. apply IH; [|exact Hs']. intros b t Hb. apply Hf. right. exact Hb.
Qed.

Lemma prop_is_Some (o : gmap string string) (k s : string) :
  prop o k = Some s -> is_Some (o !! k).
Proof. unfold prop. destruct (o !! k); [eauto | discriminate]. Qed.

Section Termination.
Context `{Semver}.

Variable pj : packageJson.
Variable loose : bool.
Variable reg : registry.
Variable rank : string -> nat.
Variable bound : nat.
Hypothesis Hranked : peerRanked reg rank.

(** What the run keeps true of the registry client. *)
Let kept (w : world) : Prop :=
  answers reg (client w) /\ waitingRanked rank bound (client w).

Lemma selection_safe (json : npmPackageJson) (version : string) :
  safe (fun _ => True) (_getVersionFromNpmPackage json version loose).
Proof.
  unfold _getVersionFromNpmPackage.
  destruct (distTag json version); simpl; [exact I|].
  destruct (negb (validRange version)); simpl; [exact I|].
  destruct (versions json); simpl; [|exact I].
  destruct (nonEmpty _); simpl; [|exact I].
  destruct (_ =? _)%string; simpl; [exact I|].
  destruct (maybeOperator _); exact I.
Qed.

Lemma mergeUpdate_safe (depName updateVersion : string) (w : world) :
  kept w -> safe kept (mergeUpdate depName updateVersion w).
Proof.
  intros Hw. unfold mergeUpdate.
  destruct (prop (allVersions w) depName); simpl; [|exact Hw].
  destruct (intersects _ _) as [[|]|]; simpl; try exact I.
  destruct (intersect _ _); simpl; [exact Hw | exact I].
Qed.

Lemma recordUpdate_safe (recurse : gmap string string -> world -> outcome world)
    (r : request) (json : npmPackageJson) (w : world) :
  answer reg (registryUrl (depName r)) = Body json ->
  (forall d w1, ranked rank (rank (registryUrl (depName r))) d -> kept w1 ->
                safe kept (recurse d w1)) ->
  kept w ->
  safe kept (recordUpdate recurse loose r json w).
Proof.
  intros Hjson Hrec Hw. unfold recordUpdate.
  eapply safe_bind; [apply selection_safe|]. intros updateVersion _.
  eapply safe_bind; [apply safe_orThrow|]. intros vs Hvs.
  destruct (nonEmpty _) as [matched|]; [|exact Hw].
  eapply safe_bind; [apply safe_orThrow|]. intros updateMin _.
  eapply safe_bind; [apply safe_orThrow|]. intros declaredMin _.
  eapply safe_bind; [apply safe_orThrow|]. intros [|] _; [exact I|].
  eapply safe_bind; [apply safe_orThrow|]. intros inner Hin.
  eapply safe_bind; [apply mergeUpdate_safe; exact Hw|]. intros w1 Hw1.
  apply Hrec; [|exact Hw1].
  intros q Hq. exact (Hranked _ json vs matched inner q Hjson Hvs Hin Hq).
Qed.

Lemma call_kept (depName : string) (w : world) :
  kept w -> kept (setClient (_getNpmPackageJson depName (client w)).2 w).
Proof.
  intros [Ha Hw]. unfold _getNpmPackageJson.
  destruct (npmPackageJsonCache (client w) !! registryUrl depName) eqn:E; [split; assumption|].
  split; simpl.
  - intros url s resp Hs Hn. simpl in Hs.
    destruct (decide (registryUrl depName = url)) as [<-|Hne].
    + rewrite lookup_insert_eq in Hs. injection Hs as <-. discriminate.
    + rewrite lookup_insert_ne in Hs by exact Hne. eauto.
  - intros url s r Hs Hr. simpl in Hs.
    destruct (decide (registryUrl depName = url)) as [<-|Hne].
    + rewrite lookup_insert_eq in Hs. injection Hs as <-. simpl in Hr.
      apply elem_of_nil in Hr. destruct Hr.
    + rewrite lookup_insert_ne in Hs by exact Hne. eauto.
Qed.

Lemma attach_kept (r : request) (w : world) :
  rank (registryUrl (depName r)) < bound ->
  kept w -> kept (setClient (attach (registryUrl (depName r)) r (client w)) w).
Proof.
  intros Hr [Ha Hw]. unfold attach.
  destruct (npmPackageJsonCache (client w) !! registryUrl (depName r)) as [s|] eqn:E;
    [|split; assumption].
  split; simpl.
  - intros url s' resp Hs Hn. simpl in Hs.
    destruct (decide (registryUrl (depName r) = url)) as [<-|Hne].
    + rewrite lookup_insert_eq in Hs. injection Hs as <-. simpl in Hn. eauto.
    + rewrite lookup_insert_ne in Hs by exact Hne. eauto.
  - intros url s' r' Hs Hr'. simpl in Hs.
    destruct (decide (registryUrl (depName r) = url)) as [<-|Hne].
    + rewrite lookup_insert_eq in Hs. injection Hs as <-. simpl in Hr'.
      apply elem_of_app in Hr' as [Hr'|Hr']; [eauto|].
      apply list_elem_of_singleton in Hr'. subst r'. auto.
    + rewrite lookup_insert_ne in Hs by exact Hne. eauto.
Qed.

Lemma walk_safe (fuel : nat) :
  forall n packages w,
    n < fuel -> n <= bound -> ranked rank n packages -> kept w ->
    safe kept (_getRecursiveVersions fuel pj packages w loose).
Proof.
  induction fuel as [|fuel IH]; intros n packages w Hn Hb Hp Hw; [lia|].
  simpl. apply forEach_safe; [|exact Hw].
  intros [depName depVersion] w0 _ Hw0. unfold filterEdge.
  destruct (prop packages depName) as [version|] eqn:Ep; [|exact Hw0].
  destruct (_ =? _)%string; [exact Hw0|].
  assert (Hrk : rank (registryUrl depName) < n).
  { apply Hp. eapply prop_is_Some; eauto. }
  apply safe_bind with (P := fun o => match o with Some w' => kept w' | None => True end).
  { unfold narrowDeclared. destruct (prop (allVersions w0) depName); simpl; [|exact I].
    destruct (intersects _ _) as [[|]|]; simpl; try exact I.
    destruct (intersect _ _); simpl; [exact Hw0 | exact I]. }
  intros [w1|] Hw1; [exact Hw1|].
  pose proof (call_kept depName w0 Hw0) as Hc.
  destruct (_getNpmPackageJson depName (client w0)) as [url c] eqn:Eg.
  assert (url = registryUrl depName) as ->.
  { unfold _getNpmPackageJson in Eg. destruct (_ !! _); injection Eg; auto. }
  simpl in Hc. unfold subscribe.
  eapply safe_bind; [apply safe_orThrow|]. intros s Hs.
  destruct (notified s) as [[json|]|] eqn:En; [| exact I |].
  - apply recordUpdate_safe; simpl; [| |exact Hc].
    + destruct Hc as [Ha _]. symmetry. exact (Ha _ _ _ Hs En).
    + intros d w2 Hd Hw2. apply (IH (rank (registryUrl depName))); auto; lia.
  - simpl.
    exact (attach_kept {| version := version; depName := depName;
                          depVersion := depVersion |} (setClient c w0)
                       ltac:(simpl; lia) Hc).
Qed.

Lemma respond_safe (fuel : nat) (url : string) (w : world) :
  bound <= fuel -> kept w ->
  safe kept (respond (fun d w' => _getRecursiveVersions fuel pj d w' loose)
                     loose url (answer reg url) w).
Proof.
  intros Hf Hw. unfold respond, inFlight.
  destruct (npmPackageJsonCache (client w) !! url) as [[[resp|] waiting]|] eqn:E;
    try exact Hw.
  assert (Hk : kept (setClient (settle url (answer reg url) (client w)) w)).
  { destruct Hw as [Ha Hw]. split; simpl.
    - intros u s resp Hs Hn. simpl in Hs. destruct (decide (url = u)) as [<-|Hne].
      + rewrite lookup_insert_eq in Hs. injection Hs as <-. simpl in Hn. congruence.
      + rewrite lookup_insert_ne in Hs by exact Hne. eauto.
    - intros u s r Hs Hr. simpl in Hs. destruct (decide (url = u)) as [<-|Hne].
      + rewrite lookup_insert_eq in Hs. injection Hs as <-. simpl in Hr.
        apply elem_of_nil in Hr. destruct Hr.
      + rewrite lookup_insert_ne in Hs by exact Hne. eauto. }
  destruct (answer reg url) as [json|] eqn:Ea.
  - apply forEach_safe; [|exact Hk].
    intros r w1 Hr Hw1.
    destruct Hw as [_ Hw]. destruct (Hw _ _ _ E Hr) as [Hurl Hrk].
    apply recordUpdate_safe; [congruence | | exact Hw1].
    intros d w2 Hd Hw2. rewrite Hurl in Hd.
    apply (walk_safe fuel (rank url)); auto; lia.
  - destruct waiting; [exact Hk | exact I].
Qed.

(** C8, as amended: when the peer-dependency relation of the registry has
    no cycle, every run started on targets that rank below [bound] ends,
    with a world or with an exception, as soon as the fuel exceeds
    [bound]: the nesting of recursive calls is bounded by the rank, not by
    the set of packages already resolved. *)
Theorem ranked_walk_terminates (fuel : nat) (packages : gmap string string)
    (schedule : list string) (w : world) :
  bound < fuel ->
  ranked rank bound packages ->
  answers reg (client w) ->
  waitingRanked rank bound (client w) ->
  resolve fuel pj packages loose reg schedule w <> OutOfFuel.
Proof.
  intros Hf Hp Ha Hw.
  assert (Hs : safe kept (resolve fuel pj packages loose reg schedule w)).
  { unfold resolve. apply safe_bind with (P := kept).
    - apply (walk_safe fuel bound); auto. split; assumption.
    - clear w Ha Hw. intros w Hw. revert w Hw.
      induction schedule as [|url rest IH]; intros w Hw; simpl; [exact Hw|].
      apply safe_bind with (P := kept); [|exact IH].
      apply respond_safe; [lia | exact Hw]. }
  intros E. rewrite E in Hs. exact Hs.
Qed.
End Termination.

(** ** The scenarios, evaluated *)

Section Scenarios.
Import NpmSemver Scenario.

Local Ltac evaluated := vm_compute; reflexivity.

(** C2, refuted as stated: with the root manifest declaring only [a], the
    run ends with a mapping other than [{a: "^1.2.0", b: "^2.5.0"}]. *)
Lemma latest_scenario_is_not_caret :
  exists w,
    resolve 3 manifestA (anchorTargets ["a"] "latest") false peerRegistry
      [registryUrl "a"; registryUrl "b"] emptyWorld = Done w /\
    settled w = true /\
    allVersions w <> {[ "a" := "^1.2.0"; "b" := "^2.5.0" ]}.
Proof.
  eexists. split; [evaluated|]. split; [evaluated|].
  intros E. apply (f_equal (fun o => o !! "a")) in E. vm_compute in E. discriminate.
Qed.

(** C2, as amended: the dist-tag gives the bare version, so the run ends
    with [{a: "1.2.0"}] when the root manifest declares only [a], and with
    [{a: "1.2.0", b: "^2.5.0"}] when it also declares [b], at [^1.0.0]. *)
Theorem latest_scenario :
  (exists w,
      resolve 3 manifestA (anchorTargets ["a"] "latest") false peerRegistry
        [registryUrl "a"; registryUrl "b"] emptyWorld = Done w /\
      settled w = true /\
      allVersions w = {[ "a" := "1.2.0" ]}) /\
  (exists w,
      resolve 3 manifestAB (anchorTargets ["a"] "latest") false peerRegistry
        [registryUrl "a"; registryUrl "b"] emptyWorld = Done w /\
      settled w = true /\
      allVersions w = {[ "a" := "1.2.0"; "b" := "^2.5.0" ]}).
Proof.
  split; eexists; (split; [evaluated|]); split; evaluated.
Qed.


Lemma metaA_reaches_merge :
  reachesMerge false (edge "latest" "a" "^1.0.0") metaA "1.2.0" (peers [("b", "^2.0.0")]).
Proof.
  exists [("1.0.0", noPeers); ("1.2.0", peers [("b", "^2.0.0")])], "1.2.0", "1.2.0", "1.0.0".
  repeat split; evaluated.
Qed.


(** C3, refuted as stated: a range without [~] or [^] and an exact
    version, with [loose] off, give the bare match and not a [~] range. *)
Lemma plain_selector_is_not_widened :
  distTag metaB ">=2.0.0" = None /\
  _getVersionFromNpmPackage metaB ">=2.0.0" false = Done "2.5.0" /\
  _getVersionFromNpmPackage metaB ">=2.0.0" false <> Done "~2.5.0" /\
  distTag metaB "2.0.0" = None /\
  _getVersionFromNpmPackage metaB "2.0.0" false = Done "2.0.0" /\
  _getVersionFromNpmPackage metaB "2.0.0" false <> Done "~2.0.0".
Proof.
  repeat split; try evaluated; vm_compute; discriminate.
Qed.

Lemma selection_encoding_witness :
  _getVersionFromNpmPackage metaB "^2.0.0" true = Done "^2.5.0".
Proof.
  apply (selection_encoding metaB "^2.0.0" true
           [("2.0.0", noPeers); ("2.5.0", noPeers)] "2.5.0");
    try evaluated.
  vm_compute. discriminate.
Defined.

(** C10 at work: the dist-tag names a version that is not published. *)
Lemma unmatched_update_is_dropped_witness :
  recordUpdate (fun _ _ => Throw LibraryThrow) false (edge "latest" "a" "1.0.0")
    metaDangling emptyWorld = Done emptyWorld.
Proof.
  apply (unmatched_update_is_dropped (fun _ _ => Throw LibraryThrow) false
           (edge "latest" "a" "1.0.0") metaDangling emptyWorld "0.9.0"
           [("1.0.0", noPeers)]); evaluated.
Defined.

(** C5, refuted as stated: the updated constraint [0.9.0] is below the
    declared [1.0.0], yet the run completes without an exception, because
    [0.9.0] is not published and the edge is dropped. *)
Lemma unpublished_downgrade_is_silent :
  exists w,
    _getVersionFromNpmPackage metaDangling "latest" false = Done "0.9.0" /\
    lt "0.9.0" "1.0.0" = Some true /\
    resolve 3 manifestExact (anchorTargets ["a"] "latest") false danglingRegistry
      [registryUrl "a"] emptyWorld = Done w /\
    settled w = true /\
    allVersions w = ∅.
Proof.
  eexists. repeat split; evaluated.
Qed.

Lemma downgrade_is_refused_witness :
  recordUpdate (fun _ w => Done w) false (edge "latest" "a" "1.0.0") metaOld emptyWorld
    = Throw (CannotDowngrade "a" "1.0.0" "0.9.0").
Proof.
  apply (downgrade_is_refused (fun _ w => Done w) false (edge "latest" "a" "1.0.0")
           metaOld emptyWorld "0.9.0" "0.9.0" "0.9.0" "1.0.0"
           [("0.9.0", noPeers); ("1.0.0", noPeers)]); evaluated.
Defined.

(** The scenario of C5 as a whole run: [a] is declared at [1.0.0] and
    [latest] is the published [0.9.0]. *)
Example downgrade_scenario :
  resolve 3 manifestExact (anchorTargets ["a"] "latest") false oldRegistry
    [registryUrl "a"] emptyWorld = Throw (CannotDowngrade "a" "1.0.0" "0.9.0").
Proof. evaluated. Qed.

(** C4, refuted as stated: the accumulator holds [2.0.0] for [a], the peer
    dependency of [c] resolves [a] to [3.0.0], the two do not intersect,
    and the run completes without an exception, because [3.0.0] is not
    published and the edge is dropped. *)
Lemma unpublished_conflict_is_silent :
  exists w,
    _getVersionFromNpmPackage metaNext "next" false = Done "3.0.0" /\
    intersects "2.0.0" "3.0.0" = Some false /\
    recordUpdate (fun _ w' => Done w') false (edge "next" "a" "^1.0.0") metaNext
      (holding {[ "a" := "2.0.0" ]}) = Done (holding {[ "a" := "2.0.0" ]}) /\
    resolve 3 manifestAC (anchorTargets ["a"; "c"] "latest") false nextRegistry
      [registryUrl "a"; registryUrl "c"] emptyWorld = Done w /\
    settled w = true /\
    allVersions w = {[ "a" := "2.0.0"; "c" := "1.5.0" ]}.
Proof.
  eexists. repeat split; evaluated.
Qed.

Lemma metaOld_reaches_merge :
  reachesMerge false (edge "1.0.0" "a" "^0.9.0") metaOld "1.0.0" noPeers.
Proof.
  exists [("0.9.0", noPeers); ("1.0.0", noPeers)], "1.0.0", "1.0.0", "0.9.0".
  repeat split; evaluated.
Qed.

Lemma merge_or_conflict_witness :
  (intersects "0.9.0" "1.0.0" = Some false ->
   recordUpdate (fun _ w' => Done w') false (edge "1.0.0" "a" "^0.9.0") metaOld
     (holding {[ "a" := "0.9.0" ]})
     = Throw (ConflictingDependencies "a" "1.0.0" "0.9.0")) /\
  (forall merged,
      intersects "0.9.0" "1.0.0" = Some true ->
      intersect "0.9.0" "1.0.0" = Some merged ->
      recordUpdate (fun _ w' => Done w') false (edge "1.0.0" "a" "^0.9.0") metaOld
        (holding {[ "a" := "0.9.0" ]})
        = Done (setAllVersions "a" merged (holding {[ "a" := "0.9.0" ]}))).
Proof.
  exact (merge_or_conflict (fun _ w' => Done w') false (edge "1.0.0" "a" "^0.9.0")
           metaOld (holding {[ "a" := "0.9.0" ]}) "1.0.0" noPeers metaOld_reaches_merge).
Defined.

(** The conflict of C4 on an edge that reaches the merge. *)
Example conflict_scenario :
  recordUpdate (fun _ w' => Done w') false (edge "1.0.0" "a" "^0.9.0") metaOld
    (holding {[ "a" := "0.9.0" ]})
    = Throw (ConflictingDependencies "a" "1.0.0" "0.9.0").
Proof. evaluated. Qed.
End Scenarios.

(** ** A walk that does not end *)

Section Cycle.
Import NpmSemver Scenario.

(** Evaluates the goal up to the recursive call it is stuck on, and
    answers that call by [Hrec]. *)
Local Ltac stuck_on recurse Hrec :=
  vm_compute;
  match goal with
  | |- context [recurse ?d ?w] =>
      let o := fresh "o" in
      let E := fresh "E" in
      set (o := recurse d w);
      assert (E : o = OutOfFuel) by (vm_cast_no_check Hrec);
      clearbody o; subst o; reflexivity
  end.

Lemma cycle_from_a (recurse : gmap string string -> world -> outcome world) :
  recurse {[ "b" := "^2.0.0" ]} cycleWorld = OutOfFuel ->
  forEach (filterEdge recurse false {[ "a" := "^2.0.0" ]})
          (declaredEdges manifestAB) cycleWorld = OutOfFuel.
Proof. intros Hrec. stuck_on recurse Hrec. Qed.

Lemma cycle_from_b (recurse : gmap string string -> world -> outcome world) :
  recurse {[ "a" := "^2.0.0" ]} cycleWorld = OutOfFuel ->
  forEach (filterEdge recurse false {[ "b" := "^2.0.0" ]})
          (declaredEdges manifestAB) cycleWorld = OutOfFuel.
Proof. intros Hrec. stuck_on recurse Hrec. Qed.

(** Once both packages are resolved, each call reaches the other package
    again, on an edge whose declared constraint [^1.0.0] does not
    intersect the accumulated one, and expands its peers again. *)
Lemma cycle_never_ends (fuel : nat) :
  _getRecursiveVersions fuel manifestAB {[ "a" := "^2.0.0" ]} cycleWorld false = OutOfFuel /\
  _getRecursiveVersions fuel manifestAB {[ "b" := "^2.0.0" ]} cycleWorld false = OutOfFuel.
Proof.
  induction fuel as [|fuel [IHa IHb]]; [split; reflexivity|].
  split.
  - exact (cycle_from_a (fun d w' => _getRecursiveVersions fuel manifestAB d w' false) IHb).
  - exact (cycle_from_b (fun d w' => _getRecursiveVersions fuel manifestAB d w' false) IHa).
Qed.

(** The run for the anchor [a], up to the call from which it turns
    round. *)
Lemma cyclic_prelude (inner : gmap string string -> world -> outcome world) :
  inner {[ "b" := "^2.0.0" ]} cycleWorld = OutOfFuel ->
  (w' <- forEach (filterEdge inner false (anchorTargets ["a"] "latest"))
                 (declaredEdges manifestAB) emptyWorld ;;
   deliver (fun d w'' => forEach (filterEdge inner false d) (declaredEdges manifestAB) w'')
           false cyclicRegistry [registryUrl "a"; registryUrl "b"] w') = OutOfFuel.
Proof. intros Hrec. stuck_on inner Hrec. Qed.

Lemma cyclic_run_out_of_fuel (fuel : nat) :
  resolve fuel manifestAB (anchorTargets ["a"] "latest") false cyclicRegistry
    [registryUrl "a"; registryUrl "b"] emptyWorld = OutOfFuel.
Proof.
  destruct fuel as [|fuel]; [reflexivity|].
  exact (cyclic_prelude (fun d w' => _getRecursiveVersions fuel manifestAB d w' false)
                        (proj2 (cycle_never_ends fuel))).
Qed.

(** C8, refuted as stated: with [a] and [b] declared at [^1.0.0] and
    peer-depending on each other at [2.0.0], no amount of fuel lets the run
    for the anchor [a] end, with a world or with an exception: after both are
    resolved, each is expanded through its peers again and again. *)
Lemma cyclic_peers_never_end :
  ~ exists fuel,
      resolve fuel manifestAB (anchorTargets ["a"] "latest") false cyclicRegistry
        [registryUrl "a"; registryUrl "b"] emptyWorld <> OutOfFuel.
Proof.
  intros [fuel Hends]. apply Hends. apply cyclic_run_out_of_fuel.
Qed.
End Cycle.

(** ** The rule chain *)

Section RuleFacts.
Context `{Semver}.

Variable parseJson : string -> option packageJson.
Variable stringify : packageJson -> string.

(** C9: when the resolution of the first rule throws, whatever the
    exception, the chain ends with that failure and with the host it
    started from: the second rule, which alone writes [/package.json], has
    not run. *)
Theorem failed_resolution_leaves_manifest (supportedPackages : list string)
    (maybeVersion : option string) (loose : bool) (fuel : nat) (reg : registry)
    (schedule : list string) (c : registryClient) (h : host) (e : error) :
  resolveRule parseJson supportedPackages (requestedVersion maybeVersion) loose
    fuel reg schedule (freshRun c) h = Throw e ->
  updatePackageJson parseJson stringify supportedPackages maybeVersion loose
    fuel reg schedule c h = (h, Failed e) /\
  tree (updatePackageJson parseJson stringify supportedPackages maybeVersion loose
          fuel reg schedule c h).1 !! "/package.json" = tree h !! "/package.json".
Proof.
  intros E. unfold updatePackageJson. rewrite E. split; reflexivity.
Qed.

(** The tree changes only when the resolution has completed: it ended with
    a world in which no subscriber is waiting. *)
Lemma overwrite_only_after_resolution (supportedPackages : list string)
    (maybeVersion : option string) (loose : bool) (fuel : nat) (reg : registry)
    (schedule : list string) (c : registryClient) (h : host) :
  (updatePackageJson parseJson stringify supportedPackages maybeVersion loose
     fuel reg schedule c h).1 <> h ->
  exists w,
    resolveRule parseJson supportedPackages (requestedVersion maybeVersion) loose
      fuel reg schedule (freshRun c) h = Done w /\
    settled w = true.
Proof.
  unfold updatePackageJson.
  destruct (resolveRule _ _ _ _ _ _ _ _ _) as [w| |]; simpl; try congruence.
  destruct (settled w) eqn:Es; simpl; [|congruence]. eauto.
Qed.
End RuleFacts.

Section MoreScenarios.
Import NpmSemver Scenario.

Local Ltac evaluated := vm_compute; reflexivity.

Lemma failed_resolution_leaves_manifest_witness :
  updatePackageJson (fun _ => Some manifestExact) (fun _ => "{}") ["a"] None false
    3 oldRegistry [registryUrl "a"] emptyClient hostWithManifest
    = (hostWithManifest, Failed (CannotDowngrade "a" "1.0.0" "0.9.0")) /\
  tree (updatePackageJson (fun _ => Some manifestExact) (fun _ => "{}") ["a"] None false
          3 oldRegistry [registryUrl "a"] emptyClient hostWithManifest).1
    !! "/package.json" = tree hostWithManifest !! "/package.json".
Proof.
  apply (failed_resolution_leaves_manifest (fun _ => Some manifestExact) (fun _ => "{}")
           ["a"] None false 3 oldRegistry [registryUrl "a"] emptyClient hostWithManifest
           (CannotDowngrade "a" "1.0.0" "0.9.0")).
  evaluated.
Defined.

(** The chain on a resolution that completes: the manifest is rewritten
    and the install task is added. *)
Example applied_scenario :
  updatePackageJson (fun _ => Some manifestA) (fun pj => "written") ["a"] None false
    3 peerRegistry [registryUrl "a"] emptyClient hostWithManifest
    = ({| tree := {[ "/package.json" := "written" ]};
          tasks := ["NodePackageInstallTask"] |}, Applied).
Proof. evaluated. Qed.

Lemma failedClient_consistent : consistent failedClient.
Proof.
  split.
  - repeat constructor. intros Hin. apply elem_of_nil in Hin. exact Hin.
  - intros url Hin. apply list_elem_of_singleton in Hin. subst url.
    vm_compute. eauto.
Qed.

Lemma emptyClient_consistent : consistent emptyClient.
Proof.
  split; [apply NoDup_nil_2|]. intros url Hin. apply elem_of_nil in Hin. contradiction.
Qed.



(** The requests of that trace: one for [b], none again for [a]. *)
Example single_flight_scenario :
  requests (foldl clientStep failedClient
              [Call "a"; Subscribe (registryUrl "a") (edge "latest" "a" "1.0.0");
               Call "b"; Call "a"; Respond (registryUrl "b") (Body metaB); Call "b"])
  = [registryUrl "b"; registryUrl "a"].
Proof. evaluated. Qed.

Lemma peerRegistry_ranked : peerRanked peerRegistry rankA.
Proof.
  intros url json vs v inner q Ha Hvs Hin Hq.
  unfold answer, peerRegistry in Ha. cbn [lookupKey] in Ha.
  destruct (String.eqb_spec url (registryUrl "a")) as [->|_].
  - injection Ha as <-. injection Hvs as <-. cbn [lookupKey] in Hin.
    destruct (v =? "1.0.0")%string.
    { injection Hin as <-. destruct Hq as [x Hq]. vm_compute in Hq. discriminate. }
    destruct (v =? "1.2.0")%string; [|discriminate].
    injection Hin as <-. destruct Hq as [x Hq].
    unfold peerTargets, peers in Hq. simpl in Hq.
    destruct (decide ("b" = q)) as [<-|Hne].
    + vm_compute. lia.
    + rewrite lookup_insert_ne in Hq by exact Hne. rewrite lookup_empty in Hq. discriminate.
  - destruct (String.eqb_spec url (registryUrl "b")) as [->|_]; [|discriminate].
    injection Ha as <-. injection Hvs as <-. cbn [lookupKey] in Hin.
    destruct (v =? "2.0.0")%string.
    { injection Hin as <-. destruct Hq as [x Hq]. vm_compute in Hq. discriminate. }
    destruct (v =? "2.5.0")%string; [|discriminate].
    injection Hin as <-. destruct Hq as [x Hq]. vm_compute in Hq. discriminate.
Qed.

Lemma anchorA_ranked : ranked rankA 2 (anchorTargets ["a"] "latest").
Proof.
  intros q _. unfold rankA. destruct (_ =? _)%string; lia.
Qed.

Lemma emptyClient_answers (reg : registry) : answers reg emptyClient.
Proof. intros url s resp Hs. simpl in Hs. rewrite lookup_empty in Hs. discriminate. Qed.

Lemma emptyClient_waitingRanked (rank : string -> nat) (n : nat) :
  waitingRanked rank n emptyClient.
Proof. intros url s r Hs. simpl in Hs. rewrite lookup_empty in Hs. discriminate. Qed.

Lemma ranked_walk_terminates_witness :
  resolve 3 manifestAB (anchorTargets ["a"] "latest") false peerRegistry
    [registryUrl "a"; registryUrl "b"] emptyWorld <> OutOfFuel.
Proof.
  apply (ranked_walk_terminates manifestAB false peerRegistry rankA 2 peerRegistry_ranked
           3 (anchorTargets ["a"] "latest") [registryUrl "a"; registryUrl "b"] emptyWorld).
  - lia.
  - exact anchorA_ranked.
  - exact (emptyClient_answers peerRegistry).
  - exact (emptyClient_waitingRanked rankA 2).
Defined.
End MoreScenarios.

(** ** Facts about the semver instance *)

Section SemverFacts.
Import NpmSemver.

Lemma to_uint_not_Nil (n : nat) : Nat.to_uint n <> Decimal.Nil.
Proof.
  intros E. pose proof (Unsigned.of_to n) as Hn. rewrite E in Hn.
  simpl in Hn. subst n. vm_compute in E. discriminate.
Qed.

Lemma parseNumber_print (n : nat) : parseNumber (printNumber n) = Some n.
Proof.
  unfold parseNumber, printNumber.
  rewrite NilZero.usu by apply to_uint_not_Nil.
  rewrite Unsigned.of_to. rewrite String.eqb_refl. reflexivity.
Qed.

Lemma parseNumber_inv (s : string) (n : nat) : parseNumber s = Some n -> s = printNumber n.
Proof.
  unfold parseNumber. destruct (NilZero.uint_of_string s) as [d|]; [|discriminate].
  destruct (String.eqb_spec (printNumber (Nat.of_uint d)) s) as [E|_]; [|discriminate].
  intros [= <-]. symmetry. exact E.
Qed.

Lemma splitAt_Some (c : ascii) (s a b : string) :
  splitAt c s = Some (a, b) -> s = a ++ String c b.
Proof.
  revert a b. induction s as [|x s IH]; intros a b E; simpl in E; [discriminate|].
  destruct (Ascii.eqb_spec x c) as [->|_].
  - injection E as <- <-. reflexivity.
  - destruct (splitAt c s) as [[a' b']|]; [|discriminate].
    injection E as <- <-. rewrite (IH _ _ eq_refl) at 1. reflexivity.
Qed.

Lemma splitAt_app_hit (c : ascii) (a b : string) :
  splitAt c a = None -> splitAt c (a ++ String c b) = Some (a, b).
Proof.
  induction a as [|x a IH]; simpl.
  - intros _. rewrite Ascii.eqb_refl. reflexivity.
  - destruct (Ascii.eqb x c); [discriminate|].
    destruct (splitAt c a) as [[? ?]|]; [discriminate|].
    intros _. rewrite IH by reflexivity. reflexivity.
Qed.

Lemma splitAt_app_miss (c : ascii) (a b : string) :
  splitAt c a = None -> splitAt c b = None -> splitAt c (a ++ b) = None.
Proof.
  induction a as [|x a IH]; simpl; [auto|].
  destruct (Ascii.eqb x c); [discriminate|].
  destruct (splitAt c a) as [[? ?]|]; [discriminate|].
  intros _ Hb. rewrite IH by auto. reflexivity.
Qed.

Lemma splitAt_cons_miss (c x : ascii) (s : string) :
  Ascii.eqb x c = false -> splitAt c s = None -> splitAt c (String x s) = None.
Proof. intros Hx Hs. simpl. rewrite Hx, Hs. reflexivity. Qed.

Lemma uint_digits (d : Decimal.uint) : allDigits (NilEmpty.string_of_uint d) = true.
Proof. induction d; simpl; auto. Qed.

Lemma eqb_not_digit (x c : ascii) :
  isDigit x = true -> isDigit c = false -> Ascii.eqb x c = false.
Proof.
  intros Hx Hc. destruct (Ascii.eqb_spec x c) as [->|_]; [congruence | reflexivity].
Qed.

Lemma uint_no_split (c : ascii) (d : Decimal.uint) :
  isDigit c = false -> splitAt c (NilEmpty.string_of_uint d) = None.
Proof.
  intros Hc. induction d; [reflexivity|..]; cbn [NilEmpty.string_of_uint];
    (apply splitAt_cons_miss; [apply eqb_not_digit; [reflexivity | exact Hc] | exact IHd]).
Qed.

Lemma printNumber_no_split (c : ascii) (n : nat) :
  isDigit c = false -> splitAt c (printNumber n) = None.
Proof.
  intros Hc. unfold printNumber, NilZero.string_of_uint.
  destruct (Nat.to_uint n) eqn:E; try apply (uint_no_split c _ Hc).
  apply splitAt_cons_miss; [apply eqb_not_digit; [reflexivity | exact Hc] | reflexivity].
Qed.

Lemma printNumber_digits (n : nat) : digits (printNumber n) = true.
Proof.
  unfold digits, printNumber, NilZero.string_of_uint.
  destruct (Nat.to_uint n) eqn:E; try reflexivity;
    rewrite uint_digits; reflexivity.
Qed.

Lemma printVersion_no_space (t : triple) : splitAt " " (printVersion t) = None.
Proof.
  destruct t as [[x y] z].
  change (printVersion (x, y, z))
    with (printNumber x ++ String "." (printNumber y ++ String "." (printNumber z))).
  repeat first
    [ apply splitAt_app_miss
    | apply printNumber_no_split; reflexivity
    | apply splitAt_cons_miss; [reflexivity|]
    | reflexivity ].
Qed.

Lemma parseVersion_print (t : triple) : parseVersion (printVersion t) = Some t.
Proof.
  destruct t as [[x y] z]. unfold parseVersion.
  change (printVersion (x, y, z))
    with (printNumber x ++ String "." (printNumber y ++ String "." (printNumber z))).
  rewrite (splitAt_app_hit "." (printNumber x)) by (apply printNumber_no_split; reflexivity).
  rewrite (splitAt_app_hit "." (printNumber y)) by (apply printNumber_no_split; reflexivity).
  rewrite !parseNumber_print. reflexivity.
Qed.

Lemma parseVersion_inv (s : string) (t : triple) :
  parseVersion s = Some t -> s = printVersion t.
Proof.
  unfold parseVersion.
  destruct (splitAt "." s) as [[a rest]|] eqn:E1; [|discriminate].
  destruct (splitAt "." rest) as [[b c]|] eqn:E2; [|discriminate].
  destruct (parseNumber a) as [x|] eqn:Ea; [|discriminate].
  destruct (parseNumber b) as [y|] eqn:Eb; [|discriminate].
  destruct (parseNumber c) as [z|] eqn:Ec; [|discriminate].
  intros [= <-].
  apply splitAt_Some in E1, E2. apply parseNumber_inv in Ea, Eb, Ec. subst.
  reflexivity.
Qed.

Lemma parseVersion_operator (c : ascii) (v : string) :
  isDigit c = false -> parseVersion (String c v) = None.
Proof.
  intros Hc. destruct (parseVersion (String c v)) as [t|] eqn:E; [|reflexivity].
  apply parseVersion_inv in E. exfalso.
  destruct t as [[x y] z].
  change (printVersion (x, y, z))
    with (printNumber x ++ String "." (printNumber y ++ String "." (printNumber z))) in E.
  pose proof (printNumber_digits x) as Hd. unfold digits in Hd.
  destruct (printNumber x) as [|c' s']; [discriminate|].
  injection E as <- _. simpl in Hd. rewrite Hc in Hd. discriminate.
Qed.

(** *** The order of versions *)

Lemma ltVersion_spec (a b : triple) : ltVersion a b = true <-> versionLt a b.
Proof.
  destruct a as [[a1 a2] a3], b as [[b1 b2] b3].
  unfold ltVersion, compareVersion, versionLt, major, minor, patch; simpl.
  destruct (Nat.compare_spec a1 b1); [|split; [lia | intros; reflexivity]
                                      |split; [discriminate | lia]].
  destruct (Nat.compare_spec a2 b2); [|split; [lia | intros; reflexivity]
                                      |split; [discriminate | lia]].
  destruct (Nat.compare_spec a3 b3); split; try discriminate; try lia; reflexivity.
Qed.

Lemma ltVersion_false (a b : triple) : ltVersion a b = false <-> versionLe b a.
Proof.
  unfold versionLe. rewrite <- ltVersion_spec. destruct (ltVersion a b); split; congruence.
Qed.

Lemma leVersion_spec (a b : triple) : leVersion a b = true <-> versionLe a b.
Proof.
  destruct a as [[a1 a2] a3], b as [[b1 b2] b3].
  unfold leVersion, compareVersion, versionLe, versionLt, major, minor, patch; simpl.
  destruct (Nat.compare_spec a1 b1); [|split; [lia | intros; reflexivity]
                                      |split; [discriminate | lia]].
  destruct (Nat.compare_spec a2 b2); [|split; [lia | intros; reflexivity]
                                      |split; [discriminate | lia]].
  destruct (Nat.compare_spec a3 b3); split; try discriminate; try lia; reflexivity.
Qed.

Lemma eqVersion_spec (a b : triple) : eqVersion a b = true <-> a = b.
Proof.
  destruct a as [[a1 a2] a3], b as [[b1 b2] b3].
  unfold eqVersion, compareVersion, major, minor, patch; simpl.
  destruct (Nat.compare_spec a1 b1); [|split; [discriminate | intros [= -> -> ->]; lia]..].
  destruct (Nat.compare_spec a2 b2); [|split; [discriminate | intros [= -> -> ->]; lia]..].
  destruct (Nat.compare_spec a3 b3); [|split; [discriminate | intros [= -> -> ->]; lia]..].
  subst. split; auto.
Qed.

Lemma versionLe_refl (a : triple) : versionLe a a.
Proof. unfold versionLe, versionLt. lia. Qed.

Lemma versionLe_trans (a b c : triple) : versionLe a b -> versionLe b c -> versionLe a c.
Proof. unfold versionLe, versionLt. lia. Qed.

Lemma versionLt_tildeUpper (t : triple) : versionLt t (tildeUpper t).
Proof. destruct t as [[x y] z]. unfold versionLt, tildeUpper, major, minor, patch; simpl. lia. Qed.

Lemma versionLt_caretUpper (t : triple) : versionLt t (caretUpper t).
Proof.
  destruct t as [[[|x] [|y]] z]; unfold versionLt, caretUpper, major, minor, patch; simpl; lia.
Qed.

Lemma maxVersion_zero (t : triple) : maxVersion t (0, 0, 0) = t.
Proof.
  unfold maxVersion. destruct (ltVersion t (0, 0, 0)) eqn:E; [|reflexivity].
  apply ltVersion_spec in E. destruct t as [[x y] z].
  unfold versionLt, major, minor, patch in E; simpl in E. lia.
Qed.

(** *** Constraints of the forms [X.Y.Z], [~X.Y.Z] and [^X.Y.Z] *)

Lemma tokens_single (n : nat) (s : string) : splitAt " " s = None -> tokens n s = [s].
Proof. intros E. destruct n; simpl; [reflexivity|]. rewrite E. reflexivity. Qed.

Lemma parse_exact (t : triple) : parseComparators (printVersion t) = Some [Cmp OpEq t].
Proof.
  unfold parseComparators. rewrite tokens_single by apply printVersion_no_space.
  unfold parseTokens, parseToken. rewrite parseVersion_print. reflexivity.
Qed.

Lemma parse_tilde (t : triple) :
  parseComparators (String "~" (printVersion t)) =
    Some [Cmp OpGe t; Cmp OpLt (tildeUpper t)].
Proof.
  unfold parseComparators.
  rewrite tokens_single
    by (apply splitAt_cons_miss; [reflexivity | apply printVersion_no_space]).
  unfold parseTokens, parseToken.
  rewrite parseVersion_operator by reflexivity.
  cbn [Ascii.eqb Bool.eqb]. rewrite parseVersion_print. reflexivity.
Qed.

Lemma parse_caret (t : triple) :
  parseComparators (String "^" (printVersion t)) =
    Some [Cmp OpGe t; Cmp OpLt (caretUpper t)].
Proof.
  unfold parseComparators.
  rewrite tokens_single
    by (apply splitAt_cons_miss; [reflexivity | apply printVersion_no_space]).
  unfold parseTokens, parseToken.
  rewrite parseVersion_operator by reflexivity.
  cbn [Ascii.eqb Bool.eqb]. rewrite parseVersion_print. reflexivity.
Qed.

Lemma plainFloor_cases (r : string) (t : triple) :
  plainFloor r = Some t ->
  r = printVersion t \/ r = String "~" (printVersion t) \/ r = String "^" (printVersion t).
Proof.
  unfold plainFloor. destruct (parseVersion r) as [t'|] eqn:E.
  - intros [= <-]. left. apply parseVersion_inv. exact E.
  - destruct r as [|c v]; [discriminate|].
    destruct (Ascii.eqb_spec c "~") as [->|_]; simpl.
    + intros Hv. right; left. f_equal. apply parseVersion_inv. exact Hv.
    + destruct (Ascii.eqb_spec c "^") as [->|_]; [|discriminate].
      intros Hv. right; right. f_equal. apply parseVersion_inv. exact Hv.
Qed.

Lemma plainFloor_exact (t : triple) : plainFloor (printVersion t) = Some t.
Proof. unfold plainFloor. rewrite parseVersion_print. reflexivity. Qed.

Lemma plainFloor_prefixed (c : ascii) (t : triple) :
  (Ascii.eqb c "~" || Ascii.eqb c "^")%bool = true ->
  plainFloor (String c (printVersion t)) = Some t.
Proof.
  intros Hc. unfold plainFloor. rewrite parseVersion_operator.
  - rewrite Hc. apply parseVersion_print.
  - destruct (Ascii.eqb_spec c "~") as [->|_]; [reflexivity|].
    destruct (Ascii.eqb_spec c "^") as [->|_]; [reflexivity | discriminate].
Qed.

Lemma plainFloor_comparators (r : string) (t : triple) :
  plainFloor r = Some t ->
  parseComparators r = Some [Cmp OpEq t] \/
  exists hi, parseComparators r = Some [Cmp OpGe t; Cmp OpLt hi] /\
             (hi = tildeUpper t \/ hi = caretUpper t).
Proof.
  intros Hr. destruct (plainFloor_cases r t Hr) as [->|[->| ->]].
  - left. apply parse_exact.
  - right. exists (tildeUpper t). split; [apply parse_tilde | auto].
  - right. exists (caretUpper t). split; [apply parse_caret | auto].
Qed.

Lemma minVersion_bounded (t hi : triple) :
  versionLt t hi ->
  (let candidate := foldr (fun c acc => maxVersion (lowerCandidate c) acc) (0, 0, 0)
                          [Cmp OpGe t; Cmp OpLt hi] in
   if satisfiesAll candidate [Cmp OpGe t; Cmp OpLt hi] then Some candidate else None)
  = Some t.
Proof.
  intros Hlt. cbn [foldr lowerCandidate]. rewrite !maxVersion_zero.
  cbn [satisfiesAll forallb test].
  replace (leVersion t t) with true
    by (symmetry; apply leVersion_spec, versionLe_refl).
  replace (ltVersion t hi) with true by (symmetry; apply ltVersion_spec; exact Hlt).
  reflexivity.
Qed.

(** On these forms the floor is the least version that satisfies the
    constraint. *)
Lemma minVersion_plain (r : string) (t : triple) :
  plainFloor r = Some t -> minVersion r = Some t.
Proof.
  intros Hr. unfold minVersion.
  destruct (plainFloor_cases r t Hr) as [->|[->| ->]].
  - rewrite parse_exact. cbn [foldr lowerCandidate]. rewrite maxVersion_zero.
    cbn [satisfiesAll forallb test].
    replace (eqVersion t t) with true by (symmetry; apply eqVersion_spec; reflexivity).
    reflexivity.
  - rewrite parse_tilde. apply minVersion_bounded, versionLt_tildeUpper.
  - rewrite parse_caret. apply minVersion_bounded, versionLt_caretUpper.
Qed.

Lemma versionShape_print (t : triple) : versionShape (printVersion t) = true.
Proof.
  destruct t as [[x y] z]. unfold versionShape.
  change (printVersion (x, y, z))
    with (printNumber x ++ String "." (printNumber y ++ String "." (printNumber z))).
  rewrite (splitAt_app_hit "." (printNumber x)) by (apply printNumber_no_split; reflexivity).
  rewrite (splitAt_app_hit "." (printNumber y)) by (apply printNumber_no_split; reflexivity).
  rewrite !printNumber_digits. reflexivity.
Qed.

Lemma versionShape_operator (c : ascii) (t : triple) :
  isDigit c = false -> versionShape (String c (printVersion t)) = false.
Proof.
  intros Hc. destruct t as [[x y] z]. unfold versionShape.
  change (printVersion (x, y, z))
    with (printNumber x ++ String "." (printNumber y ++ String "." (printNumber z))).
  cbn [splitAt].
  destruct (Ascii.eqb c "."); [destruct (splitAt _ _) as [[? ?]|]; reflexivity|].
  rewrite (splitAt_app_hit "." (printNumber x)) by (apply printNumber_no_split; reflexivity).
  rewrite (splitAt_app_hit "." (printNumber y)) by (apply printNumber_no_split; reflexivity).
  unfold digits at 1. cbn [truthy allDigits]. rewrite Hc. reflexivity.
Qed.

Lemma parseRangeVersion_unfold (r : string) :
  parseRangeVersion' r =
    if versionShape r then Some r
    else match r with
         | EmptyString => None
         | String _ rest => parseRangeVersion' rest
         end.
Proof. destruct r; reflexivity. Qed.

(** On these forms [parseRange] reads the floor. *)
Lemma parseRangeVersion_plain (r : string) (t : triple) :
  plainFloor r = Some t -> parseRangeVersion' r = Some (printVersion t).
Proof.
  intros Hr. destruct (plainFloor_cases r t Hr) as [->|[->| ->]].
  - rewrite parseRangeVersion_unfold, versionShape_print. reflexivity.
  - rewrite parseRangeVersion_unfold, versionShape_operator by reflexivity.
    rewrite parseRangeVersion_unfold, versionShape_print. reflexivity.
  - rewrite parseRangeVersion_unfold, versionShape_operator by reflexivity.
    rewrite parseRangeVersion_unfold, versionShape_print. reflexivity.
Qed.

Lemma lt_print (a b : triple) : lt' (printVersion a) (printVersion b) = Some (ltVersion a b).
Proof. unfold lt'. rewrite !parseVersion_print. reflexivity. Qed.

(** *** Selection *)

Lemma maxStep_sound (cs : list comparator) (versions : list string)
    (best : option (string * triple)) :
  (forall s v, best = Some (s, v) -> parseVersion s = Some v /\ satisfiesAll v cs = true) ->
  forall s v, foldl (maxStep cs) best versions = Some (s, v) ->
              parseVersion s = Some v /\ satisfiesAll v cs = true.
Proof.
  revert best. induction versions as [|x versions IH]; intros best Hbest s v E; simpl in E.
  - apply Hbest. exact E.
  - apply (IH _) in E; [exact E|]. clear E s v.
    intros s v. unfold maxStep.
    destruct (parseVersion x) as [vx|] eqn:Ex; [|apply Hbest].
    destruct (satisfiesAll vx cs) eqn:Es; [|apply Hbest].
    destruct best as [[sb vb]|].
    + destruct (ltVersion vb vx); [|apply Hbest]. intros [= <- <-]. auto.
    + intros [= <- <-]. auto.
Qed.

Lemma maxSatisfying_sound (versions : list string) (r m : string) :
  maxSatisfying' versions r = Some m ->
  exists cs tm,
    parseComparators r = Some cs /\ parseVersion m = Some tm /\ satisfiesAll tm cs = true.
Proof.
  unfold maxSatisfying'. destruct (parseComparators r) as [cs|]; [|discriminate].
  destruct (foldl (maxStep cs) None versions) as [[s v]|] eqn:E; [|discriminate].
  intros [= <-]. exists cs, v. split; [reflexivity|].
  eapply maxStep_sound; [|exact E]. discriminate.
Qed.

Lemma nonEmpty_Some (o : option string) (s : string) : nonEmpty o = Some s -> o = Some s.
Proof. destruct o as [x|]; simpl; [|discriminate]. destruct (truthy x); congruence. Qed.

Lemma lookupKey_In {A : Type} (k : string) (o : list (string * A)) (v : A) :
  lookupKey k o = Some v -> (k, v) ∈ o.
Proof.
  induction o as [|[k' v'] o IH]; simpl; [discriminate|].
  destruct (String.eqb_spec k k') as [->|_].
  - intros [= ->]. left.
  - intros E. right. auto.
Qed.

Lemma plainRegistry_answer (reg : registry) (url : string) (json : npmPackageJson) :
  plainRegistry reg = true -> answer reg url = Body json -> plainTags json = true.
Proof.
  unfold plainRegistry, answer. intros Hreg Ha.
  destruct (lookupKey url reg) as [resp|] eqn:E; [|discriminate]. subst resp.
  apply lookupKey_In in E. rewrite forallb_forall in Hreg.
  apply list_elem_of_In in E. exact (Hreg _ E).
Qed.

Lemma plainTags_tag (json : npmPackageJson) (tag tagged : string) :
  plainTags json = true -> distTag json tag = Some tagged ->
  parseComparators tag = None /\ exists t, tagged = printVersion t.
Proof.
  unfold plainTags, distTag. destruct (distTags json) as [tags|]; [|discriminate].
  intros Htags E. apply nonEmpty_Some in E as E'.
  assert (Ht : truthy tagged = true).
  { unfold nonEmpty in E. rewrite E' in E. destruct (truthy tagged); [reflexivity|discriminate]. }
  apply lookupKey_In, list_elem_of_In in E'.
  rewrite forallb_forall in Htags. specialize (Htags _ E'). simpl in Htags.
  rewrite Ht in Htags. simpl in Htags.
  apply andb_true_iff in Htags as [Hr Hv]. split.
  - destruct (parseComparators tag); [discriminate | reflexivity].
  - destruct (parseVersion tagged) as [t|] eqn:Et; [|discriminate].
    exists t. apply parseVersion_inv. exact Et.
Qed.

(** What selection returns, on a document with plain dist-tags: a constraint
    of one of the three forms, whose floor is not below the floor of the
    selector when the selector is of one of these forms too. *)
Lemma selection_plain (json : npmPackageJson) (selector : string) (loose : bool)
    (u : string) :
  plainTags json = true ->
  _getVersionFromNpmPackage (H := npmSemver) json selector loose = Done u ->
  exists t, plainFloor u = Some t /\
            forall ts, plainFloor selector = Some ts -> versionLe ts t.
Proof.
  intros Htags. unfold _getVersionFromNpmPackage.
  destruct (distTag json selector) as [tagged|] eqn:Etag.
  - destruct (plainTags_tag _ _ _ Htags Etag) as [Hnot [t ->]].
    intros [= <-]. exists t. split.
    + destruct loose; [apply plainFloor_prefixed; reflexivity | apply plainFloor_exact].
    + intros ts Hs. destruct (plainFloor_comparators _ _ Hs) as [E|(hi & E & _)]; congruence.
  - cbn [validRange npmSemver].
    destruct (parseComparators selector) as [cs0|] eqn:Ecs0; [|discriminate]. cbn [negb].
    intros E. apply bind_Done in E as (vs & _ & E).
    destruct (nonEmpty _) as [m|] eqn:Em; [|discriminate].
    apply nonEmpty_Some in Em. cbn [maxSatisfying npmSemver] in Em.
    apply maxSatisfying_sound in Em as (cs & tm & Hcs & Hm & Hsat).
    apply parseVersion_inv in Hm. subst m.
    exists tm. split.
    + destruct (_ =? _)%string; [injection E as <-; apply plainFloor_exact|].
      destruct (maybeOperator _) as [op|] eqn:Eop.
      * injection E as <-. unfold maybeOperator in Eop.
        destruct (widen selector loose) as [|c rest]; [discriminate|].
        destruct (Ascii.eqb c "~" || Ascii.eqb c "^")%bool eqn:Ec; [|discriminate].
        injection Eop as <-. apply plainFloor_prefixed. exact Ec.
      * injection E as <-.
        destruct loose; [apply plainFloor_prefixed; reflexivity | apply plainFloor_exact].
    + intros ts Hs. clear E.
      assert (Hw : parseComparators (widen selector loose) = Some [Cmp OpEq ts] \/
                   exists hi, parseComparators (widen selector loose)
                              = Some [Cmp OpGe ts; Cmp OpLt hi]).
      { unfold widen. cbn [valid npmSemver].
        destruct (plainFloor_cases _ _ Hs) as [->|[->| ->]].
        - rewrite parseVersion_print. destruct loose; cbn [andb].
          + right. exists (tildeUpper ts). apply parse_tilde.
          + left. apply parse_exact.
        - rewrite parseVersion_operator by reflexivity. cbn [andb].
          right. exists (tildeUpper ts). apply parse_tilde.
        - rewrite parseVersion_operator by reflexivity. cbn [andb].
          right. exists (caretUpper ts). apply parse_caret. }
      destruct Hw as [Hw|[hi Hw]]; rewrite Hw in Hcs; injection Hcs as <-;
        cbn [satisfiesAll forallb test] in Hsat.
      * rewrite andb_true_r in Hsat. apply eqVersion_spec in Hsat. subst tm.
        apply versionLe_refl.
      * apply andb_true_iff in Hsat as [Hsat _]. apply leVersion_spec. exact Hsat.
Qed.

(** *** Intersection *)

Lemma leVersion_false (a b : triple) : leVersion a b = false <-> versionLt b a.
Proof.
  destruct a as [[a1 a2] a3], b as [[b1 b2] b3].
  unfold leVersion, compareVersion, versionLt, major, minor, patch; simpl.
  destruct (Nat.compare_spec a1 b1); [|split; [discriminate | lia]
                                      |split; [lia | intros; reflexivity]].
  destruct (Nat.compare_spec a2 b2); [|split; [discriminate | lia]
                                      |split; [lia | intros; reflexivity]].
  destruct (Nat.compare_spec a3 b3); split; try discriminate; try lia; reflexivity.
Qed.

Lemma eqVersion_false (a b : triple) : eqVersion a b = false <-> a <> b.
Proof.
  rewrite <- eqVersion_spec. destruct (eqVersion a b); split; congruence.
Qed.

Lemma triple_neq (a1 a2 a3 b1 b2 b3 : nat) :
  (a1, a2, a3) <> (b1, b2, b3) <-> (a1 <> b1 \/ a2 <> b2 \/ a3 <> b3).
Proof.
  split.
  - intros Hne. destruct (Nat.eq_dec a1 b1); [|auto].
    destruct (Nat.eq_dec a2 b2); [|auto].
    destruct (Nat.eq_dec a3 b3); [|auto]. subst. congruence.
  - intros Hne [= -> -> ->]. lia.
Qed.

(** Turns the tests on versions into arithmetic and decides it. *)
Ltac version_order :=
  repeat match goal with
    | H : ltVersion _ _ = true |- _ => apply ltVersion_spec in H
    | H : ltVersion _ _ = false |- _ => apply ltVersion_false in H
    | H : leVersion _ _ = true |- _ => apply leVersion_spec in H
    | H : leVersion _ _ = false |- _ => apply leVersion_false in H
    | H : eqVersion _ _ = true |- _ => apply eqVersion_spec in H
    | H : eqVersion _ _ = false |- _ => apply eqVersion_false in H
    | H : (_ =? _)%nat = true |- _ => apply Nat.eqb_eq in H
    | H : (_ =? _)%nat = false |- _ => apply Nat.eqb_neq in H
    | H : (_ && _)%bool = true |- _ => apply andb_true_iff in H; destruct H
    | H : (_ && _)%bool = false |- _ => apply andb_false_iff in H
    | H : negb _ = true |- _ => apply negb_true_iff in H
    | H : negb _ = false |- _ => apply negb_false_iff in H
    end;
  repeat match goal with
    | t : triple |- _ => destruct t as [[? ?] ?]
    end;
  unfold versionLe, versionLt, major, minor, patch in *;
  cbn [fst snd] in *;
  repeat match goal with
    | H : (_, _, _) = (_, _, _) |- _ => injection H as ? ? ?
    | H : (_, _, _) <> (_, _, _) |- _ => apply triple_neq in H
    | |- (_, _, _) = (_, _, _) => f_equal; [f_equal|]
    end;
  try lia.

Lemma upper_facts (t hi : triple) :
  hi = tildeUpper t \/ hi = caretUpper t ->
  versionLt t hi /\ (major t = 0 -> major hi = 0).
Proof.
  intros [->| ->]; split.
  - apply versionLt_tildeUpper.
  - destruct t as [[x y] z]. unfold tildeUpper, major. simpl. auto.
  - apply versionLt_caretUpper.
  - destruct t as [[[|x] [|y]] z]; unfold caretUpper, major; simpl; auto; discriminate.
Qed.

(** The output of [createShorthand] on a lower and an upper bound that keep
    major version zero together. *)
Lemma createShorthand_plain (lo hi : triple) (top : operator) :
  (top = OpLt \/ top = OpLe) ->
  (top = OpLe -> lo = hi) ->
  versionLe lo hi ->
  (major lo = 0 -> major hi = 0) ->
  plainFloor (createShorthand {| lowerBound := Some (Cmp OpGe lo);
                                 upperBound := Some (Cmp top hi) |}) = Some lo.
Proof.
  intros Htop Hexact Hle Hzero. unfold createShorthand. cbn [lowerBound upperBound].
  destruct Htop as [->| ->].
  - destruct (eqVersion lo hi); [apply plainFloor_exact|].
    destruct ((major lo =? 0) && (major hi =? 0))%nat eqn:E0.
    + destruct ((minor lo =? 0) && (minor hi =? 0))%nat;
        [apply plainFloor_prefixed; reflexivity|].
      destruct (minor lo =? 0)%nat; apply plainFloor_prefixed; reflexivity.
    + destruct (negb (major lo =? major hi)%nat) eqn:E1;
        [|apply plainFloor_prefixed; reflexivity].
      destruct (major lo =? 0)%nat eqn:E2; [|apply plainFloor_prefixed; reflexivity].
      exfalso. cbn [andb] in E0. apply Nat.eqb_eq in E2. apply Nat.eqb_neq in E0.
      specialize (Hzero E2). lia.
  - rewrite <- (Hexact eq_refl).
    assert (E : eqVersion lo lo = true) by (apply eqVersion_spec; reflexivity).
    rewrite E. apply plainFloor_exact.
Qed.

Lemma versionLt_tests (x y : triple) :
  versionLt x y ->
  ltVersion x y = true /\ ltVersion y x = false /\
  leVersion x y = true /\ leVersion y x = false /\
  eqVersion x y = false /\ eqVersion y x = false.
Proof.
  intros Hlt. repeat split.
  - apply ltVersion_spec. exact Hlt.
  - apply ltVersion_false. unfold versionLe, versionLt in *. lia.
  - apply leVersion_spec. unfold versionLe, versionLt in *. lia.
  - apply leVersion_false. exact Hlt.
  - apply eqVersion_false. intros ->. unfold versionLt in Hlt. lia.
  - apply eqVersion_false. intros ->. unfold versionLt in Hlt. lia.
Qed.

Lemma version_tests_refl (x : triple) :
  ltVersion x x = false /\ leVersion x x = true /\ eqVersion x x = true.
Proof.
  repeat split.
  - apply ltVersion_false, versionLe_refl.
  - apply leVersion_spec, versionLe_refl.
  - apply eqVersion_spec. reflexivity.
Qed.

Lemma version_trichotomy (x y : triple) : versionLt x y \/ x = y \/ versionLt y x.
Proof.
  destruct x as [[x1 x2] x3], y as [[y1 y2] y3].
  unfold versionLt, major, minor, patch; cbn [fst snd].
  destruct (Nat.eq_dec x1 y1) as [->|]; [|lia].
  destruct (Nat.eq_dec x2 y2) as [->|]; [|lia].
  destruct (Nat.eq_dec x3 y3) as [->|]; [|lia].
  auto.
Qed.

(** Rewrites every test between [x] and [y] by what [Hlt] says. *)
Ltac use_lt Hlt :=
  let E1 := fresh in let E2 := fresh in let E3 := fresh in
  let E4 := fresh in let E5 := fresh in let E6 := fresh in
  destruct (versionLt_tests _ _ Hlt) as (E1 & E2 & E3 & E4 & E5 & E6);
  rewrite ?E1, ?E2, ?E3, ?E4, ?E5, ?E6;
  clear E1 E2 E3 E4 E5 E6.

Ltac use_refl x :=
  let E1 := fresh in let E2 := fresh in let E3 := fresh in
  destruct (version_tests_refl x) as (E1 & E2 & E3);
  rewrite ?E1, ?E2, ?E3;
  clear E1 E2 E3.

Ltac reduce_bounds :=
  cbn [app foldl boundStep ensureCompatible comparatorIntersects test mergeBounds
       increasing decreasing inclusive lowerBound upperBound andb orb].

(** Settles the order of [x] and [y] and rewrites the tests on them. *)
Ltac decide_pair x y :=
  let Hlt := fresh "Hlt" in
  destruct (version_trichotomy x y) as [Hlt|[<-|Hlt]];
  [use_lt Hlt | use_refl x | use_lt Hlt].

(** Runs the reduction of [intersect], splitting on the order of each pair
    of versions it tests. *)
Ltac run_bounds :=
  reduce_bounds;
  repeat (match goal with
          | |- context [ltVersion ?x ?y] => decide_pair x y
          | |- context [leVersion ?x ?y] => decide_pair x y
          | |- context [eqVersion ?x ?y] => decide_pair x y
          end;
          reduce_bounds).

Lemma bounds_plain (ta tb : triple) (cs ds : list comparator) (b : bounds) :
  plainComparators ta cs -> plainComparators tb ds ->
  foldl boundStep (Some {| lowerBound := None; upperBound := None |}) (cs ++ ds)%list
    = Some b ->
  exists lo hi top,
    b = {| lowerBound := Some (Cmp OpGe lo); upperBound := Some (Cmp top hi) |} /\
    (top = OpLt \/ top = OpLe) /\
    (top = OpLe -> lo = hi) /\
    versionLe lo hi /\ (major lo = 0 -> major hi = 0) /\
    versionLe ta lo /\ versionLe tb lo.
Proof.
  intros [->|(ha & -> & Ha & Za)] [->|(hb & -> & Hb & Zb)];
    reduce_bounds; try use_lt Ha; try use_lt Hb;
    run_bounds; intros [= <-];
    (eexists _, _, _; split; [reflexivity|]; split; [auto|];
     split; [intros Htop; first [discriminate Htop | reflexivity]|]);
    repeat split; version_order.
Qed.

Lemma plainFloor_plainComparators (r : string) (t : triple) :
  plainFloor r = Some t ->
  exists cs, parseComparators r = Some cs /\ plainComparators t cs.
Proof.
  intros Hr. destruct (plainFloor_comparators r t Hr) as [E|(hi & E & Hhi)].
  - exists [Cmp OpEq t]. split; [exact E | left; reflexivity].
  - exists [Cmp OpGe t; Cmp OpLt hi]. split; [exact E|].
    right. exists hi. destruct (upper_facts t hi Hhi). auto.
Qed.

(** The intersection of two constraints of the three forms is of one of
    them, and its floor is below neither floor. *)
Lemma intersect_plain (a b r : string) (ta tb : triple) :
  plainFloor a = Some ta -> plainFloor b = Some tb ->
  intersect' a b = Some r ->
  exists tr, plainFloor r = Some tr /\ versionLe ta tr /\ versionLe tb tr.
Proof.
  intros Ha Hb. unfold intersect'.
  destruct (plainFloor_plainComparators a ta Ha) as (cs & -> & Hcs).
  destruct (plainFloor_plainComparators b tb Hb) as (ds & -> & Hds).
  destruct (foldl boundStep _ (cs ++ ds)%list) as [bs|] eqn:E; [|discriminate].
  intros [= <-].
  destruct (bounds_plain ta tb cs ds bs Hcs Hds E)
    as (lo & hi & top & -> & Htop & Hexact & Hle & Hzero & Hta & Htb).
  exists lo. split; [|auto]. apply createShorthand_plain; assumption.
Qed.

Lemma plainFloor_truthy (r : string) (t : triple) : plainFloor r = Some t -> truthy r = true.
Proof. destruct r; [discriminate | reflexivity]. Qed.

Lemma floorLe_trans (a b c : string) : floorLe a b -> floorLe b c -> floorLe a c.
Proof.
  intros (ta & tb & Ha & Hb & Hab) (tb' & tc & Hb' & Hc & Hbc).
  rewrite Hb in Hb'. injection Hb' as <-.
  exists ta, tc. repeat split; auto. eapply versionLe_trans; eauto.
Qed.

Lemma floorLe_refl (a : string) (t : triple) : plainFloor a = Some t -> floorLe a a.
Proof. intros Ha. exists t, t. repeat split; auto. apply versionLe_refl. Qed.

Lemma floorLe_intersect (a b r : string) :
  (exists ta, plainFloor a = Some ta) -> (exists tb, plainFloor b = Some tb) ->
  intersect' a b = Some r ->
  truthy r = true /\ (exists tr, plainFloor r = Some tr) /\ floorLe a r /\ floorLe b r.
Proof.
  intros [ta Ha] [tb Hb] E.
  destruct (intersect_plain a b r ta tb Ha Hb E) as (tr & Hr & Hta & Htb).
  split; [eapply plainFloor_truthy; eauto|].
  split; [eauto|]. split; [exists ta, tr | exists tb, tr]; auto.
Qed.

(** The downgrade test, on two constraints of the three forms. *)
Lemma downgrade_test_plain (u d : string) (updateMin declaredMin : string) (tu td : triple) :
  plainFloor u = Some tu -> plainFloor d = Some td ->
  parseRangeVersion' u = Some updateMin ->
  parseRangeVersion' d = Some declaredMin ->
  lt' updateMin declaredMin = Some false ->
  floorLe d u.
Proof.
  intros Hu Hd Eu Ed Hlt.
  rewrite (parseRangeVersion_plain u tu Hu) in Eu. injection Eu as <-.
  rewrite (parseRangeVersion_plain d td Hd) in Ed. injection Ed as <-.
  rewrite lt_print in Hlt. injection Hlt as Hlt.
  exists td, tu. repeat split; auto. apply ltVersion_false. exact Hlt.
Qed.
End SemverFacts.

(** ** No downgrade *)

Lemma truthy_app (op m : string) : truthy m = true -> truthy (op ++ m) = true.
Proof. destruct op; [auto | reflexivity]. Qed.

Section SelectionResult.
Context `{Semver}.

Lemma maybeOperator_operators (version op : string) :
  maybeOperator version = Some op -> op ∈ operators.
Proof.
  destruct version as [|c rest]; cbn [maybeOperator]; [discriminate|].
  destruct (Ascii.eqb_spec c "~") as [->|_]; cbn [orb].
  - intros [= <-]. right. left.
  - destruct (Ascii.eqb_spec c "^") as [->|_]; [|discriminate].
    intros [= <-]. right. right. left.
Qed.

Lemma looseOperator_operators (loose : bool) : looseOperator loose ∈ operators.
Proof. destruct loose; [right|]; left. Qed.

(** What [_getVersionFromNpmPackage] returns: a prefix and the value of a
    dist-tag, or a prefix and the greatest satisfying version. *)
Lemma selection_Done (json : npmPackageJson) (version : string) (loose : bool)
    (u : string) :
  _getVersionFromNpmPackage json version loose = Done u ->
  exists op m,
    u = op ++ m /\ truthy m = true /\ op ∈ operators /\
    (distTag json version = Some m \/
     (distTag json version = None /\
      exists vs, versions json = Some vs /\
                 maxSatisfying (map fst vs) (widen version loose) = Some m)).
Proof.
  unfold _getVersionFromNpmPackage.
  destruct (distTag json version) as [tagged|] eqn:Etag.
  - intros [= <-]. exists (looseOperator loose), tagged.
    split; [reflexivity|]. split; [|split; [apply looseOperator_operators | auto]].
    unfold distTag in Etag. destruct (distTags json); [|discriminate].
    unfold nonEmpty in Etag. destruct (lookupKey version d); [|discriminate].
    destruct (truthy s) eqn:Es; [|discriminate]. injection Etag as <-. exact Es.
  - destruct (validRange version); cbn [negb]; [|discriminate].
    destruct (versions json) as [vs|]; cbn [orThrow bind]; [|discriminate].
    destruct (maxSatisfying (map fst vs) (widen version loose)) as [m|] eqn:Em;
      cbn [nonEmpty]; [|discriminate].
    destruct (truthy m) eqn:Hm; [|discriminate].
    assert (Hfrom : exists vs0, Some vs = Some vs0 /\
                      maxSatisfying (map fst vs0) (widen version loose) = Some m)
      by eauto.
    destruct (String.eqb (widen version loose) "*").
    + intros [= <-]. exists EmptyString, m.
      split; [reflexivity|]. split; [exact Hm|]. split; [left | auto].
    + destruct (maybeOperator (widen version loose)) as [op|] eqn:Eop.
      * intros [= <-]. exists op, m.
        split; [reflexivity|]. split; [exact Hm|].
        split; [exact (maybeOperator_operators _ _ Eop) | auto].
      * intros [= <-]. exists (looseOperator loose), m.
        split; [reflexivity|]. split; [exact Hm|].
        split; [apply looseOperator_operators | auto].
Qed.
End SelectionResult.

Section NoDowngrade.
Context `{Semver} {V : Type}.

Variable versionOf : string -> option V.
Variable minOf : string -> option V.
Variable held : string -> Prop.
Variable le : V -> V -> Prop.
Hypothesis Hlaws : semverLaws versionOf minOf held le.

Variable pj : packageJson.
Variable loose : bool.
Variable reg : registry.
Hypothesis Hpj : flooredManifest versionOf minOf le pj.
Hypothesis Hreg : versionTags versionOf minOf reg.

Lemma notBelow_refl (a : string) (t : V) : minOf a = Some t -> notBelow minOf le a a.
Proof. intros Ha. exists t, t. repeat split; auto. apply (law_refl _ _ _ _ Hlaws). Qed.

Lemma notBelow_trans (a b c : string) :
  notBelow minOf le a b -> notBelow minOf le b c -> notBelow minOf le a c.
Proof.
  intros (ta & tb & Ha & Hb & Hab) (tb' & tc & Hb' & Hc & Hbc).
  rewrite Hb in Hb'. injection Hb' as <-.
  exists ta, tc. repeat split; auto. exact (law_trans _ _ _ _ Hlaws _ _ _ Hab Hbc).
Qed.

Lemma notBelow_intersect (a b r : string) :
  (held a /\ exists ta, minOf a = Some ta) -> (exists tb, minOf b = Some tb) ->
  intersect a b = Some r ->
  truthy r = true /\ (held r /\ exists tr, minOf r = Some tr) /\
  notBelow minOf le a r /\ notBelow minOf le b r.
Proof.
  intros [Hheld [ta Ha]] [tb Hb] Hr.
  destruct (law_intersect _ _ _ _ Hlaws a b r ta tb Hheld Ha Hb Hr)
    as (Ht & Hr' & tr & Htr & Hta & Htb).
  split; [exact Ht|]. split; [eauto|]. split; [exists ta, tr | exists tb, tr]; auto.
Qed.

Lemma declared_plain (p d : string) :
  (p, d) ∈ declaredEdges pj -> exists td, minOf d = Some td.
Proof. intros Hin. destruct (Hpj p d Hin) as (td & Hd & _). eauto. Qed.

Lemma prop_insert_eq (o : gmap string string) (p x : string) :
  truthy x = true -> prop (<[p := x]> o) p = Some x.
Proof. intros Hx. unfold prop. rewrite lookup_insert_eq, Hx. reflexivity. Qed.

Lemma prop_insert_ne (o : gmap string string) (p q x : string) :
  p <> q -> prop (<[p := x]> o) q = prop o q.
Proof. intros Hne. unfold prop. rewrite lookup_insert_ne by exact Hne. reflexivity. Qed.

Lemma asRequest_eta (e : request) : asRequest (version e) (depName e) (depVersion e) = e.
Proof. destruct e; reflexivity. Qed.

Lemma asRequest_inv (selector p d : string) (e : request) :
  asRequest selector p d = e -> selector = version e /\ p = depName e /\ d = depVersion e.
Proof. intros <-. auto. Qed.

Lemma pendingIn_cons (e0 : request) (todo : list request) (w : world) (e : request) :
  pendingIn (e0 :: todo) w e <-> e = e0 \/ pendingIn todo w e.
Proof.
  unfold pendingIn. rewrite elem_of_cons. tauto.
Qed.

Lemma pendingIn_client (todo : list request) (w w' : world) (e : request) :
  client w' = client w -> pendingIn todo w e -> pendingIn todo w' e.
Proof. unfold pendingIn, waitingIn. intros ->. auto. Qed.

Lemma elem_of_edgesOf (packages : gmap string string) (l : list (string * string))
    (e : request) :
  e ∈ edgesOf packages l <->
  (depName e, depVersion e) ∈ l /\ prop packages (depName e) = Some (version e).
Proof.
  unfold edgesOf. rewrite list_elem_of_omap. split.
  - intros ([p d] & Hin & E). simpl in E.
    destruct (prop packages p) as [selector|] eqn:Ep; [|discriminate].
    injection E as <-. simpl. auto.
  - intros [Hin Ep]. exists (depName e, depVersion e). split; [exact Hin|].
    simpl. rewrite Ep. f_equal. apply asRequest_eta.
Qed.

(** The update for a selector has a minimum, which is the version that
    [parseRange] reads from it; when the selector is itself a constraint
    with a minimum, the update is not below it. *)
Lemma updateFor_floor (p selector u : string) :
  updateFor reg loose p selector = Some u ->
  truthy u = true /\ held u /\
  exists tu,
    minOf u = Some tu /\
    (forall v, parseRangeVersion u = Some v -> versionOf v = Some tu) /\
    (forall ts, minOf selector = Some ts -> le ts tu).
Proof.
  unfold updateFor. destruct (answer reg (registryUrl p)) as [json|] eqn:Ea; [|discriminate].
  destruct (_getVersionFromNpmPackage json selector loose) as [u'| |] eqn:Es; try discriminate.
  destruct (versions json) as [vs|]; [|discriminate].
  destruct (nonEmpty _); [|discriminate]. intros [= <-].
  apply selection_Done in Es
    as (op & m & -> & Hm & Hop & [Htag|(Htag & vs' & _ & Hmax)]).
  - destruct (Hreg _ _ _ _ Ea Htag) as [[tm Htm] Hnone].
    split; [exact (truthy_app op m Hm)|].
    split; [exact (law_held _ _ _ _ Hlaws op m tm Hop Htm)|]. exists tm.
    split; [exact (law_prefixed _ _ _ _ Hlaws op m tm Hop Htm)|].
    split; [intros v Hv; exact (law_read _ _ _ _ Hlaws op m tm v Hop Htm Hv)|].
    intros ts Hts. congruence.
  - destruct (law_max _ _ _ _ Hlaws _ _ _ Hmax) as (tm & Htm & Hmin).
    split; [exact (truthy_app op m Hm)|].
    split; [exact (law_held _ _ _ _ Hlaws op m tm Hop Htm)|]. exists tm.
    split; [exact (law_prefixed _ _ _ _ Hlaws op m tm Hop Htm)|].
    split; [intros v Hv; exact (law_read _ _ _ _ Hlaws op m tm v Hop Htm Hv)|].
    intros ts Hts. apply Hmin. unfold widen.
    destruct (valid selector) eqn:Evalid; [|exact Hts].
    destruct loose; [|exact Hts]. cbn [andb].
    destruct (law_valid _ _ _ _ Hlaws selector Evalid) as [t' Ht'].
    pose proof (law_prefixed _ _ _ _ Hlaws EmptyString selector t'
                  (list_elem_of_here _ _) Ht') as Hexact.
    change (minOf selector = Some t') in Hexact.
    rewrite Hexact in Hts. injection Hts as <-.
    apply (law_prefixed _ _ _ _ Hlaws "~" selector t'); [right; left | exact Ht'].
Qed.

(** The update of a selector that is itself a declared constraint is not
    below it. *)
Lemma updateFor_selector (p selector u : string) :
  updateFor reg loose p selector = Some u ->
  (exists tu, minOf u = Some tu) /\
  ((exists ts, minOf selector = Some ts) -> notBelow minOf le selector u).
Proof.
  intros Hup. destruct (updateFor_floor _ _ _ Hup) as (_ & _ & tu & Htu & _ & Hsel).
  split; [eauto|]. intros [ts Hts]. exists ts, tu. auto.
Qed.

Lemma reachesMerge_updateFor (e : request) (json : npmPackageJson) (u : string)
    (inner : versionManifest) :
  answer reg (registryUrl (depName e)) = Body json ->
  reachesMerge loose e json u inner ->
  updateFor reg loose (depName e) (version e) = Some u /\
  (readAboveFloor versionOf minOf le (depVersion e) -> notBelow minOf le (depVersion e) u).
Proof.
  intros Ea (vs & matched & updateMin & declaredMin & Hsel & Hvs & Hmax & Hu & Hd & Hlt & _).
  assert (Hup : updateFor reg loose (depName e) (version e) = Some u).
  { unfold updateFor. rewrite Ea, Hsel, Hvs, Hmax. reflexivity. }
  split; [exact Hup|]. intros (td & Htd & Hread).
  destruct (updateFor_floor _ _ _ Hup) as (_ & _ & tu & Htu & Hreadu & _).
  destruct (law_lt _ _ _ _ Hlaws _ _ Hlt) as (ta & tb & Ha & Hb & Hle).
  rewrite (Hreadu _ Hu) in Ha. injection Ha as <-.
  exists td, tu. repeat split; auto.
  exact (law_trans _ _ _ _ Hlaws _ _ _ (Hread _ _ Hd Hb) Hle).
Qed.

(** *** Handling one pending edge *)

(** The edge [e] leaves the pending ones without a change of the world: it
    was skipped because its selector is the declared constraint, or no
    published version satisfies its update. *)
Lemma noDowngrade_drop (e : request) (todo : list request) (w : world) :
  noDowngrade minOf held le pj loose reg (e :: todo) w ->
  version e = depVersion e \/ updateFor reg loose (depName e) (version e) = None ->
  noDowngrade minOf held le pj loose reg todo w.
Proof.
  intros [Ha Ho Hd Hr Hs] Hwhy. split.
  - exact Ha.
  - exact Ho.
  - intros x Hx. apply Hd. apply pendingIn_cons. auto.
  - intros p r Hp. destruct (Hr p r Hp) as [Hplain Hdecl]. split; [exact Hplain|].
    intros d Hin. destruct (Hdecl d Hin) as [Hle|(selector & u & Hu & Hur & Hpend)]; [auto|].
    apply pendingIn_cons in Hpend as [E|Hpend]; [|right; eauto].
    apply asRequest_inv in E as (-> & -> & ->).
    destruct Hwhy as [E|Hnone]; [|congruence].
    left. destruct (updateFor_selector _ _ _ Hu) as [_ Hsel].
    eapply notBelow_trans; [|exact Hur]. rewrite <- E. apply Hsel.
    rewrite E. eapply declared_plain; eauto.
  - intros x Hx Hun Hup d Hin.
    destruct (Hs x (proj2 (pendingIn_cons _ _ _ _) (or_intror Hx)) Hun Hup d Hin)
      as [E|Hpend]; [auto|].
    apply pendingIn_cons in Hpend as [E|Hpend]; [|auto].
    apply asRequest_inv in E as (Ev & En & ->).
    destruct Hwhy as [E|Hnone]; [left; congruence|].
    destruct Hup as [u Hu]. congruence.
Qed.

(** The edge [e] leaves the pending ones with a new constraint [x] for its
    package: [x] is not below the declared constraint of [e], nor below
    what the accumulator held, nor, when it held nothing, below the update of
    the selector of [e]. *)
Lemma noDowngrade_update (e : request) (todo : list request) (w : world) (x : string) :
  noDowngrade minOf held le pj loose reg (e :: todo) w ->
  truthy x = true ->
  (held x /\ exists tx, minOf x = Some tx) ->
  notBelow minOf le (depVersion e) x ->
  (forall current, prop (allVersions w) (depName e) = Some current ->
                   notBelow minOf le current x) ->
  (prop (allVersions w) (depName e) = None ->
   exists u, updateFor reg loose (depName e) (version e) = Some u /\ notBelow minOf le u x) ->
  noDowngrade minOf held le pj loose reg todo (setAllVersions (depName e) x w).
Proof.
  intros [Ha Ho Hd Hr Hs] Htruthy Hx Hdx Hcur Hnew.
  assert (Hhead : pendingIn (e :: todo) w e) by (apply pendingIn_cons; auto).
  split.
  - exact Ha.
  - exact Ho.
  - intros y Hy. apply Hd. apply pendingIn_cons. right. exact Hy.
  - intros p r Hp. simpl in Hp. destruct (decide (depName e = p)) as [<-|Hne].
    + rewrite prop_insert_eq in Hp by exact Htruthy. injection Hp as <-.
      split; [eauto|]. intros d Hin.
      destruct (prop (allVersions w) (depName e)) as [current|] eqn:Ecur.
      * destruct (Hr _ _ Ecur) as [_ Hdecl].
        destruct (Hdecl d Hin) as [Hle|(selector & u & Hu & Hur & Hpend)].
        -- left. eapply notBelow_trans; eauto.
        -- apply pendingIn_cons in Hpend as [E|Hpend].
           ++ left. apply asRequest_inv in E as (_ & _ & ->). exact Hdx.
           ++ right. exists selector, u. repeat split; auto.
              eapply notBelow_trans; eauto.
      * destruct (Hnew eq_refl) as (u & Hu & Hux).
        destruct (Hs e Hhead Ecur (ex_intro _ u Hu) d Hin) as [E|Hpend].
        -- left. destruct (updateFor_selector _ _ _ Hu) as [_ Hsel].
           eapply notBelow_trans; [|exact Hux]. rewrite <- E. apply Hsel.
           rewrite E. eapply declared_plain; eauto.
        -- apply pendingIn_cons in Hpend as [E|Hpend].
           ++ left. apply asRequest_inv in E as (_ & _ & ->). exact Hdx.
           ++ right. exists (version e), u. auto.
    + rewrite prop_insert_ne in Hp by exact Hne.
      destruct (Hr p r Hp) as [Hplain Hdecl]. split; [exact Hplain|].
      intros d Hin. destruct (Hdecl d Hin) as [Hle|(selector & u & Hu & Hur & Hpend)]; [auto|].
      apply pendingIn_cons in Hpend as [E|Hpend];
        [apply asRequest_inv in E as (_ & E & _); congruence|].
      right. eauto 10.
  - intros y Hy Hun Hup d Hin. simpl in Hun.
    assert (Hne : depName e <> depName y).
    { intros E. rewrite <- E, prop_insert_eq in Hun by exact Htruthy. discriminate. }
    rewrite prop_insert_ne in Hun by exact Hne.
    destruct (Hs y (proj2 (pendingIn_cons _ _ _ _) (or_intror Hy)) Hun Hup d Hin)
      as [E|Hpend]; [auto|].
    apply pendingIn_cons in Hpend as [E|Hpend];
      [apply asRequest_inv in E as (_ & E & _); congruence | auto].
Qed.

(** *** Moving pending edges *)

(** The accumulator is the same and the same edges are pending. *)
Lemma noDowngrade_same (todo todo' : list request) (w w' : world) :
  allVersions w' = allVersions w ->
  answers reg (client w') ->
  (forall url s e, npmPackageJsonCache (client w') !! url = Some s -> e ∈ observers s ->
                   url = registryUrl (depName e)) ->
  (forall e, pendingIn todo' w' e <-> pendingIn todo w e) ->
  noDowngrade minOf held le pj loose reg todo w -> noDowngrade minOf held le pj loose reg todo' w'.
Proof.
  intros Hall Ha' Ho' Hsame [Ha Ho Hd Hr Hs]. split.
  - exact Ha'.
  - exact Ho'.
  - intros e He. apply Hd, Hsame, He.
  - intros p r Hp. rewrite Hall in Hp. destruct (Hr p r Hp) as [Hplain Hdecl].
    split; [exact Hplain|]. intros d Hin.
    destruct (Hdecl d Hin) as [Hle|(selector & u & Hu & Hur & Hpend)]; [auto|].
    right. exists selector, u. repeat split; auto. apply Hsame, Hpend.
  - intros e He Hun Hup d Hin. rewrite Hall in Hun. apply Hsame in He.
    destruct (Hs e He Hun Hup d Hin) as [E|Hpend]; [auto|].
    right. apply Hsame, Hpend.
Qed.

(** A call adds its edges to the pending ones. *)
Lemma noDowngrade_extend (packages : gmap string string) (todo : list request) (w : world) :
  noDowngrade minOf held le pj loose reg todo w ->
  noDowngrade minOf held le pj loose reg (edgesOf packages (declaredEdges pj) ++ todo) w.
Proof.
  intros [Ha Ho Hd Hr Hs].
  assert (Hweak : forall e, pendingIn todo w e ->
                            pendingIn (edgesOf packages (declaredEdges pj) ++ todo) w e).
  { intros e [He|He]; [left; apply elem_of_app; auto | right; exact He]. }
  split.
  - exact Ha.
  - exact Ho.
  - intros e [He|He].
    + apply elem_of_app in He as [He|He].
      * apply elem_of_edgesOf in He. tauto.
      * apply Hd. left. exact He.
    + apply Hd. right. exact He.
  - intros p r Hp. destruct (Hr p r Hp) as [Hplain Hdecl].
    split; [exact Hplain|]. intros d Hin.
    destruct (Hdecl d Hin) as [Hle|(selector & u & Hu & Hur & Hpend)]; [auto|].
    right. exists selector, u. auto.
  - intros e He Hun Hup d Hin.
    assert (Hcase : e ∈ edgesOf packages (declaredEdges pj) \/ pendingIn todo w e).
    { destruct He as [He|He]; [apply elem_of_app in He as [He|He]|].
      - auto.
      - right. left. exact He.
      - right. right. exact He. }
    destruct Hcase as [He'|He'].
    + right. left. apply elem_of_app. left.
      apply elem_of_edgesOf in He' as [_ Hp]. apply elem_of_edgesOf. simpl. auto.
    + destruct (Hs e He' Hun Hup d Hin) as [E|Hpend]; auto.
Qed.

(** [_getNpmPackageJson] leaves the pending edges as they are. *)
Lemma noDowngrade_call (p : string) (todo : list request) (w : world) :
  noDowngrade minOf held le pj loose reg todo w ->
  noDowngrade minOf held le pj loose reg todo (setClient (_getNpmPackageJson p (client w)).2 w).
Proof.
  intros Hinv. unfold _getNpmPackageJson.
  destruct (npmPackageJsonCache (client w) !! registryUrl p) as [s0|] eqn:E; simpl.
  - destruct w as [o c]. exact Hinv.
  - pose proof Hinv as [Ha Ho _ _ _].
    apply (noDowngrade_same todo todo w); simpl; auto.
    + intros url s resp Hl Hn. simpl in Hl.
      destruct (decide (registryUrl p = url)) as [<-|Hne].
      * rewrite lookup_insert_eq in Hl. injection Hl as <-. discriminate.
      * rewrite lookup_insert_ne in Hl by exact Hne. eauto.
    + intros url s e Hl He. simpl in Hl.
      destruct (decide (registryUrl p = url)) as [<-|Hne].
      * rewrite lookup_insert_eq in Hl. injection Hl as <-. simpl in He.
        apply elem_of_nil in He. contradiction.
      * rewrite lookup_insert_ne in Hl by exact Hne. eauto.
    + intros e. unfold pendingIn, waitingIn. simpl.
      split; (intros [He|(url & s & Hl & He)]; [left; exact He | right]).
      * destruct (decide (registryUrl p = url)) as [<-|Hne].
        -- rewrite lookup_insert_eq in Hl. injection Hl as <-. simpl in He.
           apply elem_of_nil in He. contradiction.
        -- rewrite lookup_insert_ne in Hl by exact Hne. eauto.
      * exists url, s. split; [|exact He].
        rewrite lookup_insert_ne; [exact Hl | congruence].
Qed.

(** A subscriber that waits is still pending. *)
Lemma noDowngrade_attach (e : request) (s : subject) (todo : list request) (w : world) :
  npmPackageJsonCache (client w) !! registryUrl (depName e) = Some s ->
  notified s = None ->
  noDowngrade minOf held le pj loose reg (e :: todo) w ->
  noDowngrade minOf held le pj loose reg todo (setClient (attach (registryUrl (depName e)) e (client w)) w).
Proof.
  intros Hl Hn Hinv. pose proof Hinv as [Ha Ho _ _ _].
  unfold attach. rewrite Hl.
  apply (noDowngrade_same (e :: todo) todo w); simpl; auto.
  - intros url s' resp Hl' Hn'. simpl in Hl'.
    destruct (decide (registryUrl (depName e) = url)) as [<-|Hne].
    + rewrite lookup_insert_eq in Hl'. injection Hl' as <-. simpl in Hn'. congruence.
    + rewrite lookup_insert_ne in Hl' by exact Hne. eauto.
  - intros url s' x Hl' Hx. simpl in Hl'.
    destruct (decide (registryUrl (depName e) = url)) as [<-|Hne].
    + rewrite lookup_insert_eq in Hl'. injection Hl' as <-. simpl in Hx.
      apply elem_of_app in Hx as [Hx|Hx]; [eauto|].
      apply list_elem_of_singleton in Hx as ->. reflexivity.
    + rewrite lookup_insert_ne in Hl' by exact Hne. eauto.
  - intros x. rewrite pendingIn_cons. unfold pendingIn, waitingIn. simpl. split.
    + intros [Hx|(url & s' & Hl' & Hx)]; [auto|].
      destruct (decide (registryUrl (depName e) = url)) as [<-|Hne].
      * rewrite lookup_insert_eq in Hl'. injection Hl' as <-. simpl in Hx.
        apply elem_of_app in Hx as [Hx|Hx]; [right; right; eauto|].
        apply list_elem_of_singleton in Hx as ->. auto.
      * rewrite lookup_insert_ne in Hl' by exact Hne. right. right. eauto.
    + intros [->|[Hx|(url & s' & Hl' & Hx)]]; [|auto|].
      * right. eexists _, _. rewrite lookup_insert_eq. split; [reflexivity|].
        simpl. apply elem_of_app. right. apply list_elem_of_singleton. reflexivity.
      * right. destruct (decide (registryUrl (depName e) = url)) as [<-|Hne].
        -- eexists _, _. rewrite lookup_insert_eq. split; [reflexivity|].
           simpl. apply elem_of_app. left. congruence.
        -- exists url, s'. rewrite lookup_insert_ne by exact Hne. auto.
Qed.

(** The subscribers that a response serves are to be handled. *)
Lemma noDowngrade_settle (url : string) (waiting todo : list request) (w : world) :
  inFlight (client w) url = Some waiting ->
  noDowngrade minOf held le pj loose reg todo w ->
  noDowngrade minOf held le pj loose reg (waiting ++ todo)
    (setClient (settle url (answer reg url) (client w)) w).
Proof.
  intros Hf Hinv. pose proof Hinv as [Ha Ho _ _ _].
  unfold inFlight in Hf.
  destruct (npmPackageJsonCache (client w) !! url) as [[[resp|] obs]|] eqn:Hl;
    try discriminate.
  injection Hf as ->.
  apply (noDowngrade_same todo (waiting ++ todo) w); simpl; auto.
  - intros url' s' resp Hl' Hn'. simpl in Hl'.
    destruct (decide (url = url')) as [<-|Hne].
    + rewrite lookup_insert_eq in Hl'. injection Hl' as <-. simpl in Hn'. congruence.
    + rewrite lookup_insert_ne in Hl' by exact Hne. eauto.
  - intros url' s' x Hl' Hx. simpl in Hl'.
    destruct (decide (url = url')) as [<-|Hne].
    + rewrite lookup_insert_eq in Hl'. injection Hl' as <-. simpl in Hx.
      apply elem_of_nil in Hx. contradiction.
    + rewrite lookup_insert_ne in Hl' by exact Hne. eauto.
  - intros x. unfold pendingIn, waitingIn. simpl. rewrite elem_of_app. split.
    + intros [[Hx|Hx]|(url' & s' & Hl' & Hx)].
      * right. eauto.
      * auto.
      * destruct (decide (url = url')) as [<-|Hne].
        -- rewrite lookup_insert_eq in Hl'. injection Hl' as <-. simpl in Hx.
           apply elem_of_nil in Hx. contradiction.
        -- rewrite lookup_insert_ne in Hl' by exact Hne. right. eauto.
    + intros [Hx|(url' & s' & Hl' & Hx)]; [auto|].
      destruct (decide (url = url')) as [<-|Hne].
      * rewrite Hl in Hl'. injection Hl' as <-. simpl in Hx. auto.
      * right. exists url', s'. rewrite lookup_insert_ne by exact Hne. auto.
Qed.

(** *** The stages keep the invariant *)

Section Stages.
Variable recurse : gmap string string -> world -> outcome world.

(** The recursive call handles its own edges. *)
Hypothesis Hrecurse :
  forall packages todo w w',
    recurse packages w = Done w' ->
    noDowngrade minOf held le pj loose reg (edgesOf packages (declaredEdges pj) ++ todo) w ->
    noDowngrade minOf held le pj loose reg todo w'.

Lemma recordUpdate_noDowngrade (e : request) (json : npmPackageJson)
    (todo : list request) (w w' : world) :
  answer reg (registryUrl (depName e)) = Body json ->
  noDowngrade minOf held le pj loose reg (e :: todo) w ->
  recordUpdate recurse loose e json w = Done w' ->
  noDowngrade minOf held le pj loose reg todo w'.
Proof.
  intros Ea Hinv Hrun.
  assert (Hdecl : readAboveFloor versionOf minOf le (depVersion e)).
  { apply (Hpj (depName e)). apply (kept_declared _ _ _ _ _ _ _ _ Hinv).
    apply pendingIn_cons. auto. }
  apply recordUpdate_Done in Hrun
    as [(u & vs & Hsel & Hvs & Hmax & ->)|(u & inner & w1 & Hreach & Hmerge & Hrec)].
  - apply (noDowngrade_drop e); [exact Hinv|]. right.
    unfold updateFor. rewrite Ea, Hsel, Hvs, Hmax. reflexivity.
  - destruct (reachesMerge_updateFor _ _ _ _ Ea Hreach) as [Hup Hfloor].
    specialize (Hfloor Hdecl).
    destruct (updateFor_floor _ _ _ Hup) as (Htruthy & Hheld & tu & Htu & _).
    apply (Hrecurse _ _ _ _ Hrec). apply noDowngrade_extend.
    apply mergeUpdate_Done in Hmerge
      as [[Hnone ->]|(current & merged & Hcur & _ & Hmerged & ->)].
    + apply noDowngrade_update; eauto.
      * intros current Hcur. congruence.
      * intros _. exists u. split; [exact Hup|]. eapply notBelow_refl; eauto.
    + destruct (kept_resolved _ _ _ _ _ _ _ _ Hinv _ _ Hcur) as [Hplain _].
      destruct (notBelow_intersect current u merged Hplain (ex_intro _ tu Htu) Hmerged)
        as (Htm & Hm & Hcm & Hum).
      apply noDowngrade_update; auto.
      * eapply notBelow_trans; eauto.
      * intros current' Hcur'. congruence.
      * intros Hnone. congruence.
Qed.

Lemma filterEdge_noDowngrade (packages : gmap string string) (p d : string)
    (todo : list request) (w w' : world) :
  (p, d) ∈ declaredEdges pj ->
  noDowngrade minOf held le pj loose reg (edgesOf packages [(p, d)] ++ todo) w ->
  filterEdge recurse loose packages (p, d) w = Done w' ->
  noDowngrade minOf held le pj loose reg todo w'.
Proof.
  intros Hin Hinv Hrun. unfold edgesOf in Hinv. simpl in Hinv.
  apply filterEdge_Done in Hrun
    as [[[Hp|Hp] ->]
       |[(selector & current & merged & Hp & Hne & Hcur & _ & Hmerged & ->)
        |(selector & Hp & Hne & _ & Hsub)]];
    rewrite Hp in Hinv; simpl in Hinv.
  - exact Hinv.
  - apply (noDowngrade_drop _ _ _ Hinv). left. reflexivity.
  - destruct (kept_resolved _ _ _ _ _ _ _ _ Hinv _ _ Hcur) as [Hplain _].
    destruct (notBelow_intersect current d merged Hplain (declared_plain _ _ Hin) Hmerged)
      as (Htm & Hm & Hcm & Hdm).
    apply (noDowngrade_update (asRequest selector p d)); auto.
    + intros current' Hcur'. simpl in Hcur'. congruence.
    + intros Hnone. simpl in Hnone. congruence.
  - apply (noDowngrade_call p) in Hinv.
    apply subscribe_Done in Hsub as (s & Hl & [(json & Hn & Hnext)|[Hn ->]]).
    + pose proof (kept_answers _ _ _ _ _ _ _ _ Hinv _ _ _ Hl Hn) as Ea.
      exact (recordUpdate_noDowngrade (asRequest selector p d) json todo _ w'
               (eq_sym Ea) Hinv Hnext).
    + exact (noDowngrade_attach (asRequest selector p d) s todo _ Hl Hn Hinv).
Qed.

Lemma forEach_filterEdge_noDowngrade (packages : gmap string string)
    (l : list (string * string)) :
  (forall edge, edge ∈ l -> edge ∈ declaredEdges pj) ->
  forall todo w w',
    noDowngrade minOf held le pj loose reg (edgesOf packages l ++ todo) w ->
    forEach (filterEdge recurse loose packages) l w = Done w' ->
    noDowngrade minOf held le pj loose reg todo w'.
Proof.
  induction l as [|[p d] l IH]; intros Hl todo w w' Hinv Hrun.
  - injection Hrun as <-. exact Hinv.
  - simpl in Hrun. apply bind_Done in Hrun as (w1 & Hedge & Hrest).
    apply (IH (fun edge Hin => Hl edge (list_elem_of_further _ _ _ Hin)) todo w1 w');
      [|exact Hrest].
    apply (filterEdge_noDowngrade packages p d _ w w1); [| |exact Hedge].
    + apply Hl. apply list_elem_of_here.
    + unfold edgesOf in *. simpl in *.
      destruct (prop packages p); exact Hinv.
Qed.

Lemma forEach_recordUpdate_noDowngrade (url : string) (json : npmPackageJson)
    (waiting : list request) :
  answer reg url = Body json ->
  (forall e, e ∈ waiting -> url = registryUrl (depName e)) ->
  forall todo w w',
    noDowngrade minOf held le pj loose reg (waiting ++ todo) w ->
    forEach (fun r => recordUpdate recurse loose r json) waiting w = Done w' ->
    noDowngrade minOf held le pj loose reg todo w'.
Proof.
  intros Ea. induction waiting as [|e waiting IH]; intros Hw todo w w' Hinv Hrun.
  - injection Hrun as <-. exact Hinv.
  - simpl in Hrun. apply bind_Done in Hrun as (w1 & Hedge & Hrest).
    apply (IH (fun x Hin => Hw x (list_elem_of_further _ _ _ Hin)) todo w1 w');
      [|exact Hrest].
    apply (recordUpdate_noDowngrade e json _ w w1); [|exact Hinv|exact Hedge].
    rewrite <- (Hw e (list_elem_of_here _ _)). exact Ea.
Qed.

Lemma respond_noDowngrade (url : string) (todo : list request) (w w' : world) :
  noDowngrade minOf held le pj loose reg todo w ->
  respond recurse loose url (answer reg url) w = Done w' ->
  noDowngrade minOf held le pj loose reg todo w'.
Proof.
  intros Hinv Hrun. unfold respond in Hrun.
  destruct (inFlight (client w) url) as [waiting|] eqn:Hf.
  - pose proof (noDowngrade_settle url waiting todo w Hf Hinv) as Hinv1.
    assert (Hw : forall e, e ∈ waiting -> url = registryUrl (depName e)).
    { intros e He. unfold inFlight in Hf.
      destruct (npmPackageJsonCache (client w) !! url) as [[[resp|] obs]|] eqn:Hl;
        try discriminate.
      injection Hf as ->. exact (kept_observers _ _ _ _ _ _ _ _ Hinv _ _ e Hl He). }
    destruct (answer reg url) as [json|] eqn:Ea.
    + exact (forEach_recordUpdate_noDowngrade url json waiting Ea Hw todo _ w' Hinv1 Hrun).
    + destruct waiting; [|discriminate]. injection Hrun as <-. exact Hinv1.
  - injection Hrun as <-. exact Hinv.
Qed.

Lemma deliver_noDowngrade (schedule : list string) :
  forall todo w w',
    noDowngrade minOf held le pj loose reg todo w ->
    deliver recurse loose reg schedule w = Done w' ->
    noDowngrade minOf held le pj loose reg todo w'.
Proof.
  induction schedule as [|url rest IH]; intros todo w w' Hinv Hrun.
  - injection Hrun as <-. exact Hinv.
  - simpl in Hrun. apply bind_Done in Hrun as (w1 & Hresp & Hrest).
    exact (IH todo w1 w' (respond_noDowngrade url todo w w1 Hinv Hresp) Hrest).
Qed.
End Stages.

Lemma walk_noDowngrade (fuel : nat) :
  forall packages todo w w',
    _getRecursiveVersions fuel pj packages w loose = Done w' ->
    noDowngrade minOf held le pj loose reg (edgesOf packages (declaredEdges pj) ++ todo) w ->
    noDowngrade minOf held le pj loose reg todo w'.
Proof.
  induction fuel as [|fuel IH]; intros packages todo w w' Hrun Hinv; [discriminate|].
  simpl in Hrun.
  exact (forEach_filterEdge_noDowngrade _ IH packages (declaredEdges pj)
           (fun edge Hin => Hin) todo w w' Hinv Hrun).
Qed.

Lemma freshRun_noDowngrade (c : registryClient) :
  answers reg c -> idle c -> noDowngrade minOf held le pj loose reg [] (freshRun c).
Proof.
  intros Ha Hidle.
  assert (Hnone : forall e, ~ pendingIn [] (freshRun c) e).
  { intros e [He|(url & s & Hl & He)].
    - apply elem_of_nil in He. exact He.
    - simpl in Hl. rewrite (Hidle _ _ Hl) in He. apply elem_of_nil in He. exact He. }
  split.
  - exact Ha.
  - intros url s e Hl He. simpl in Hl. rewrite (Hidle _ _ Hl) in He.
    apply elem_of_nil in He. contradiction.
  - intros e He. destruct (Hnone e He).
  - intros p r Hp. discriminate.
  - intros e He. destruct (Hnone e He).
Qed.

Lemma settled_not_waiting (w : world) (e : request) : settled w = true -> ~ waitingIn w e.
Proof.
  unfold settled. rewrite forallb_forall. intros Hs (url & s & Hl & He).
  apply elem_of_map_to_list in Hl. apply list_elem_of_In in Hl.
  specialize (Hs _ Hl). simpl in Hs.
  destruct (observers s); [|discriminate]. apply elem_of_nil in He. exact He.
Qed.

Lemma resolve_noDowngrade (fuel : nat) (packages : gmap string string)
    (schedule : list string) (c : registryClient) (w' : world) :
  answers reg c -> idle c ->
  resolve fuel pj packages loose reg schedule (freshRun c) = Done w' ->
  noDowngrade minOf held le pj loose reg [] w'.
Proof.
  intros Ha Hidle Hrun. unfold resolve in Hrun.
  apply bind_Done in Hrun as (w1 & Hwalk & Hdeliver).
  apply (deliver_noDowngrade _ (walk_noDowngrade fuel) schedule [] w1 w'); [|exact Hdeliver].
  apply (walk_noDowngrade fuel packages [] _ w1 Hwalk).
  apply noDowngrade_extend. apply freshRun_noDowngrade; assumption.
Qed.
End NoDowngrade.


(** *** The executable instance obeys the laws *)

Section NpmSemverLaws.
Import NpmSemver.

Lemma plainFloor_operators (op m : string) (t : triple) :
  op ∈ operators -> parseVersion m = Some t -> plainFloor (op ++ m) = Some t.
Proof.
  intros Hop Hm. apply parseVersion_inv in Hm. subst m.
  apply elem_of_cons in Hop as [->|Hop]; [apply plainFloor_exact|].
  apply elem_of_cons in Hop as [->|Hop]; [apply plainFloor_prefixed; reflexivity|].
  apply list_elem_of_singleton in Hop as ->. apply plainFloor_prefixed. reflexivity.
Qed.

Lemma plainFloor_satisfied (versions : list string) (r m : string) (tr : triple) :
  maxSatisfying' versions r = Some m -> plainFloor r = Some tr ->
  exists tm, parseVersion m = Some tm /\ versionLe tr tm.
Proof.
  intros Hmax Hr.
  apply maxSatisfying_sound in Hmax as (cs & tm & Hcs & Hm & Hsat).
  exists tm. split; [exact Hm|].
  destruct (plainFloor_comparators _ _ Hr) as [E|(hi & E & _)];
    rewrite E in Hcs; injection Hcs as <-; cbn [satisfiesAll forallb test] in Hsat.
  - rewrite andb_true_r in Hsat. apply eqVersion_spec in Hsat. subst tm.
    apply versionLe_refl.
  - apply andb_true_iff in Hsat as [Hsat _]. apply leVersion_spec. exact Hsat.
Qed.

Lemma npmSemver_laws :
  semverLaws parseVersion plainFloor (fun r => is_Some (plainFloor r)) versionLe.
Proof.
  split.
  - apply versionLe_refl.
  - intros a b c. apply versionLe_trans.
  - intros v. cbn [valid npmSemver]. destruct (parseVersion v); [eauto | discriminate].
  - apply plainFloor_operators.
  - intros op m t Hop Hm. rewrite (plainFloor_operators op m t Hop Hm). eauto.
  - intros op m t v Hop Hm. cbn [parseRangeVersion npmSemver].
    rewrite (parseRangeVersion_plain _ _ (plainFloor_operators op m t Hop Hm)).
    intros [= <-]. apply parseVersion_print.
  - intros a b. cbn [lt npmSemver]. unfold lt'.
    destruct (parseVersion a) as [ta|]; [|discriminate].
    destruct (parseVersion b) as [tb|]; [|discriminate].
    intros [= Hlt]. exists ta, tb. repeat split.
    intros Hab. apply ltVersion_spec in Hab. congruence.
  - intros vs r m. cbn [maxSatisfying npmSemver]. intros Hmax.
    pose proof Hmax as Hsound.
    apply maxSatisfying_sound in Hsound as (cs & tm & _ & Hm & _).
    exists tm. split; [exact Hm|]. intros tr Hr.
    destruct (plainFloor_satisfied vs r m tr Hmax Hr) as (tm' & Hm' & Hle).
    congruence.
  - intros a b r ta tb _ Ha Hb. cbn [intersect npmSemver]. intros Hr.
    destruct (floorLe_intersect a b r (ex_intro _ ta Ha) (ex_intro _ tb Hb) Hr)
      as (Htruthy & _ & (ta' & tr & Ha' & Htr & Hle) & (tb' & tr' & Hb' & Htr' & Hle')).
    split; [exact Htruthy|]. split; [rewrite Htr; eauto|].
    exists tr. split; [exact Htr|].
    split; congruence.
Qed.

Lemma plainManifest_floored (pj : packageJson) :
  plainManifest pj = true -> flooredManifest parseVersion plainFloor versionLe pj.
Proof.
  intros Hpj p d Hin. unfold plainManifest in Hpj. rewrite forallb_forall in Hpj.
  apply list_elem_of_In in Hin. specialize (Hpj _ Hin). cbn [snd] in Hpj.
  destruct (plainFloor d) as [td|] eqn:Hd; [|discriminate].
  exists td. split; [exact Hd|]. intros v tv. cbn [parseRangeVersion npmSemver].
  rewrite (parseRangeVersion_plain _ _ Hd). intros [= <-].
  rewrite parseVersion_print. intros [= <-]. apply versionLe_refl.
Qed.

Lemma plainRegistry_versionTags (reg : registry) :
  plainRegistry reg = true -> versionTags parseVersion plainFloor reg.
Proof.
  intros Hreg url json tag value Ha Htag.
  destruct (plainTags_tag _ _ _ (plainRegistry_answer _ _ _ Hreg Ha) Htag) as [Hnot [t ->]].
  split; [rewrite parseVersion_print; eauto|].
  destruct (plainFloor tag) as [ts|] eqn:Hs; [|reflexivity].
  destruct (plainFloor_comparators _ _ Hs) as [E|(hi & E & _)]; congruence.
Qed.
End NpmSemverLaws.

Section NoDowngradeScenarios.
Import NpmSemver Scenario.


End NoDowngradeScenarios.

(** * Further properties of the code *)

(** ** Selection of the updated constraint *)

Section SelectionOutcomes.
Context `{Semver}.

Lemma maybeOperator_Some (version op : string) :
  maybeOperator version = Some op -> op = "~" \/ op = "^".
Proof.
  destruct version as [|c rest]; simpl; [discriminate|].
  destruct (Ascii.eqb_spec c "~") as [->|_]; simpl.
  - intros [= <-]. auto.
  - destruct (Ascii.eqb_spec c "^") as [->|_]; [|discriminate].
    intros [= <-]. auto.
Qed.

Lemma nonEmpty_inv (o : option string) (s : string) :
  nonEmpty o = Some s -> o = Some s /\ truthy s = true.
Proof.
  destruct o as [s'|]; simpl; [|discriminate].
  destruct (truthy s') eqn:E; [|discriminate]. intros [= <-]. auto.
Qed.

(** X1.  For a selector that is not the name of an inherited member of
    objects, and a registry document that has its [versions],
    [_getVersionFromNpmPackage] (npm.js:25-53) throws in exactly two ways.
    It throws the invalid-range error, naming the selector, exactly when the
    selector is no dist-tag and no valid range.  It throws the
    no-satisfying-version error exactly when the selector is no dist-tag, is
    a valid range and no published version satisfies it; the error names the
    selector as widened by [~] under [loose], and the package. *)
Theorem selection_failure_modes (json : npmPackageJson) (version : string) (loose : bool)
    (vs : list (string * versionManifest)) (e : error) :
  version ∉ objectPrototypeKeys ->
  versions json = Some vs ->
  _getVersionFromNpmPackage json version loose = Throw e <->
  distTag json version = None /\
  ((validRange version = false /\ e = InvalidRangeOrVersion version) \/
   (validRange version = true /\
    nonEmpty (maxSatisfying (map fst vs) (widen version loose)) = None /\
    e = NoSatisfyingVersion (widen version loose) (name json))).
Proof.
  intros _ Hvs. unfold _getVersionFromNpmPackage. rewrite Hvs. simpl.
  destruct (distTag json version) as [tagged|].
  - split; [discriminate|]. intros [E _]. discriminate.
  - destruct (validRange version); simpl.
    + destruct (nonEmpty (maxSatisfying (map fst vs) (widen version loose)))
        as [m|] eqn:Em.
      * split.
        -- destruct (String.eqb (widen version loose) "*"); [discriminate|].
           destruct (maybeOperator (widen version loose)); discriminate.
        -- intros [_ [[E _]|(_ & E & _)]]; discriminate.
      * split.
        -- intros [= <-]. auto.
        -- intros [_ [[E _]|(_ & _ & ->)]]; [discriminate | reflexivity].
    + split.
      * intros [= <-]. auto.
      * intros [_ [[_ ->]|[E _]]]; [reflexivity | discriminate].
Qed.

(** X2.  For a selector that is not the name of an inherited member of
    objects, whatever [_getVersionFromNpmPackage] returns is a version
    string behind one of the three prefixes (none, [~], [^]); the version is
    the value of the dist-tag that the selector names, or else the greatest
    published version that satisfies the widened selector. *)
Theorem selection_shape (json : npmPackageJson) (version : string) (loose : bool)
    (u : string) :
  version ∉ objectPrototypeKeys ->
  _getVersionFromNpmPackage json version loose = Done u ->
  exists op m,
    u = op ++ m /\ truthy m = true /\
    (op = EmptyString \/ op = "~" \/ op = "^") /\
    (distTag json version = Some m \/
     (distTag json version = None /\
      exists vs, versions json = Some vs /\
                 maxSatisfying (map fst vs) (widen version loose) = Some m)).
Proof.
  intros _. unfold _getVersionFromNpmPackage.
  assert (Hloose : looseOperator loose = EmptyString \/ looseOperator loose = "~"
                   \/ looseOperator loose = "^").
  { destruct loose; simpl; auto. }
  destruct (distTag json version) as [tagged|] eqn:Etag.
  - intros [= <-]. exists (looseOperator loose), tagged. repeat split; auto.
    unfold distTag in Etag. destruct (distTags json); [|discriminate].
    apply nonEmpty_inv in Etag. tauto.
  - destruct (validRange version); simpl; [|discriminate].
    destruct (versions json) as [vs|]; simpl; [|discriminate].
    destruct (nonEmpty (maxSatisfying (map fst vs) (widen version loose)))
      as [m|] eqn:Em; [|discriminate].
    apply nonEmpty_inv in Em as [Em Hm].
    destruct (String.eqb (widen version loose) "*").
    + intros [= <-]. exists EmptyString, m.
      split; [reflexivity|]. split; [exact Hm|]. split; [auto|]. right. eauto.
    + destruct (maybeOperator (widen version loose)) as [op|] eqn:Eop.
      * intros [= <-]. exists op, m.
        split; [reflexivity|]. split; [exact Hm|]. split; [|right; eauto].
        destruct (maybeOperator_Some _ _ Eop); auto.
      * intros [= <-]. exists (looseOperator loose), m.
        split; [reflexivity|]. split; [exact Hm|]. split; [auto|]. right. eauto.
Qed.
End SelectionOutcomes.

(** ** The cache key of a package *)

Lemma append_inv_head (p a b : string) : (p ++ a = p ++ b -> a = b)%string.
Proof. induction p as [|c p IH]; simpl; [auto|]. intros [= E]. auto. Qed.

(** X3.  The name that [_getNpmPackageJson] puts in the url
    (npm.js:62) has no [/] left; a name without [/] is put there as it
    is, and escaping twice is escaping once. *)
Theorem escapeSlashes_no_slash (packageName : string) :
  hasChar "/" (escapeSlashes packageName) = false /\
  (hasChar "/" packageName = false -> escapeSlashes packageName = packageName) /\
  escapeSlashes (escapeSlashes packageName) = escapeSlashes packageName.
Proof.
  assert (Hno : forall s, hasChar "/" (escapeSlashes s) = false).
  { induction s as [|c s IH]; [reflexivity|]. cbn [escapeSlashes].
    destruct (Ascii.eqb_spec c "/") as [->|Hne].
    - simpl. exact IH.
    - cbn [hasChar]. rewrite IH.
      destruct (Ascii.eqb_spec "/"%char c); [congruence | reflexivity]. }
  assert (Hid : forall s, hasChar "/" s = false -> escapeSlashes s = s).
  { induction s as [|c s IH]; [reflexivity|]. cbn [hasChar escapeSlashes].
    intros E. apply orb_false_iff in E as [Ec Es].
    rewrite Ascii.eqb_sym, Ec. f_equal. auto. }
  auto.
Qed.

(** X4.  Two package names without [%] that [_getNpmPackageJson] maps
    to the same url are the same name: such packages never share an entry
    of the cache. *)
Theorem registryUrl_injective (p q : string) :
  hasChar "%" p = false -> hasChar "%" q = false ->
  registryUrl p = registryUrl q -> p = q.
Proof.
  intros Hp Hq E. apply append_inv_head in E.
  revert q Hp Hq E. induction p as [|c p IH]; intros [|d q] Hp Hq E.
  - reflexivity.
  - cbn [escapeSlashes] in E. destruct (Ascii.eqb d "/"); discriminate.
  - cbn [escapeSlashes] in E. destruct (Ascii.eqb c "/"); discriminate.
  - cbn [hasChar] in Hp, Hq. cbn [escapeSlashes] in E.
    apply orb_false_iff in Hp as [Hc Hp]. apply orb_false_iff in Hq as [Hd Hq].
    destruct (Ascii.eqb_spec c "/") as [->|Hc'];
      destruct (Ascii.eqb_spec d "/") as [->|Hd'].
    + f_equal. apply IH; auto. exact (append_inv_head _ _ _ E).
    + cbn in E. injection E as <- _. discriminate.
    + cbn in E. injection E as -> _. discriminate.
    + injection E as -> E. f_equal. apply IH; auto.
Qed.

(** ** Targets *)

Lemma anchorTargets_foldl (version n : string) (names : list string) :
  forall packages : gmap string string,
    foldl (fun packages name => <[name := version]> packages) packages names !! n =
    if bool_decide (n ∈ names) then Some version else packages !! n.
Proof.
  induction names as [|a names IH]; intros packages; cbn [foldl].
  - case_bool_decide as Hin; [apply elem_of_nil in Hin; contradiction | reflexivity].
  - rewrite IH. repeat case_bool_decide; try reflexivity.
    + exfalso. match goal with Hn : n ∉ a :: names |- _ => apply Hn end.
      right. assumption.
    + match goal with Hn : n ∈ a :: names |- _ =>
        apply elem_of_cons in Hn as [->|?]; [|contradiction] end.
      apply lookup_insert_eq.
    + apply lookup_insert_ne. intros ->.
      match goal with Hn : n ∉ n :: names |- _ => apply Hn end. left.
Qed.

(** X5.  The object [packages] that the first rule builds
    (npm.js:175-178) maps every supported package to the requested
    version and holds no other key. *)
Theorem anchorTargets_lookup (supportedPackages : list string) (version n : string) :
  anchorTargets supportedPackages version !! n =
  if bool_decide (n ∈ supportedPackages) then Some version else None.
Proof.
  unfold anchorTargets. rewrite anchorTargets_foldl, lookup_empty. reflexivity.
Qed.

Lemma lookupKey_None {A : Type} (k : string) (o : list (string * A)) :
  k ∉ map fst o -> lookupKey k o = None.
Proof.
  induction o as [|[k' v] o IH]; simpl; [reflexivity|]. intros Hnin.
  apply not_elem_of_cons in Hnin as [Hne Hnin].
  destruct (String.eqb_spec k k'); [contradiction | auto].
Qed.

Lemma peerTargets_foldl (q : string) (d : deps) :
  NoDup (map fst d) ->
  forall o : gmap string string,
    foldl (fun o e => <[e.1 := e.2]> o) o d !! q =
    match lookupKey q d with
    | Some v => Some v
    | None => o !! q
    end.
Proof.
  induction d as [|[k v] d IH]; intros Hnd o; simpl; [reflexivity|].
  apply NoDup_cons in Hnd as [Hk Hnd]. rewrite (IH Hnd).
  destruct (String.eqb_spec q k) as [->|Hne].
  - rewrite (lookupKey_None k d Hk), lookup_insert_eq. reflexivity.
  - rewrite lookup_insert_ne by congruence. reflexivity.
Qed.

(** X6.  The targets of the recursive call (npm.js:130-136) are the
    peer dependencies of the matched version, key by key. *)
Theorem peerTargets_copies_peers (inner : versionManifest) (d : deps) (q : string) :
  peerDependencies inner = Some d ->
  NoDup (map fst d) ->
  peerTargets inner !! q = lookupKey q d.
Proof.
  intros Hd Hnd. unfold peerTargets. rewrite Hd.
  rewrite (peerTargets_foldl q d Hnd), lookup_empty.
  destruct (lookupKey q d); reflexivity.
Qed.

(** ** The walk *)

Lemma forEach_invariant {A S : Type} (f : A -> S -> outcome S) (P : S -> Prop)
    (l : list A) :
  (forall a s s', a ∈ l -> f a s = Done s' -> P s -> P s') ->
  forall s s', forEach f l s = Done s' -> P s -> P s'.
Proof.
  intros Hf. apply (forEach_related f (fun s s' => P s -> P s')); auto.
Qed.

Section Walk.
Context `{Semver}.

Variable pj : packageJson.
Variable loose : bool.

Lemma walk_skips (fuel : nat) (packages : gmap string string) (w : world) :
  (forall p d, (p, d) ∈ declaredEdges pj ->
               prop packages p = None \/ prop packages p = Some d) ->
  _getRecursiveVersions (S fuel) pj packages w loose = Done w.
Proof.
  intros Hskip. cbn [_getRecursiveVersions].
  induction (declaredEdges pj) as [|[p d] l IH]; [reflexivity|].
  cbn [forEach]. unfold filterEdge at 1.
  destruct (Hskip p d (list_elem_of_here _ _)) as [E|E]; rewrite E.
  - apply IH. intros p' d' Hin. apply Hskip. right. exact Hin.
  - rewrite String.eqb_refl. apply IH. intros p' d' Hin. apply Hskip. right. exact Hin.
Qed.

(** X7.  The manifest declares no dependency under the name of an
    inherited member of objects.  Then a call of [_getRecursiveVersions] in
    which every declared package is no target, or is a target whose selector
    is the declared constraint itself (npm.js:111-113), completes at once:
    the accumulator and the registry client are as they were, and nothing is
    fetched. *)
Theorem walk_without_targets (fuel : nat) (packages : gmap string string) (w : world) :
  (forall p d, (p, d) ∈ declaredEdges pj -> p ∉ objectPrototypeKeys) ->
  (forall p d, (p, d) ∈ declaredEdges pj ->
               prop packages p = None \/ prop packages p = Some d) ->
  _getRecursiveVersions (S fuel) pj packages w loose = Done w.
Proof.
  intros _ Hskip. cbn [_getRecursiveVersions].
  assert (Hall : forall l : list (string * string),
             (forall edge, edge ∈ l -> edge ∈ declaredEdges pj) ->
             forEach (filterEdge (fun dependencies w' =>
                                    _getRecursiveVersions fuel pj dependencies w' loose)
                                 loose packages) l w = Done w).
  { induction l as [|[p d] l IH]; intros Hl; [reflexivity|].
    cbn [forEach]. unfold filterEdge at 1.
    destruct (Hskip p d (Hl _ (list_elem_of_here _ _))) as [E|E]; rewrite E.
    - apply IH. intros edge Hin. apply Hl. right. exact Hin.
    - rewrite String.eqb_refl. apply IH. intros edge Hin. apply Hl. right. exact Hin. }
  apply Hall. auto.
Qed.

(** X8.  On the fast path (npm.js:114-117) a declared edge whose
    package already has a compatible constraint in the accumulator stores
    the intersection and is done: the selector of the target, the registry
    and the peers are not consulted, and the registry client is as it
    was. *)
Theorem fast_path_needs_no_fetch
    (recurse : gmap string string -> world -> outcome world)
    (packages : gmap string string) (p d selector current merged : string) (w : world) :
  prop packages p = Some selector -> selector <> d ->
  prop (allVersions w) p = Some current ->
  intersects current d = Some true ->
  intersect current d = Some merged ->
  filterEdge recurse loose packages (p, d) w = Done (setAllVersions p merged w) /\
  client (setAllVersions p merged w) = client w.
Proof.
  intros Hp Hne Hcur Hcompat Hmerged. split; [|reflexivity].
  unfold filterEdge, narrowDeclared. rewrite Hp, Hcur, Hcompat, Hmerged.
  destruct (String.eqb_spec selector d); [contradiction | reflexivity].
Qed.

(** X9.  An edge that is fetched for a package whose url is already in
    the cache issues no request: a notified subject replays its response
    to the third stage at once, a failed one fails the run, and one in
    flight gets the edge as one more subscriber. *)
Theorem cached_subject_is_reused
    (recurse : gmap string string -> world -> outcome world)
    (packages : gmap string string) (p d selector : string) (w : world) (s : subject) :
  prop packages p = Some selector -> selector <> d ->
  narrowDeclared p d w = Done None ->
  npmPackageJsonCache (client w) !! registryUrl p = Some s ->
  _getNpmPackageJson p (client w) = (registryUrl p, client w) /\
  filterEdge recurse loose packages (p, d) w =
    match notified s with
    | Some (Body json) => recordUpdate recurse loose (asRequest selector p d) json w
    | Some Failure => Throw RegistryFailure
    | None => Done (setClient (attach (registryUrl p) (asRequest selector p d) (client w)) w)
    end.
Proof.
  intros Hp Hne Hnarrow Hs.
  assert (Hcall : _getNpmPackageJson p (client w) = (registryUrl p, client w)).
  { unfold _getNpmPackageJson. rewrite Hs. reflexivity. }
  split; [exact Hcall|].
  unfold filterEdge. rewrite Hp, Hnarrow, Hcall.
  destruct (String.eqb_spec selector d); [contradiction|].
  destruct w as [o c]. simpl in *. unfold subscribe, setClient. simpl. rewrite Hs. simpl.
  destruct (notified s) as [[json|]|]; reflexivity.
Qed.

(** *** Requests *)

Lemma requestsWithin_refl (w : world) : requestsWithin pj w w.
Proof. intros url Hurl. auto. Qed.

Lemma requestsWithin_trans (w1 w2 w3 : world) :
  requestsWithin pj w1 w2 -> requestsWithin pj w2 w3 -> requestsWithin pj w1 w3.
Proof.
  intros H12 H23 url Hurl. destruct (H23 url Hurl) as [Hin|Hdecl]; auto.
Qed.

Lemma requestsWithin_same (w w' : world) :
  requests (client w') = requests (client w) -> requestsWithin pj w w'.
Proof. intros E url Hurl. rewrite E in Hurl. auto. Qed.

Lemma recordUpdate_requests (recurse : gmap string string -> world -> outcome world)
    (r : request) (json : npmPackageJson) (w w' : world) :
  (forall d w1 w2, recurse d w1 = Done w2 -> requestsWithin pj w1 w2) ->
  recordUpdate recurse loose r json w = Done w' -> requestsWithin pj w w'.
Proof.
  intros Hrec Hrun.
  apply recordUpdate_Done in Hrun
    as [(u & vs & _ & _ & _ & ->)|(u & inner & w1 & _ & Hmerge & Hrun)].
  - apply requestsWithin_refl.
  - apply (requestsWithin_trans w w1 w'); [|eauto].
    apply requestsWithin_same. f_equal. eapply mergeUpdate_client; eauto.
Qed.

Lemma filterEdge_requests (recurse : gmap string string -> world -> outcome world)
    (packages : gmap string string) (p d : string) (w w' : world) :
  (forall d w1 w2, recurse d w1 = Done w2 -> requestsWithin pj w1 w2) ->
  (p, d) ∈ declaredEdges pj ->
  filterEdge recurse loose packages (p, d) w = Done w' -> requestsWithin pj w w'.
Proof.
  intros Hrec Hin Hrun.
  apply filterEdge_Done in Hrun
    as [[_ ->]|[(v & current & merged & _ & _ & _ & _ & _ & ->)|(v & _ & _ & _ & Hsub)]].
  - apply requestsWithin_refl.
  - apply requestsWithin_same. reflexivity.
  - apply (requestsWithin_trans w (setClient (_getNpmPackageJson p (client w)).2 w) w').
    + intros url Hurl. unfold _getNpmPackageJson in Hurl.
      destruct (npmPackageJsonCache (client w) !! registryUrl p); simpl in Hurl; [auto|].
      apply elem_of_cons in Hurl as [->|Hurl]; [|auto].
      right. exists p. split; [|reflexivity].
      unfold declaredNames. apply list_elem_of_fmap. exists (p, d). auto.
    + apply subscribe_Done in Hsub as (s & _ & [(json & _ & Hnext)|[_ ->]]).
      * exact (recordUpdate_requests recurse _ json _ w' Hrec Hnext).
      * apply requestsWithin_same. simpl. unfold attach.
        destruct (npmPackageJsonCache _ !! registryUrl p); reflexivity.
Qed.

Lemma walk_requests (fuel : nat) :
  forall packages w w',
    _getRecursiveVersions fuel pj packages w loose = Done w' -> requestsWithin pj w w'.
Proof.
  induction fuel as [|fuel IH]; intros packages w w' Hrun; [discriminate|].
  cbn [_getRecursiveVersions] in Hrun.
  revert w w' Hrun.
  apply (forEach_related _ (requestsWithin pj) requestsWithin_refl requestsWithin_trans).
  intros [p d] s s' Hin Hedge.
  exact (filterEdge_requests _ packages p d s s' IH Hin Hedge).
Qed.

Lemma respond_requests (recurse : gmap string string -> world -> outcome world)
    (url : string) (resp : response) (w w' : world) :
  (forall d w1 w2, recurse d w1 = Done w2 -> requestsWithin pj w1 w2) ->
  respond recurse loose url resp w = Done w' -> requestsWithin pj w w'.
Proof.
  intros Hrec Hrun. unfold respond in Hrun.
  destruct (inFlight (client w) url) as [waiting|].
  - apply (requestsWithin_trans w (setClient (settle url resp (client w)) w) w').
    + apply requestsWithin_same. reflexivity.
    + destruct resp as [json|].
      * revert Hrun.
        apply (forEach_related _ (requestsWithin pj) requestsWithin_refl
                 requestsWithin_trans).
        intros r s s' _ Hr. exact (recordUpdate_requests recurse r json s s' Hrec Hr).
      * destruct waiting; [|discriminate]. injection Hrun as <-.
        apply requestsWithin_refl.
  - injection Hrun as <-. apply requestsWithin_refl.
Qed.

(** X10.  A run fetches only packages that the root manifest declares:
    every request that it adds to the log is for the url of a declared
    name, whatever the targets and the peer dependencies found in the
    registry are. *)
Theorem run_fetches_declared_only (fuel : nat) (packages : gmap string string)
    (reg : registry) (schedule : list string) (w w' : world) :
  resolve fuel pj packages loose reg schedule w = Done w' ->
  forall url,
    url ∈ requests (client w') ->
    url ∈ requests (client w) \/
    exists p, p ∈ declaredNames pj /\ url = registryUrl p.
Proof.
  intros Hrun. unfold resolve in Hrun.
  apply bind_Done in Hrun as (w1 & Hwalk & Hdeliver).
  apply (requestsWithin_trans w w1 w'); [exact (walk_requests fuel packages w w1 Hwalk)|].
  clear Hwalk. revert w1 Hdeliver.
  induction schedule as [|url rest IH]; intros w1 Hdeliver.
  - injection Hdeliver as <-. apply requestsWithin_refl.
  - cbn [deliver] in Hdeliver. apply bind_Done in Hdeliver as (w2 & Hresp & Hrest).
    apply (requestsWithin_trans w1 w2 w'); [|exact (IH w2 Hrest)].
    exact (respond_requests _ url _ w1 w2 (walk_requests fuel) Hresp).
Qed.
End Walk.

(** *** The keys of the accumulator *)

Section Keys.
Context `{Semver}.

Variable pj : packageJson.
Variable loose : bool.

Lemma declaredNames_edge (p d : string) :
  (p, d) ∈ declaredEdges pj -> p ∈ declaredNames pj.
Proof. intros Hin. unfold declaredNames. apply list_elem_of_fmap. exists (p, d). auto. Qed.

Lemma setAllVersions_declaredOnly (p x : string) (w : world) :
  p ∈ declaredNames pj -> declaredOnly pj w -> declaredOnly pj (setAllVersions p x w).
Proof.
  intros Hp [Hkeys Hobs]. split; [|exact Hobs].
  intros q Hq. simpl in Hq. destruct (decide (p = q)) as [<-|Hne]; [exact Hp|].
  rewrite lookup_insert_ne in Hq by exact Hne. auto.
Qed.

Lemma recordUpdate_declaredOnly (recurse : gmap string string -> world -> outcome world)
    (r : request) (json : npmPackageJson) (w w' : world) :
  (forall d w1 w2, recurse d w1 = Done w2 -> declaredOnly pj w1 -> declaredOnly pj w2) ->
  depName r ∈ declaredNames pj ->
  recordUpdate recurse loose r json w = Done w' ->
  declaredOnly pj w -> declaredOnly pj w'.
Proof.
  intros Hrec Hr Hrun Hinv.
  apply recordUpdate_Done in Hrun
    as [(u & vs & _ & _ & _ & ->)|(u & inner & w1 & _ & Hmerge & Hrun)]; [exact Hinv|].
  apply (Hrec _ _ _ Hrun).
  apply mergeUpdate_Done in Hmerge as [[_ ->]|(current & merged & _ & _ & _ & ->)];
    apply setAllVersions_declaredOnly; assumption.
Qed.

Lemma call_declaredOnly (p : string) (w : world) :
  declaredOnly pj w -> declaredOnly pj (setClient (_getNpmPackageJson p (client w)).2 w).
Proof.
  intros [Hkeys Hobs]. split; [exact Hkeys|].
  intros url s e Hs He. simpl in Hs. unfold _getNpmPackageJson in Hs.
  destruct (npmPackageJsonCache (client w) !! registryUrl p); simpl in Hs; [eauto|].
  destruct (decide (registryUrl p = url)) as [<-|Hne].
  - rewrite lookup_insert_eq in Hs. injection Hs as <-. simpl in He.
    apply elem_of_nil in He. contradiction.
  - rewrite lookup_insert_ne in Hs by exact Hne. eauto.
Qed.

Lemma attach_declaredOnly (url : string) (r : request) (w : world) :
  depName r ∈ declaredNames pj ->
  declaredOnly pj w -> declaredOnly pj (setClient (attach url r (client w)) w).
Proof.
  intros Hr [Hkeys Hobs]. split; [exact Hkeys|].
  intros url' s e Hs He. simpl in Hs. unfold attach in Hs.
  destruct (npmPackageJsonCache (client w) !! url) as [s0|] eqn:Es0; [|eauto].
  simpl in Hs. destruct (decide (url = url')) as [<-|Hne].
  - rewrite lookup_insert_eq in Hs. injection Hs as <-. simpl in He.
    apply elem_of_app in He as [He|He]; [eauto|].
    apply list_elem_of_singleton in He as ->. exact Hr.
  - rewrite lookup_insert_ne in Hs by exact Hne. eauto.
Qed.

Lemma filterEdge_declaredOnly (recurse : gmap string string -> world -> outcome world)
    (packages : gmap string string) (p d : string) (w w' : world) :
  (forall d w1 w2, recurse d w1 = Done w2 -> declaredOnly pj w1 -> declaredOnly pj w2) ->
  (p, d) ∈ declaredEdges pj ->
  filterEdge recurse loose packages (p, d) w = Done w' ->
  declaredOnly pj w -> declaredOnly pj w'.
Proof.
  intros Hrec Hin Hrun Hinv. pose proof (declaredNames_edge p d Hin) as Hp.
  apply filterEdge_Done in Hrun
    as [[_ ->]|[(v & current & merged & _ & _ & _ & _ & _ & ->)|(v & _ & _ & _ & Hsub)]].
  - exact Hinv.
  - apply setAllVersions_declaredOnly; assumption.
  - apply (call_declaredOnly p) in Hinv.
    apply subscribe_Done in Hsub as (s & _ & [(json & _ & Hnext)|[_ ->]]).
    + exact (recordUpdate_declaredOnly recurse (asRequest v p d) json _ w' Hrec Hp
               Hnext Hinv).
    + apply attach_declaredOnly; assumption.
Qed.

Lemma walk_declaredOnly (fuel : nat) :
  forall packages w w',
    _getRecursiveVersions fuel pj packages w loose = Done w' ->
    declaredOnly pj w -> declaredOnly pj w'.
Proof.
  induction fuel as [|fuel IH]; intros packages w w' Hrun; [discriminate|].
  cbn [_getRecursiveVersions] in Hrun. revert w w' Hrun.
  apply forEach_invariant. intros [p d] s s' Hin Hedge.
  exact (filterEdge_declaredOnly _ packages p d s s' IH Hin Hedge).
Qed.

Lemma respond_declaredOnly (recurse : gmap string string -> world -> outcome world)
    (url : string) (resp : response) (w w' : world) :
  (forall d w1 w2, recurse d w1 = Done w2 -> declaredOnly pj w1 -> declaredOnly pj w2) ->
  respond recurse loose url resp w = Done w' ->
  declaredOnly pj w -> declaredOnly pj w'.
Proof.
  intros Hrec Hrun Hinv. unfold respond in Hrun.
  destruct (inFlight (client w) url) as [waiting|] eqn:Hf;
    [|injection Hrun as <-; exact Hinv].
  assert (Hwaiting : forall r, r ∈ waiting -> depName r ∈ declaredNames pj).
  { intros r Hr. unfold inFlight in Hf.
    destruct (npmPackageJsonCache (client w) !! url) as [[[resp0|] obs]|] eqn:Hs;
      try discriminate.
    injection Hf as ->. exact (proj2 Hinv _ _ r Hs Hr). }
  assert (Hinv1 : declaredOnly pj (setClient (settle url resp (client w)) w)).
  { destruct Hinv as [Hkeys Hobs]. split; [exact Hkeys|].
    intros url' s e Hs He. simpl in Hs.
    destruct (decide (url = url')) as [<-|Hne].
    - rewrite lookup_insert_eq in Hs. injection Hs as <-. simpl in He.
      apply elem_of_nil in He. contradiction.
    - rewrite lookup_insert_ne in Hs by exact Hne. eauto. }
  destruct resp as [json|].
  - revert Hrun Hinv1. apply forEach_invariant. intros r s s' Hr Hnext.
    exact (recordUpdate_declaredOnly recurse r json s s' Hrec (Hwaiting r Hr) Hnext).
  - destruct waiting; [|discriminate]. injection Hrun as <-. exact Hinv1.
Qed.

Lemma resolve_declaredOnly (fuel : nat) (packages : gmap string string)
    (reg : registry) (schedule : list string) (w w' : world) :
  resolve fuel pj packages loose reg schedule w = Done w' ->
  declaredOnly pj w -> declaredOnly pj w'.
Proof.
  intros Hrun Hinv. unfold resolve in Hrun.
  apply bind_Done in Hrun as (w1 & Hwalk & Hdeliver).
  apply (walk_declaredOnly fuel packages w w1 Hwalk) in Hinv. clear Hwalk.
  revert w1 Hdeliver Hinv.
  induction schedule as [|url rest IH]; intros w1 Hdeliver Hinv.
  - injection Hdeliver as <-. exact Hinv.
  - cbn [deliver] in Hdeliver. apply bind_Done in Hdeliver as (w2 & Hresp & Hrest).
    apply (IH w2 Hrest).
    exact (respond_declaredOnly _ url _ w1 w2 (walk_declaredOnly fuel) Hresp Hinv).
Qed.

(** X11.  A run that starts with no subscriber waiting in the registry
    client updates only packages of the root manifest, as the comment of
    [_getRecursiveVersions] says (npm.js:89-90): every key of the
    accumulator at the end is a name that the manifest declares, whatever
    the targets and the peer dependencies found in the registry are. *)
Theorem run_updates_declared_only (fuel : nat) (packages : gmap string string)
    (reg : registry) (schedule : list string) (c : registryClient) (w' : world)
    (q : string) :
  idle c ->
  resolve fuel pj packages loose reg schedule (freshRun c) = Done w' ->
  is_Some (allVersions w' !! q) ->
  q ∈ declaredNames pj.
Proof.
  intros Hidle Hrun. apply (resolve_declaredOnly _ _ _ _ _ _ Hrun). split.
  - intros q' Hq'. simpl in Hq'. rewrite lookup_empty in Hq'.
    destruct Hq' as [x Hx]. discriminate.
  - intros url s e Hs He. simpl in Hs. rewrite (Hidle _ _ Hs) in He.
    apply elem_of_nil in He. contradiction.
Qed.
End Keys.

(** ** The rewritten manifest *)

Lemma overwriteDeps_names (o : gmap string string) (d : deps) :
  map fst (overwriteDeps o d) = map fst d.
Proof.
  unfold overwriteDeps. induction d as [|[k v] d IH]; [reflexivity|].
  cbn [map fst]. rewrite IH. destruct (prop o k); reflexivity.
Qed.

Lemma overwriteDeps_lookup (o : gmap string string) (d : deps) (p : string) :
  lookupKey p (overwriteDeps o d) =
  match lookupKey p d with
  | Some v => Some (match prop o p with Some constraint => constraint | None => v end)
  | None => None
  end.
Proof.
  unfold overwriteDeps. induction d as [|[k v] d IH]; [reflexivity|].
  cbn [map fst snd lookupKey].
  destruct (prop o k) as [c|] eqn:Ek; cbn [lookupKey];
    (destruct (String.eqb_spec p k) as [->|Hne]; [rewrite Ek; reflexivity | exact IH]).
Qed.

Lemma applyVersions_lookupKey (o : gmap string string) (pj : packageJson)
    (field : string) :
  lookupKey field (applyVersions o pj) =
  match lookupKey field pj with
  | Some d => Some (if bool_decide (field ∈ kPackageJsonDependencyFields)
                    then overwriteDeps o d else d)
  | None => None
  end.
Proof.
  unfold applyVersions. induction pj as [|[f d] pj IH]; [reflexivity|].
  cbn [map fst snd lookupKey].
  destruct (bool_decide (f ∈ kPackageJsonDependencyFields)) eqn:Ef; cbn [lookupKey];
    (destruct (String.eqb_spec field f) as [->|Hne]; [rewrite Ef; reflexivity | exact IH]).
Qed.

(** X12.  The second rule (npm.js:190-200) adds, removes, renames and
    reorders nothing: the rewritten manifest has the fields of the one
    read, in order, every field has the dependency names it had, in order,
    and a field that is not one of the four dependency fields has the value
    it had. *)
Theorem applyVersions_keeps_names (o : gmap string string) (pj : packageJson)
    (field : string) :
  map fst (applyVersions o pj) = map fst pj /\
  option_map (map fst) (lookupKey field (applyVersions o pj))
    = option_map (map fst) (lookupKey field pj) /\
  (if bool_decide (field ∈ kPackageJsonDependencyFields) then True
   else lookupKey field (applyVersions o pj) = lookupKey field pj).
Proof.
  split; [|split].
  - unfold applyVersions. induction pj as [|[f d] pj IH]; [reflexivity|].
    cbn [map fst]. rewrite IH. destruct (bool_decide _); reflexivity.
  - rewrite applyVersions_lookupKey. destruct (lookupKey field pj) as [d|]; [|reflexivity].
    cbn [option_map]. destruct (bool_decide _); [|reflexivity].
    rewrite overwriteDeps_names. reflexivity.
  - destruct (bool_decide (field ∈ kPackageJsonDependencyFields)) eqn:Ef; [exact I|].
    rewrite applyVersions_lookupKey, Ef. destruct (lookupKey field pj); reflexivity.
Qed.

(** X13.  Reading a dependency of a dependency field back from the
    rewritten manifest gives the constraint that the accumulator holds for
    its name when it holds a truthy one, and the constraint that the
    manifest had otherwise. *)
Theorem applyVersions_lookup (o : gmap string string) (pj : packageJson)
    (field p v : string) (d : deps) :
  field ∈ kPackageJsonDependencyFields ->
  lookupKey field pj = Some d ->
  lookupKey p d = Some v ->
  exists d',
    lookupKey field (applyVersions o pj) = Some d' /\
    lookupKey p d' = Some (match prop o p with
                           | Some constraint => constraint
                           | None => v
                           end).
Proof.
  intros Hfield Hd Hv. exists (overwriteDeps o d). split.
  - rewrite applyVersions_lookupKey, Hd, bool_decide_eq_true_2 by exact Hfield.
    reflexivity.
  - rewrite overwriteDeps_lookup, Hv. reflexivity.
Qed.

Lemma applyVersions_none (o : gmap string string) (pj : packageJson) :
  (forall field d p v, (field, d) ∈ pj -> (p, v) ∈ d -> prop o p = None) ->
  applyVersions o pj = pj.
Proof.
  intros Hnone.
  assert (Hdeps : forall d : deps,
             (forall p v, (p, v) ∈ d -> prop o p = None) -> overwriteDeps o d = d).
  { unfold overwriteDeps. induction d as [|[k v] d IH]; intros Hd; [reflexivity|].
    cbn [map fst]. rewrite (Hd k v (list_elem_of_here _ _)). f_equal.
    apply IH. intros p' v' Hin. apply (Hd p' v'). right. exact Hin. }
  unfold applyVersions. induction pj as [|[f d] pj IH]; [reflexivity|].
  cbn [map fst snd]. f_equal.
  - destruct (bool_decide _); [|reflexivity]. f_equal. apply Hdeps.
    intros p v Hin. exact (Hnone f d p v (list_elem_of_here _ _) Hin).
  - apply IH. intros f' d' p v Hin. apply (Hnone f' d' p v). right. exact Hin.
Qed.

(** X14.  When the accumulator holds no truthy constraint for any
    dependency name of the manifest, the second rule writes the manifest
    back as it was read. *)
Theorem applyVersions_unresolved (o : gmap string string) (pj : packageJson) :
  (forall field d p v, (field, d) ∈ pj -> (p, v) ∈ d -> prop o p = None) ->
  applyVersions o pj = pj.
Proof.
  intros Hnone. unfold applyVersions.
  induction pj as [|[f d] pj IH]; [reflexivity|].
  cbn [map fst snd]. f_equal.
  - destruct (bool_decide _); [|reflexivity]. f_equal.
    assert (Hd : forall p v, (p, v) ∈ d -> prop o p = None).
    { intros p v Hin. exact (Hnone f d p v (list_elem_of_here _ _) Hin). }
    clear Hnone IH. unfold overwriteDeps.
    induction d as [|[k v] d IHd]; [reflexivity|].
    cbn [map fst]. rewrite (Hd k v (list_elem_of_here _ _)). f_equal.
    apply IHd. intros p' v' Hin. apply (Hd p' v'). right. exact Hin.
  - apply IH. intros f' d' p v Hin. apply (Hnone f' d' p v). right. exact Hin.
Qed.

(** X15.  Applying the accumulator twice is applying it once: the second
    rule run again on its own output, with the same accumulator, writes the
    same manifest. *)
Theorem applyVersions_idempotent (o : gmap string string) (pj : packageJson) :
  applyVersions o (applyVersions o pj) = applyVersions o pj.
Proof.
  assert (Hdeps : forall d : deps, overwriteDeps o (overwriteDeps o d) = overwriteDeps o d).
  { unfold overwriteDeps. induction d as [|[k v] d IH]; [reflexivity|].
    cbn [map fst snd]. rewrite IH.
    destruct (prop o k) as [c|] eqn:Ek; cbn [fst snd]; rewrite Ek; reflexivity. }
  unfold applyVersions. induction pj as [|[f d] pj IH]; [reflexivity|].
  cbn [map fst snd]. rewrite IH.
  destruct (bool_decide (f ∈ kPackageJsonDependencyFields)) eqn:Ef;
    cbn [fst snd]; rewrite Ef; [rewrite Hdeps|]; reflexivity.
Qed.

(** ** The errors of the resolution *)

Lemma bind_found {A B : Type} (m : outcome A) (k : A -> outcome B) :
  m <> Throw CouldNotFindPackageJson ->
  (forall a, k a <> Throw CouldNotFindPackageJson) ->
  bind m k <> Throw CouldNotFindPackageJson.
Proof.
  intros Hm Hk. destruct m as [a|e|]; cbn [bind]; [apply Hk | | discriminate].
  intros [= ->]. apply Hm. reflexivity.
Qed.

Lemma orThrow_found {A : Type} (o : option A) : orThrow o <> Throw CouldNotFindPackageJson.
Proof. destruct o; discriminate. Qed.

Lemma forEach_found {A S : Type} (f : A -> S -> outcome S) (l : list A) :
  (forall a s, f a s <> Throw CouldNotFindPackageJson) ->
  forall s, forEach f l s <> Throw CouldNotFindPackageJson.
Proof.
  intros Hf. induction l as [|a l IH]; intros s; cbn [forEach]; [discriminate|].
  apply bind_found; auto.
Qed.

Section Found.
Context `{Semver}.

Local Ltac found :=
  repeat first
    [ discriminate
    | apply orThrow_found
    | apply bind_found; [|intros ?]
    | match goal with
      | |- context [match ?x with _ => _ end] => destruct x
      | |- context [if ?x then _ else _] => destruct x
      end ].

Lemma selection_found (json : npmPackageJson) (version : string) (loose : bool) :
  _getVersionFromNpmPackage json version loose <> Throw CouldNotFindPackageJson.
Proof. unfold _getVersionFromNpmPackage. found. Qed.

Lemma mergeUpdate_found (depName updateVersion : string) (w : world) :
  mergeUpdate depName updateVersion w <> Throw CouldNotFindPackageJson.
Proof. unfold mergeUpdate. found. Qed.

Lemma recordUpdate_found (recurse : gmap string string -> world -> outcome world)
    (loose : bool) (r : request) (json : npmPackageJson) (w : world) :
  (forall d w', recurse d w' <> Throw CouldNotFindPackageJson) ->
  recordUpdate recurse loose r json w <> Throw CouldNotFindPackageJson.
Proof.
  intros Hrec. unfold recordUpdate.
  apply bind_found; [apply selection_found|]. intros u.
  apply bind_found; [apply orThrow_found|]. intros vs.
  destruct (nonEmpty _); [|discriminate].
  apply bind_found; [apply orThrow_found|]. intros updateMin.
  apply bind_found; [apply orThrow_found|]. intros declaredMin.
  apply bind_found; [apply orThrow_found|]. intros downgrade.
  destruct downgrade; [discriminate|].
  apply bind_found; [apply orThrow_found|]. intros inner.
  apply bind_found; [apply mergeUpdate_found|]. intros w'. apply Hrec.
Qed.

Lemma filterEdge_found (recurse : gmap string string -> world -> outcome world)
    (loose : bool) (packages : gmap string string) (edge : string * string) (w : world) :
  (forall d w', recurse d w' <> Throw CouldNotFindPackageJson) ->
  filterEdge recurse loose packages edge w <> Throw CouldNotFindPackageJson.
Proof.
  intros Hrec. destruct edge as [p d]. unfold filterEdge.
  destruct (prop packages p) as [selector|]; [|discriminate].
  destruct (String.eqb selector d); [discriminate|].
  apply bind_found; [unfold narrowDeclared; found|]. intros [w'|]; [discriminate|].
  destruct (_getNpmPackageJson p (client w)) as [url c]. unfold subscribe.
  apply bind_found; [apply orThrow_found|]. intros s.
  destruct (notified s) as [[json|]|]; [|discriminate..].
  apply recordUpdate_found. exact Hrec.
Qed.

Lemma walk_found (fuel : nat) (pj : packageJson) (loose : bool) :
  forall packages w,
    _getRecursiveVersions fuel pj packages w loose <> Throw CouldNotFindPackageJson.
Proof.
  induction fuel as [|fuel IH]; intros packages w; cbn [_getRecursiveVersions];
    [discriminate|].
  apply forEach_found. intros edge s. apply filterEdge_found. apply IH.
Qed.

Lemma resolve_found (fuel : nat) (pj : packageJson) (packages : gmap string string)
    (loose : bool) (reg : registry) (schedule : list string) (w : world) :
  resolve fuel pj packages loose reg schedule w <> Throw CouldNotFindPackageJson.
Proof.
  unfold resolve. apply bind_found; [apply walk_found|]. intros w1.
  revert w1. induction schedule as [|url rest IH]; intros w1; cbn [deliver];
    [discriminate|].
  apply bind_found; [|exact IH]. unfold respond.
  destruct (inFlight (client w1) url) as [waiting|]; [|discriminate].
  destruct (answer reg url) as [json|].
  - apply forEach_found. intros r s. apply recordUpdate_found. apply walk_found.
  - destruct waiting; discriminate.
Qed.
End Found.

(** ** The rule chain *)

Section Chain.
Context `{Semver}.

Variable parseJson : string -> option packageJson.
Variable stringify : packageJson -> string.

(** X16.  When the chain has applied, the manifest in the tree was read
    and parsed, the resolution has completed with every subscriber served,
    [/package.json] holds the manifest with the resolved constraints, no
    other file of the tree has changed, and the install task is the one
    task added. *)
Theorem applied_run_writes_manifest_only (supportedPackages : list string)
    (maybeVersion : option string) (loose : bool) (fuel : nat) (reg : registry)
    (schedule : list string) (c : registryClient) (h h' : host) :
  updatePackageJson parseJson stringify supportedPackages maybeVersion loose
    fuel reg schedule c h = (h', Applied) ->
  exists content pj w',
    tree h !! "/package.json" = Some content /\
    parseJson content = Some pj /\
    resolve fuel pj (anchorTargets supportedPackages (requestedVersion maybeVersion))
      loose reg schedule (freshRun c) = Done w' /\
    settled w' = true /\
    tree h' !! "/package.json" = Some (stringify (applyVersions (allVersions w') pj)) /\
    (forall path, path <> "/package.json" -> tree h' !! path = tree h !! path) /\
    tasks h' = (tasks h ++ ["NodePackageInstallTask"])%list.
Proof.
  unfold updatePackageJson, resolveRule, overwriteRule, readPackageJson.
  destruct (tree h !! "/package.json") as [content|] eqn:Hread; cbn [bind];
    [|discriminate].
  destruct (parseJson content) as [pj|] eqn:Hparse; cbn [bind]; [|discriminate].
  destruct (resolve _ _ _ _ _ _ _) as [w'| |] eqn:Hrun; try discriminate.
  destruct (settled w') eqn:Hsettled; [|discriminate].
  intros [= <-]. exists content, pj, w'.
  split; [reflexivity|]. split; [exact Hparse|]. split; [exact Hrun|].
  split; [exact Hsettled|]. cbn [installRule tree tasks]. split; [|split].
  - apply lookup_insert_eq.
  - intros path Hpath. apply lookup_insert_ne. congruence.
  - reflexivity.
Qed.

(** X17.  Unless the chain has applied, the host is as it was: nothing
    is written to the tree and no task is added, whether the resolution has
    failed, waits for responses or has run out of fuel. *)
Theorem host_unchanged_unless_applied (supportedPackages : list string)
    (maybeVersion : option string) (loose : bool) (fuel : nat) (reg : registry)
    (schedule : list string) (c : registryClient) (h : host) :
  (updatePackageJson parseJson stringify supportedPackages maybeVersion loose
     fuel reg schedule c h).2 <> Applied ->
  (updatePackageJson parseJson stringify supportedPackages maybeVersion loose
     fuel reg schedule c h).1 = h.
Proof.
  unfold updatePackageJson.
  destruct (resolveRule _ _ _ _ _ _ _ _ _) as [w'| |]; try reflexivity.
  destruct (settled w'); [|reflexivity].
  destruct (overwriteRule _ _ _) as [h'| |]; [|reflexivity..].
  intros Hne. exfalso. apply Hne. reflexivity.
Qed.

(** X18.  The chain fails with the could-not-find error exactly when
    the tree has no [/package.json]; the resolution itself never throws that
    error.  The host is then as it was. *)
Theorem missing_manifest_fails (supportedPackages : list string)
    (maybeVersion : option string) (loose : bool) (fuel : nat) (reg : registry)
    (schedule : list string) (c : registryClient) (h : host) :
  updatePackageJson parseJson stringify supportedPackages maybeVersion loose
    fuel reg schedule c h = (h, Failed CouldNotFindPackageJson)
  <-> tree h !! "/package.json" = None.
Proof.
  unfold updatePackageJson, resolveRule, overwriteRule, readPackageJson.
  destruct (tree h !! "/package.json") as [content|]; cbn [bind].
  - split; [|discriminate]. intros Hfail. exfalso.
    destruct (parseJson content) as [pj|]; cbn [bind] in Hfail; [|discriminate].
    pose proof (resolve_found fuel pj
                  (anchorTargets supportedPackages (requestedVersion maybeVersion))
                  loose reg schedule (freshRun c)) as Hfound.
    destruct (resolve _ _ _ _ _ _ _) as [w'|e|]; [| |discriminate].
    + destruct (settled w'); discriminate.
    + injection Hfail as ->. apply Hfound. reflexivity.
  - split; reflexivity.
Qed.

(** X19.  The manifest declares no dependency under the name of an
    inherited member of objects, and no supported package is declared in
    it.  Then the chain fetches nothing and still applies: it writes the
    manifest back, serialized again, with the constraints that were read,
    and adds the install task. *)
Theorem nothing_to_update_still_applies (supportedPackages : list string)
    (maybeVersion : option string) (loose : bool) (fuel : nat) (reg : registry)
    (c : registryClient) (h : host) (content : string) (pj : packageJson) :
  tree h !! "/package.json" = Some content ->
  parseJson content = Some pj ->
  settled (freshRun c) = true ->
  (forall p d, (p, d) ∈ declaredEdges pj -> p ∉ objectPrototypeKeys) ->
  (forall p d, (p, d) ∈ declaredEdges pj -> p ∉ supportedPackages) ->
  updatePackageJson parseJson stringify supportedPackages maybeVersion loose
    (S fuel) reg [] c h
  = ({| tree := <["/package.json" := stringify pj]> (tree h);
        tasks := (tasks h ++ ["NodePackageInstallTask"])%list |}, Applied).
Proof.
  intros Hread Hparse Hsettled _ Hnone.
  unfold updatePackageJson, resolveRule, overwriteRule, readPackageJson, resolve.
  rewrite Hread, Hparse. cbn [bind].
  rewrite walk_skips.
  - cbn [bind deliver]. rewrite Hsettled. cbn [bind freshRun allVersions].
    rewrite applyVersions_none; [reflexivity|].
    intros field d p v _ _. unfold prop. rewrite lookup_empty. reflexivity.
  - intros p d Hin. left. unfold prop, anchorTargets.
    rewrite anchorTargets_foldl, lookup_empty.
    rewrite bool_decide_eq_false_2; [reflexivity | exact (Hnone p d Hin)].
Qed.
End Chain.

(** ** Instances *)

Section FurtherScenarios.
Import NpmSemver Scenario.

Lemma selection_failure_modes_witness :
  _getVersionFromNpmPackage metaA "nonsense" false = Throw (InvalidRangeOrVersion "nonsense")
  <->
  distTag metaA "nonsense" = None /\
  ((validRange "nonsense" = false /\
    InvalidRangeOrVersion "nonsense" = InvalidRangeOrVersion "nonsense") \/
   (validRange "nonsense" = true /\
    nonEmpty (maxSatisfying (map fst [("1.0.0", noPeers); ("1.2.0", peers [("b", "^2.0.0")])])
                (widen "nonsense" false)) = None /\
    InvalidRangeOrVersion "nonsense" = NoSatisfyingVersion (widen "nonsense" false) (name metaA))).
Proof.
  apply (selection_failure_modes metaA "nonsense" false
           [("1.0.0", noPeers); ("1.2.0", peers [("b", "^2.0.0")])]
           (InvalidRangeOrVersion "nonsense")).
  - apply (bool_decide_unpack _). vm_compute. exact I.
  - reflexivity.
Defined.

Lemma selection_shape_witness :
  exists op m,
    "~1.2.0" = op ++ m /\ truthy m = true /\
    (op = EmptyString \/ op = "~" \/ op = "^") /\
    (distTag metaA "latest" = Some m \/
     (distTag metaA "latest" = None /\
      exists vs, versions metaA = Some vs /\
                 maxSatisfying (map fst vs) (widen "latest" true) = Some m)).
Proof.
  apply (selection_shape metaA "latest" true "~1.2.0").
  - apply (bool_decide_unpack _). vm_compute. exact I.
  - vm_compute. reflexivity.
Defined.

Lemma registryUrl_injective_witness : "@angular/core" = "@angular/core".
Proof.
  apply (registryUrl_injective "@angular/core" "@angular/core"); reflexivity.
Defined.

Lemma peerTargets_copies_peers_witness :
  peerTargets (peers [("b", "^2.0.0"); ("c", "^1.0.0")]) !! "c"
  = lookupKey "c" [("b", "^2.0.0"); ("c", "^1.0.0")].
Proof.
  apply (peerTargets_copies_peers (peers [("b", "^2.0.0"); ("c", "^1.0.0")])
           [("b", "^2.0.0"); ("c", "^1.0.0")] "c").
  - reflexivity.
  - apply (bool_decide_unpack _). vm_compute. exact I.
Defined.

Lemma walk_without_targets_witness :
  _getRecursiveVersions 1 manifestA (anchorTargets ["a"; "b"] "^1.0.0") emptyWorld false
  = Done emptyWorld.
Proof.
  apply (walk_without_targets manifestA false 0 (anchorTargets ["a"; "b"] "^1.0.0")
           emptyWorld).
  - intros p d Hin. apply list_elem_of_singleton in Hin. injection Hin as -> ->.
    apply (bool_decide_unpack _). vm_compute. exact I.
  - intros p d Hin. apply list_elem_of_singleton in Hin. injection Hin as -> ->.
    right. vm_compute. reflexivity.
Defined.

Lemma fast_path_needs_no_fetch_witness :
  filterEdge (fun _ _ => OutOfFuel) false (anchorTargets ["b"] "latest") ("b", "^2.0.0")
    (holding {[ "b" := "^2.5.0" ]})
  = Done (setAllVersions "b" "^2.5.0" (holding {[ "b" := "^2.5.0" ]})) /\
  client (setAllVersions "b" "^2.5.0" (holding {[ "b" := "^2.5.0" ]}))
  = client (holding {[ "b" := "^2.5.0" ]}).
Proof.
  apply (fast_path_needs_no_fetch false (fun _ _ => OutOfFuel) (anchorTargets ["b"] "latest")
           "b" "^2.0.0" "latest" "^2.5.0" "^2.5.0" (holding {[ "b" := "^2.5.0" ]}));
    try (vm_compute; reflexivity).
  discriminate.
Defined.

Lemma cached_subject_is_reused_witness :
  _getNpmPackageJson "a" failedClient = (registryUrl "a", failedClient) /\
  filterEdge (fun _ _ => OutOfFuel) false (anchorTargets ["a"] "latest") ("a", "^1.0.0")
    {| allVersions := ∅; client := failedClient |}
  = Throw RegistryFailure.
Proof.
  apply (cached_subject_is_reused false (fun _ _ => OutOfFuel) (anchorTargets ["a"] "latest")
           "a" "^1.0.0" "latest" {| allVersions := ∅; client := failedClient |}
           {| notified := Some Failure; observers := [] |});
    try (vm_compute; reflexivity).
  discriminate.
Defined.

Lemma run_fetches_declared_only_witness :
  registryUrl "b" ∈ requests (client emptyWorld) \/
  exists p, p ∈ declaredNames manifestAB /\ registryUrl "b" = registryUrl p.
Proof.
  eapply (run_fetches_declared_only manifestAB false 3 (anchorTargets ["a"] "latest")
            peerRegistry [registryUrl "a"; registryUrl "b"] emptyWorld).
  - vm_compute. reflexivity.
  - apply list_elem_of_In. vm_compute. auto.
Defined.

Lemma run_updates_declared_only_witness : "b" ∈ declaredNames manifestAB.
Proof.
  eapply (run_updates_declared_only manifestAB false 3 (anchorTargets ["a"] "latest")
            peerRegistry [registryUrl "a"; registryUrl "b"] emptyClient).
  - intros url s Hs. simpl in Hs. rewrite lookup_empty in Hs. discriminate.
  - vm_compute. reflexivity.
  - vm_compute. eexists. reflexivity.
Defined.

Lemma applyVersions_lookup_witness :
  exists d',
    lookupKey "dependencies" (applyVersions {[ "b" := "^2.5.0" ]} manifestAB) = Some d' /\
    lookupKey "b" d' = Some (match prop {[ "b" := "^2.5.0" ]} "b" with
                             | Some constraint => constraint
                             | None => "^1.0.0"
                             end).
Proof.
  apply (applyVersions_lookup {[ "b" := "^2.5.0" ]} manifestAB "dependencies" "b" "^1.0.0"
           [("a", "^1.0.0"); ("b", "^1.0.0")]).
  - apply list_elem_of_here.
  - reflexivity.
  - reflexivity.
Defined.

Lemma applyVersions_unresolved_witness :
  applyVersions {[ "zone.js" := "~0.8.0" ]} manifestA = manifestA.
Proof.
  apply (applyVersions_unresolved {[ "zone.js" := "~0.8.0" ]} manifestA).
  intros field d p v Hfield Hin.
  apply list_elem_of_singleton in Hfield. injection Hfield as -> ->.
  apply list_elem_of_singleton in Hin. injection Hin as -> ->.
  vm_compute. reflexivity.
Defined.

Lemma applied_run_writes_manifest_only_witness :
  exists content pj w',
    tree hostWithManifest !! "/package.json" = Some content /\
    Some manifestA = Some pj /\
    resolve 3 pj (anchorTargets ["a"] (requestedVersion None)) false peerRegistry
      [registryUrl "a"] (freshRun emptyClient) = Done w' /\
    settled w' = true /\
    tree {| tree := {[ "/package.json" := "written" ]};
            tasks := ["NodePackageInstallTask"] |} !! "/package.json"
    = Some "written" /\
    (forall path, path <> "/package.json" ->
                  tree {| tree := {[ "/package.json" := "written" ]};
                          tasks := ["NodePackageInstallTask"] |} !! path
                  = tree hostWithManifest !! path) /\
    tasks {| tree := {[ "/package.json" := "written" ]};
             tasks := ["NodePackageInstallTask"] |}
    = (tasks hostWithManifest ++ ["NodePackageInstallTask"])%list.
Proof.
  apply (applied_run_writes_manifest_only (fun _ => Some manifestA) (fun _ => "written")
           ["a"] None false 3 peerRegistry [registryUrl "a"] emptyClient hostWithManifest
           {| tree := {[ "/package.json" := "written" ]};
              tasks := ["NodePackageInstallTask"] |}).
  vm_compute. reflexivity.
Defined.

Lemma host_unchanged_unless_applied_witness :
  (updatePackageJson (fun _ => Some manifestA) (fun _ => "written") ["a"] None false
     3 peerRegistry [] emptyClient hostWithManifest).1 = hostWithManifest.
Proof.
  apply (host_unchanged_unless_applied (fun _ => Some manifestA) (fun _ => "written")
           ["a"] None false 3 peerRegistry [] emptyClient hostWithManifest).
  vm_compute. discriminate.
Defined.

Lemma nothing_to_update_still_applies_witness :
  updatePackageJson (fun _ => Some manifestA) (fun _ => "written") ["zone.js"] None false
    1 peerRegistry [] emptyClient hostWithManifest
  = ({| tree := <["/package.json" := "written"]> (tree hostWithManifest);
        tasks := (tasks hostWithManifest ++ ["NodePackageInstallTask"])%list |}, Applied).
Proof.
  apply (nothing_to_update_still_applies (fun _ => Some manifestA) (fun _ => "written")
           ["zone.js"] None false 0 peerRegistry emptyClient hostWithManifest "{}" manifestA).
  - reflexivity.
  - reflexivity.
  - vm_compute. reflexivity.
  - intros p d Hin. apply list_elem_of_singleton in Hin. injection Hin as -> ->.
    apply (bool_decide_unpack _). vm_compute. exact I.
  - intros p d Hin. apply list_elem_of_singleton in Hin. injection Hin as -> ->.
    intros Hzone. apply list_elem_of_singleton in Hzone. discriminate.
Defined.
End FurtherScenarios.
